(** * DualIcosphereGraph

    A shallow embedding of [landlab/graph/quasi_spherical/dual_icosphere.py]:
    the builders of the primal mesh (nodes, links, patches) and of its dual
    (cells, faces, corners) on an icosphere, with the index tables they fill,
    and the properties of those tables.

    Conventions of the embedding.
    - [self] is a record [Graph]; a method is a function from the record to a
      [result] holding the updated record, or to the exception it raises.
    - A NumPy integer array is a list of [Z]; a two-dimensional one a list of
      rows.  Indexing follows NumPy: a negative index counts from the end,
      anything else out of range raises [IndexError].
    - Floating-point numbers are an abstract type [F] with the operations the
      code uses (class [Numeric]); the real numbers are its reference
      instance.  The functions of [landlab.utils.geometry.spherical] are
      imported by the module but are not part of it: they are parameters.
    - [to_vtk] and [_points_and_cells_to_vtk], of the grid class
      [IcosphereGlobalGrid] in [landlab/grid/icosphere.py] that derives from
      the graph, are embedded with a file as the list of its lines. *)

From Stdlib Require Import ZArith List Lia Reals Lra Permutation String
  DecimalString.
From stdpp Require Import base list gmap strings.

Local Open Scope Z_scope.

(** ** Exceptions *)

Inductive exn :=
  IndexError | KeyError | TypeError | ValueError | AttributeError
  | OverflowError.

Inductive result (A : Type) :=
  | Ok (a : A)
  | Raise (e : exn).
Arguments Ok {A} a.
Arguments Raise {A} e.

#[global] Instance result_ret : MRet result := fun A a => Ok a.
#[global] Instance result_bind : MBind result := fun A B f m =>
  match m with
  | Ok a => f a
  | Raise e => Raise e
  end.

(** A [for] loop whose body may raise. *)
Fixpoint for_each {S B : Type} (body : S -> B -> result S) (l : list B) (s : S)
  : result S :=
  match l with
  | [] => Ok s
  | x :: l' => s' ← body s x; for_each body l' s'
  end.

Fixpoint map_result {A B : Type} (f : A -> result B) (l : list A)
  : result (list B) :=
  match l with
  | [] => Ok []
  | x :: l' => y ← f x; ys ← map_result f l'; Ok (y :: ys)
  end.

(** ** NumPy arrays *)

Module np.

(** Position named by index [i] in an axis of length [n]. *)
Definition index (n : nat) (i : Z) : result nat :=
  if bool_decide (0 ≤ i < Z.of_nat n) then Ok (Z.to_nat i)
  else if bool_decide (- Z.of_nat n ≤ i < 0) then Ok (Z.to_nat (i + Z.of_nat n))
  else Raise IndexError.

(** [a[i]] *)
Definition getitem {A} (a : list A) (i : Z) : result A :=
  k ← index (length a) i;
  match a !! k with
  | Some x => Ok x
  | None => Raise IndexError
  end.

(** [a[i] = x] *)
Definition setitem {A} (a : list A) (i : Z) (x : A) : result (list A) :=
  k ← index (length a) i; Ok (<[k := x]> a).

(** [a[i, j]] *)
Definition getitem2 {A} (a : list (list A)) (i j : Z) : result A :=
  row ← getitem a i; getitem row j.

(** [a[i, j] = x] *)
Definition setitem2 {A} (a : list (list A)) (i j : Z) (x : A)
  : result (list (list A)) :=
  row ← getitem a i; row' ← setitem row j x; setitem a i row'.

(** [a[ids]] for an index array [ids]. *)
Definition take_ids {A} (a : list A) (ids : list Z) : result (list A) :=
  map_result (getitem a) ids.

(** [np.full((n, m), x)] *)
Definition full2 {A} (n m : nat) (x : A) : list (list A) :=
  replicate n (replicate m x).

(** [np.count_nonzero(a)] *)
Definition count_nonzero (a : list Z) : nat :=
  length (filter (fun x => x ≠ 0) a).

(** [np.amin(a)], on a non-empty array. *)
Definition amin (a : list Z) : result Z :=
  match a with
  | [] => Raise ValueError
  | x :: a' => Ok (foldl Z.min x a')
  end.

(** [np.arange(n)] *)
Definition arange (n : nat) : list Z := Z.of_nat <$> seq 0 n.

(** [np.amax(a)], on a non-empty array. *)
Definition amax (a : list Z) : result Z :=
  match a with
  | [] => Raise ValueError
  | x :: a' => Ok (foldl Z.max x a')
  end.

(** [np.sum(a)] *)
Definition sum (a : list Z) : Z := foldr Z.add 0 a.

(** The values of the dtype [int], a signed integer of 64 bits. *)
Definition is_int64 (v : Z) : Prop := - 2 ^ 63 ≤ v < 2 ^ 63.

(** A Python int on its way into a slot of an [int] array, [a[i] = v]: one
    beyond 64 bits raises [OverflowError]. *)
Definition as_int64 (v : Z) : result Z :=
  if bool_decide (is_int64 v) then Ok v else Raise OverflowError.

End np.

(** ** Rows of Python ints stored in an [int] array

    [a[p, :] = np.array(t)] stores the tuple [t] of Python ints as it is when
    its three values fit 64 bits.  When one does not, what the row holds
    afterwards is NumPy's business: [np.array] gives the tuple the dtype
    [uint64], [float64] or [object] by its values, and the assignment casts
    that to [int]; it wraps values, converts them through floating point, or
    raises [OverflowError].  That row is a parameter of the embedding, with
    what the builders rely on:
    - the only exception is [OverflowError], and a row that is stored holds
      values of 64 bits;
    - a tuple with a negative value never gets the dtype [uint64]: a value of
      it beyond 64 bits makes the assignment raise or goes through
      [float64], whose cast to [int] leaves the least or the greatest value
      of 64 bits, here only known to lie beyond [2 ^ 62] either way. *)

Definition int64_row (t : Z * Z * Z) : Prop :=
  np.is_int64 t.1.1 ∧ np.is_int64 t.1.2 ∧ np.is_int64 t.2.

(** Where the cast of a [float64] beyond 64 bits lands. *)
Definition beyond_index (v : Z) : Prop := v ≤ - 2 ^ 62 ∨ 2 ^ 62 ≤ v.

Class RowBeyondInt64 := {
  row_beyond_int64 : Z * Z * Z -> result (Z * Z * Z);
  row_beyond_int64_raises t e :
    row_beyond_int64 t = Raise e → e = OverflowError;
  row_beyond_int64_stored t t' :
    row_beyond_int64 t = Ok t' → int64_row t';
  row_beyond_int64_float t t' :
    row_beyond_int64 t = Ok t' → t.1.1 < 0 ∨ t.1.2 < 0 ∨ t.2 < 0 →
    (¬ np.is_int64 t.1.1 → beyond_index t'.1.1) ∧
    (¬ np.is_int64 t.1.2 → beyond_index t'.1.2) ∧
    (¬ np.is_int64 t.2 → beyond_index t'.2)
}.

(** [a[p, :] = np.array(t)]: the row that [a] holds afterwards. *)
Definition as_int64_row `{!RowBeyondInt64} (t : Z * Z * Z)
  : result (Z * Z * Z) :=
  if bool_decide (int64_row t) then Ok t else row_beyond_int64 t.

(** The rows that an array of [int] holds for the triangles [fs]. *)
Definition stored_rows `{!RowBeyondInt64} (fs rows : list (Z * Z * Z)) : Prop :=
  Forall2 (fun t row => as_int64_row t = Ok row) fs rows.

(** ** Numbers and the geometry kernel *)

(** The floating-point operations of Python and NumPy that the module uses. *)
Class Numeric (F : Type) := {
  f0 : F;                          (* 0.0 *)
  fadd : F -> F -> F;
  fsub : F -> F -> F;
  fmul : F -> F -> F;
  fdiv : F -> F -> F;
  fneg : F -> F;
  flt : F -> F -> bool;            (* a < b *)
  of_int : Z -> F;                 (* int to float *)
  fsqrt : F -> F;                  (* np.sqrt *)
  two_pi : F;                      (* 2 * np.pi *)
  arctan2 : F -> F -> F;           (* np.arctan2(y, x) *)
  argsort : list F -> list nat     (* np.argsort *)
}.

Definition vec3 (F : Type) : Type := F * F * F.

(** [landlab.utils.geometry.spherical]: imported by the module, defined
    elsewhere.  The functions act on scalars; where the module passes arrays
    they are applied element by element. *)
Class ArcLength (F : Type) := arc_length : vec3 F -> vec3 F -> F -> F.
Class AreaOfSphertri (F : Type) :=
  area_of_sphertri : vec3 F -> vec3 F -> vec3 F -> F -> F.
Class CartesianToSpherical (F : Type) :=
  cartesian_to_spherical : F -> F -> F -> F * F * F.
Class RotateZY (F : Type) := rotate_zy : F -> F -> F -> F -> F -> F * F * F.

(** What [np.argsort] promises about its result [idx] for the keys [a]: a
    rearrangement of the positions of [a] along which the keys never
    decrease. *)
Definition nondecreasing {F} (lt : F -> F -> bool) (l : list F) : Prop :=
  ∀ (i : nat) x y, l !! i = Some x → l !! (S i) = Some y → lt y x = false.

Definition increasing {F} (lt : F -> F -> bool) (l : list F) : Prop :=
  ∀ (i : nat) x y, l !! i = Some x → l !! (S i) = Some y → lt x y = true.

(** No two of the keys are the same: of each two, at different positions,
    one is less than the other.  For floating-point keys this says that they
    differ and that none is a NaN. *)
Definition distinct_keys {F} (lt : F -> F -> bool) (l : list F) : Prop :=
  ∀ (i j : nat) x y, i ≠ j → l !! i = Some x → l !! j = Some y →
    lt x y = true ∨ lt y x = true.

(** What [<] is on floating-point numbers, NaN included: no number is less
    than itself, and less than a number that is less than a third is less
    than the third. *)
Definition strict_order {F} (lt : F -> F -> bool) : Prop :=
  (∀ x, lt x x = false) ∧
  (∀ x y z, lt x y = true → lt y z = true → lt x z = true).

Definition is_argsort {F} (lt : F -> F -> bool) (a : list F) (idx : list nat)
  : Prop :=
  Permutation idx (seq 0 (length a)) ∧
  ∃ keys, Forall2 (fun i k => a !! i = Some k) idx keys ∧ nondecreasing lt keys.

(** ** The graph object *)

Section Graph.
Context {F : Type} {beyond_int64 : RowBeyondInt64}.

Record Graph := {
  radius : F;
  coords_of_node : list (vec3 F);
  number_of_nodes : nat;
  links : list (Z * (Z * Z));          (* dict, in insertion order *)
  nodes_at_link : list (Z * Z);
  links_at_node : list (list Z);
  link_dirs_at_node : list (list Z);
  number_of_links : nat;
  length_of_link : list F;
  number_of_corners : nat;
  number_of_patches : nat;
  nodes_at_patch : list (Z * Z * Z);
  corners_at_node : list (list Z);
  coords_of_corner : list (vec3 F);
  number_of_faces : nat;
  corners_at_face : list (Z * Z);
  length_of_face : list F;
  number_of_cells : nat;
  area_of_cell : list F;
  _cell_at_node : option (list Z);
  _face_at_link : option (list Z);
  _area_of_patch : option (list F);
  _r_of_node : option (list F);
  _phi_of_node : option (list F);
  _theta_of_node : option (list F)
}.

(** The object as [__init__] finds it: no attribute has been assigned. *)
Definition new_graph (r : F) : Graph := {|
  radius := r;
  coords_of_node := []; number_of_nodes := 0;
  links := []; nodes_at_link := []; links_at_node := [];
  link_dirs_at_node := []; number_of_links := 0; length_of_link := [];
  number_of_corners := 0; number_of_patches := 0; nodes_at_patch := [];
  corners_at_node := []; coords_of_corner := [];
  number_of_faces := 0; corners_at_face := []; length_of_face := [];
  number_of_cells := 0; area_of_cell := [];
  _cell_at_node := None; _face_at_link := None; _area_of_patch := None;
  _r_of_node := None; _phi_of_node := None; _theta_of_node := None
|}.

(** Views of the coordinate arrays. *)
Definition x_of_node (g : Graph) : list F := (fun p => p.1.1) <$> coords_of_node g.
Definition y_of_node (g : Graph) : list F := (fun p => p.1.2) <$> coords_of_node g.
Definition z_of_node (g : Graph) : list F := (fun p => p.2) <$> coords_of_node g.
Definition x_of_corner (g : Graph) : list F := (fun p => p.1.1) <$> coords_of_corner g.
Definition y_of_corner (g : Graph) : list F := (fun p => p.1.2) <$> coords_of_corner g.
Definition z_of_corner (g : Graph) : list F := (fun p => p.2) <$> coords_of_corner g.
Definition node_at_link_tail (g : Graph) : list Z := fst <$> nodes_at_link g.
Definition node_at_link_head (g : Graph) : list Z := snd <$> nodes_at_link g.

(** *** setup_nodes *)

Definition setup_nodes (ico_vertices : list (vec3 F)) (g : Graph) : Graph := {|
  radius := radius g;
  coords_of_node := ico_vertices;
  number_of_nodes := length ico_vertices;
  links := links g; nodes_at_link := nodes_at_link g;
  links_at_node := links_at_node g;
  link_dirs_at_node := link_dirs_at_node g;
  number_of_links := number_of_links g; length_of_link := length_of_link g;
  number_of_corners := number_of_corners g;
  number_of_patches := number_of_patches g;
  nodes_at_patch := nodes_at_patch g; corners_at_node := corners_at_node g;
  coords_of_corner := coords_of_corner g;
  number_of_faces := number_of_faces g; corners_at_face := corners_at_face g;
  length_of_face := length_of_face g;
  number_of_cells := number_of_cells g; area_of_cell := area_of_cell g;
  _cell_at_node := _cell_at_node g; _face_at_link := _face_at_link g;
  _area_of_patch := _area_of_patch g;
  _r_of_node := _r_of_node g; _phi_of_node := _phi_of_node g;
  _theta_of_node := _theta_of_node g
|}.

(** *** add_link *)

Definition link_key (p1 p2 : Z) : Z := (Z.min p1 p2 ≪ 32) + Z.max p1 p2.

Definition add_link (links : list (Z * (Z * Z))) (p1 p2 : Z)
  : list (Z * (Z * Z)) :=
  let key := link_key p1 p2 in
  if bool_decide (key ∈ links.*1) then links else links ++ [(key, (p1, p2))].

(** The first loop of [setup_links]. *)
Definition register_links (ico_faces : list (Z * Z * Z)) : list (Z * (Z * Z)) :=
  foldl (fun links '(a, b, c) =>
           add_link (add_link (add_link links a b) b c) c a)
        [] ico_faces.

(** *** setup_links *)

Context `{!Numeric F, !ArcLength F}.

(** The arrays the second loop of [setup_links] writes, and its counter. *)
Record link_tables := {
  lt_i : nat;
  lt_nodes_at_link : list (Z * Z);
  lt_links_at_node : list (list Z);
  lt_link_dirs_at_node : list (list Z);
  lt_link_at_node_index : list Z;
  lt_length_of_link : list F
}.

(** [links_at_node[n, link_at_node_index[n]] = i], the direction sign in the
    same slot, and the slot counter advanced. *)
Definition attach_link (n : Z) (i : Z) (dir : Z)
    (lan dirs : list (list Z)) (ix : list Z)
  : result (list (list Z) * list (list Z) * list Z) :=
  k ← np.getitem ix n;
  lan' ← np.setitem2 lan n k i;
  k ← np.getitem ix n;
  dirs' ← np.setitem2 dirs n k dir;
  k ← np.getitem ix n;
  ix' ← np.setitem ix n (k + 1);
  Ok (lan', dirs', ix').

Definition link_body (r : F) (coords : list (vec3 F))
    (t : link_tables) (link : Z * Z) : result link_tables :=
  let i := Z.of_nat (lt_i t) in
  let tail := link.1 in
  (* nodes_at_link[i, 0] = tail, an array of int *)
  row ← np.getitem (lt_nodes_at_link t) i;
  tail64 ← np.as_int64 tail;
  nal ← np.setitem (lt_nodes_at_link t) i (tail64, row.2);
  '(lan, dirs, ix) ← attach_link tail i (-1) (lt_links_at_node t)
                        (lt_link_dirs_at_node t) (lt_link_at_node_index t);
  let head := link.2 in
  (* nodes_at_link[i, 1] = head *)
  row ← np.getitem nal i;
  head64 ← np.as_int64 head;
  nal ← np.setitem nal i (row.1, head64);
  '(lan, dirs, ix) ← attach_link head i 1 lan dirs ix;
  p ← np.getitem coords tail;
  q ← np.getitem coords head;
  len ← np.setitem (lt_length_of_link t) i (fmul r (arc_length p q r));
  Ok {| lt_i := S (lt_i t); lt_nodes_at_link := nal; lt_links_at_node := lan;
        lt_link_dirs_at_node := dirs; lt_link_at_node_index := ix;
        lt_length_of_link := len |}.

Definition setup_links (ico_faces : list (Z * Z * Z)) (g : Graph)
  : result Graph :=
  let links := register_links ico_faces in
  let n := number_of_nodes g in
  let t0 := {| lt_i := 0;
               (* int(1.5 * len(ico_faces)) rows *)
               lt_nodes_at_link := replicate (3 * length ico_faces / 2)%nat (0, 0);
               lt_links_at_node := np.full2 n 6 (-1);
               lt_link_dirs_at_node := np.full2 n 6 0;
               lt_link_at_node_index := replicate n 0;
               lt_length_of_link := replicate (length links) f0 |} in
  t ← for_each (link_body (radius g) (coords_of_node g)) links.*2 t0;
  Ok {|
    radius := radius g;
    coords_of_node := coords_of_node g;
    number_of_nodes := number_of_nodes g;
    links := links;
    nodes_at_link := lt_nodes_at_link t;
    links_at_node := lt_links_at_node t;
    link_dirs_at_node := lt_link_dirs_at_node t;
    number_of_links := length links;
    length_of_link := lt_length_of_link t;
    number_of_corners := number_of_corners g;
    number_of_patches := number_of_patches g;
    nodes_at_patch := nodes_at_patch g; corners_at_node := corners_at_node g;
    coords_of_corner := coords_of_corner g;
    number_of_faces := number_of_faces g; corners_at_face := corners_at_face g;
    length_of_face := length_of_face g;
    number_of_cells := number_of_cells g; area_of_cell := area_of_cell g;
    _cell_at_node := _cell_at_node g; _face_at_link := _face_at_link g;
    _area_of_patch := _area_of_patch g;
    _r_of_node := _r_of_node g; _phi_of_node := _phi_of_node g;
    _theta_of_node := _theta_of_node g
  |}.


(** *** set_coords_of_corner *)

Definition vsub (p q : vec3 F) : vec3 F :=
  (fsub p.1.1 q.1.1, fsub p.1.2 q.1.2, fsub p.2 q.2).

(** [np.cross], on one row. *)
Definition cross (u v : vec3 F) : vec3 F :=
  (fsub (fmul u.1.2 v.2) (fmul u.2 v.1.2),
   fsub (fmul u.2 v.1.1) (fmul u.1.1 v.2),
   fsub (fmul u.1.1 v.1.2) (fmul u.1.2 v.1.1)).

(** [np.sqrt(x**2 + y**2 + z**2)] *)
Definition veclen (c : vec3 F) : F :=
  fsqrt (fadd (fadd (fmul c.1.1 c.1.1) (fmul c.1.2 c.1.2)) (fmul c.2 c.2)).

(** One row of [coords_of_corner]: the cross product of two sides of the
    patch, each column then multiplied by [radius / veclen]. *)
Definition corner_of_patch (r : F) (p0 p1 p2 : vec3 F) : vec3 F :=
  let c := cross (vsub p1 p0) (vsub p2 p0) in
  let s := fdiv r (veclen c) in
  (fmul c.1.1 s, fmul c.1.2 s, fmul c.2 s).

Definition set_coords_of_corner (g : Graph) : result Graph :=
  p0 ← np.take_ids (coords_of_node g) ((fun t => t.1.1) <$> nodes_at_patch g);
  p1 ← np.take_ids (coords_of_node g) ((fun t => t.1.2) <$> nodes_at_patch g);
  p2 ← np.take_ids (coords_of_node g) ((fun t => t.2) <$> nodes_at_patch g);
  let coords :=
    zip_with (fun a bc => corner_of_patch (radius g) a bc.1 bc.2) p0 (zip p1 p2) in
  Ok
  {|
    radius := radius g;
    coords_of_node := coords_of_node g;
    number_of_nodes := number_of_nodes g;
    links := links g;
    nodes_at_link := nodes_at_link g;
    links_at_node := links_at_node g;
    link_dirs_at_node := link_dirs_at_node g;
    number_of_links := number_of_links g;
    length_of_link := length_of_link g;
    number_of_corners := number_of_corners g;
    number_of_patches := number_of_patches g;
    nodes_at_patch := nodes_at_patch g;
    corners_at_node := corners_at_node g;
    coords_of_corner := coords;
    number_of_faces := number_of_faces g;
    corners_at_face := corners_at_face g;
    length_of_face := length_of_face g;
    number_of_cells := number_of_cells g;
    area_of_cell := area_of_cell g;
    _cell_at_node := _cell_at_node g;
    _face_at_link := _face_at_link g;
    _area_of_patch := _area_of_patch g;
    _r_of_node := _r_of_node g;
    _phi_of_node := _phi_of_node g;
    _theta_of_node := _theta_of_node g
  |}.

(** *** Spherical coordinates of the nodes, computed on first use *)

Context `{!CartesianToSpherical F, !RotateZY F, !AreaOfSphertri F}.

Definition _setup_node_spherical_coords (g : Graph) : Graph :=
  let sph := (fun p : vec3 F => cartesian_to_spherical p.1.1 p.1.2 p.2)
               <$> coords_of_node g in
  {|
    radius := radius g;
    coords_of_node := coords_of_node g;
    number_of_nodes := number_of_nodes g;
    links := links g;
    nodes_at_link := nodes_at_link g;
    links_at_node := links_at_node g;
    link_dirs_at_node := link_dirs_at_node g;
    number_of_links := number_of_links g;
    length_of_link := length_of_link g;
    number_of_corners := number_of_corners g;
    number_of_patches := number_of_patches g;
    nodes_at_patch := nodes_at_patch g;
    corners_at_node := corners_at_node g;
    coords_of_corner := coords_of_corner g;
    number_of_faces := number_of_faces g;
    corners_at_face := corners_at_face g;
    length_of_face := length_of_face g;
    number_of_cells := number_of_cells g;
    area_of_cell := area_of_cell g;
    _cell_at_node := _cell_at_node g;
    _face_at_link := _face_at_link g;
    _area_of_patch := _area_of_patch g;
    _r_of_node := Some ((fun s => s.1.1) <$> sph);
    _phi_of_node := Some ((fun s => s.1.2) <$> sph);
    _theta_of_node := Some ((fun s => s.2) <$> sph)
  |}.

(** A property that mutates the object returns its value and the object. *)
Definition memoized {A} (slot : Graph -> option A) (compute : Graph -> Graph)
    (g : Graph) : result (A * Graph) :=
  match slot g with
  | Some v => Ok (v, g)
  | None =>
      let g' := compute g in
      match slot g' with
      | Some v => Ok (v, g')
      | None => Raise AttributeError
      end
  end.

Definition r_of_node := memoized _r_of_node _setup_node_spherical_coords.
Definition phi_of_node := memoized _phi_of_node _setup_node_spherical_coords.
Definition theta_of_node := memoized _theta_of_node _setup_node_spherical_coords.

(** *** sort_corners_ccw *)

Definition with_corners_at_node (c : list (list Z)) (g : Graph) : Graph :=
  {|
    radius := radius g;
    coords_of_node := coords_of_node g;
    number_of_nodes := number_of_nodes g;
    links := links g;
    nodes_at_link := nodes_at_link g;
    links_at_node := links_at_node g;
    link_dirs_at_node := link_dirs_at_node g;
    number_of_links := number_of_links g;
    length_of_link := length_of_link g;
    number_of_corners := number_of_corners g;
    number_of_patches := number_of_patches g;
    nodes_at_patch := nodes_at_patch g;
    corners_at_node := c;
    coords_of_corner := coords_of_corner g;
    number_of_faces := number_of_faces g;
    corners_at_face := corners_at_face g;
    length_of_face := length_of_face g;
    number_of_cells := number_of_cells g;
    area_of_cell := area_of_cell g;
    _cell_at_node := _cell_at_node g;
    _face_at_link := _face_at_link g;
    _area_of_patch := _area_of_patch g;
    _r_of_node := _r_of_node g;
    _phi_of_node := _phi_of_node g;
    _theta_of_node := _theta_of_node g
  |}.

(** [ang = np.arctan2(rcy, rcx); ang[ang < 0.0] += 2 * np.pi] for one
    corner at [(cx, cy, cz)], seen from a node at azimuth [phi] and polar
    angle [theta]. *)
Definition corner_angle (phi theta : F) (c : vec3 F) : F :=
  let rc := rotate_zy c.1.1 c.1.2 c.2 (fneg phi) (fneg theta) in
  let ang := arctan2 rc.1.2 rc.1.1 in
  if flt ang f0 then fadd ang two_pi else ang.

Definition sort_corners_at (g : Graph) (node : nat) : result Graph :=
  row ← np.getitem (corners_at_node g) (Z.of_nat node);
  let nc := np.count_nonzero ((fun c => c + 1) <$> row) in
  cx ← np.take_ids (x_of_corner g) (take nc row);
  cy ← np.take_ids (y_of_corner g) (take nc row);
  cz ← np.take_ids (z_of_corner g) (take nc row);
  '(phi, g) ← phi_of_node g;
  phi ← np.getitem phi (Z.of_nat node);
  '(theta, g) ← theta_of_node g;
  theta ← np.getitem theta (Z.of_nat node);
  let ang := zip_with (fun x yz => corner_angle phi theta (x, yz.1, yz.2))
               cx (zip cy cz) in
  let idx := argsort ang in
  sorted ← np.take_ids row (Z.of_nat <$> idx);
  (* corners_at_node[node, :nc] = sorted *)
  if bool_decide (length sorted = nc) then
    c ← np.setitem (corners_at_node g) (Z.of_nat node) (sorted ++ drop nc row);
    Ok (with_corners_at_node c g)
  else if bool_decide (length sorted = 1%nat) then
    c ← np.setitem (corners_at_node g) (Z.of_nat node)
          (flat_map (replicate nc) sorted ++ drop nc row);
    Ok (with_corners_at_node c g)
  else Raise ValueError.

Definition sort_corners_ccw (g : Graph) : result Graph :=
  for_each sort_corners_at (seq 0 (number_of_nodes g)) g.

(** *** setup_patches_and_corners *)

(** [corners_at_node[node, corners_at_node_index[node]] = p] and the slot
    counter advanced. *)
Definition attach_corner (p : Z) (st : list (list Z) * list Z) (node : Z)
  : result (list (list Z) * list Z) :=
  k ← np.getitem st.2 node;
  can ← np.setitem2 st.1 node k p;
  k ← np.getitem st.2 node;
  ix ← np.setitem st.2 node (k + 1);
  Ok (can, ix).

(** [for node in self.nodes_at_patch[p, :]: ...], [row] being that row. *)
Definition attach_patch (st : list (list Z) * list Z) (pf : nat * (Z * Z * Z))
  : result (list (list Z) * list Z) :=
  let '(p, (a, b, c)) := pf in
  for_each (attach_corner (Z.of_nat p)) [a; b; c] st.

(** The tables that the loop over the patches fills. *)
Record patch_tables := {
  pt_nodes_at_patch : list (Z * Z * Z);
  pt_corners : list (list Z) * list Z    (* corners_at_node and its index *)
}.

Definition patch_body (t : patch_tables) (pf : nat * (Z * Z * Z))
  : result patch_tables :=
  (* nodes_at_patch[p, :] = np.array(ico_faces[p]) *)
  row ← as_int64_row pf.2;
  nap ← np.setitem (pt_nodes_at_patch t) (Z.of_nat pf.1) row;
  st ← attach_patch (pt_corners t) (pf.1, row);
  Ok {| pt_nodes_at_patch := nap; pt_corners := st |}.

(** The part of [setup_patches_and_corners] that fills [nodes_at_patch]
    and [corners_at_node]. *)
Definition setup_patch_tables (ico_faces : list (Z * Z * Z)) (g : Graph)
  : result Graph :=
  let n := number_of_nodes g in
  t ← for_each patch_body (zip (seq 0 (length ico_faces)) ico_faces)
        {| pt_nodes_at_patch := replicate (length ico_faces) (0, 0, 0);
           pt_corners := (np.full2 n 6 (-1), replicate n 0) |};
  let st := pt_corners t in
  Ok
    {|
      radius := radius g;
      coords_of_node := coords_of_node g;
      number_of_nodes := number_of_nodes g;
      links := links g;
      nodes_at_link := nodes_at_link g;
      links_at_node := links_at_node g;
      link_dirs_at_node := link_dirs_at_node g;
      number_of_links := number_of_links g;
      length_of_link := length_of_link g;
      number_of_corners := length ico_faces;
      number_of_patches := length ico_faces;
      nodes_at_patch := pt_nodes_at_patch t;
      corners_at_node := st.1;
      coords_of_corner := coords_of_corner g;
      number_of_faces := number_of_faces g;
      corners_at_face := corners_at_face g;
      length_of_face := length_of_face g;
      number_of_cells := number_of_cells g;
      area_of_cell := area_of_cell g;
      _cell_at_node := _cell_at_node g;
      _face_at_link := _face_at_link g;
      _area_of_patch := _area_of_patch g;
      _r_of_node := _r_of_node g;
      _phi_of_node := _phi_of_node g;
      _theta_of_node := _theta_of_node g
    |}.

Definition setup_patches_and_corners (ico_faces : list (Z * Z * Z)) (g : Graph)
  : result Graph :=
  g ← setup_patch_tables ico_faces g;
  g ← set_coords_of_corner g;
  sort_corners_ccw g.

(** *** setup_faces *)

(** A value of the dict [patches_at_node_pair]: one patch index, or a pair. *)
Inductive patches := One (i : Z) | Two (lo hi : Z).

Definition register_edge (i : Z) (d : gmap (Z * Z) patches) (e : Z * Z)
  : result (gmap (Z * Z) patches) :=
  let key := (Z.min e.1 e.2, Z.max e.1 e.2) in
  match d !! key with
  | Some (One patch1) => Ok (<[key := Two (Z.min i patch1) (Z.max i patch1)]> d)
  | Some (Two _ _) => Raise TypeError        (* min(i, patch1) on a tuple *)
  | None => Ok (<[key := One i]> d)           (* except KeyError *)
  end.

(** The pairs [(nodes_at_patch[i, j - 1], nodes_at_patch[i, j])], j = 0, 1, 2. *)
Definition patch_edges (t : Z * Z * Z) : list (Z * Z) :=
  let '(a, b, c) := t in [(c, a); (a, b); (b, c)].

Definition patches_at_node_pair (g : Graph) : result (gmap (Z * Z) patches) :=
  for_each (fun d (i : nat) =>
              t ← np.getitem (nodes_at_patch g) (Z.of_nat i);
              for_each (register_edge (Z.of_nat i)) (patch_edges t) d)
    (seq 0 (number_of_patches g)) ∅.

Definition face_body (g : Graph) (d : gmap (Z * Z) patches)
    (st : list (Z * Z) * list F) (face : nat) : result (list (Z * Z) * list F) :=
  row ← np.getitem (nodes_at_link g) (Z.of_nat face);
  let ln1 := Z.min row.1 row.2 in
  let ln2 := Z.max row.1 row.2 in
  match d !! (ln1, ln2) with
  | None => Raise KeyError
  | Some (One _) => Raise TypeError           (* cnr0, cnr1 = an int *)
  | Some (Two cnr0 cnr1) =>
      caf ← np.setitem st.1 (Z.of_nat face) (cnr0, cnr1);
      c0 ← np.getitem (coords_of_corner g) cnr0;
      c1 ← np.getitem (coords_of_corner g) cnr1;
      lof ← np.setitem st.2 (Z.of_nat face)
              (fmul (radius g) (arc_length c0 c1 (radius g)));
      Ok (caf, lof)
  end.

Definition setup_faces (g : Graph) : result Graph :=
  d ← patches_at_node_pair g;
  let nf := number_of_links g in
  st ← for_each (face_body g d) (seq 0 nf) (replicate nf (0, 0), replicate nf f0);
  Ok
  {|
    radius := radius g;
    coords_of_node := coords_of_node g;
    number_of_nodes := number_of_nodes g;
    links := links g;
    nodes_at_link := nodes_at_link g;
    links_at_node := links_at_node g;
    link_dirs_at_node := link_dirs_at_node g;
    number_of_links := number_of_links g;
    length_of_link := length_of_link g;
    number_of_corners := number_of_corners g;
    number_of_patches := number_of_patches g;
    nodes_at_patch := nodes_at_patch g;
    corners_at_node := corners_at_node g;
    coords_of_corner := coords_of_corner g;
    number_of_faces := nf;
    corners_at_face := st.1;
    length_of_face := st.2;
    number_of_cells := number_of_cells g;
    area_of_cell := area_of_cell g;
    _cell_at_node := _cell_at_node g;
    _face_at_link := _face_at_link g;
    _area_of_patch := _area_of_patch g;
    _r_of_node := _r_of_node g;
    _phi_of_node := _phi_of_node g;
    _theta_of_node := _theta_of_node g
  |}.

(** *** setup_cells *)

Definition cell_body (g : Graph) (areas : list F) (cell : nat) : result (list F) :=
  p0 ← np.getitem (coords_of_node g) (Z.of_nat cell);
  row ← np.getitem (corners_at_node g) (Z.of_nat cell);
  c ← np.getitem row 0;
  p1 ← np.getitem (coords_of_corner g) c;
  row ← np.getitem (corners_at_node g) (Z.of_nat cell);
  c ← np.getitem row 1;
  p2 ← np.getitem (coords_of_corner g) c;
  let area_of_tri := area_of_sphertri p0 p1 p2 (radius g) in
  row ← np.getitem (corners_at_node g) (Z.of_nat cell);
  m ← np.amin row;
  let ntri := 5 + (if bool_decide (m > -1) then 1 else 0) in
  np.setitem areas (Z.of_nat cell) (fmul (of_int ntri) area_of_tri).

Definition setup_cells (g : Graph) : result Graph :=
  let nc := number_of_nodes g in
  areas ← for_each (cell_body g) (seq 0 nc) (replicate nc f0);
  Ok
  {|
    radius := radius g;
    coords_of_node := coords_of_node g;
    number_of_nodes := number_of_nodes g;
    links := links g;
    nodes_at_link := nodes_at_link g;
    links_at_node := links_at_node g;
    link_dirs_at_node := link_dirs_at_node g;
    number_of_links := number_of_links g;
    length_of_link := length_of_link g;
    number_of_corners := number_of_corners g;
    number_of_patches := number_of_patches g;
    nodes_at_patch := nodes_at_patch g;
    corners_at_node := corners_at_node g;
    coords_of_corner := coords_of_corner g;
    number_of_faces := number_of_faces g;
    corners_at_face := corners_at_face g;
    length_of_face := length_of_face g;
    number_of_cells := nc;
    area_of_cell := areas;
    _cell_at_node := _cell_at_node g;
    _face_at_link := _face_at_link g;
    _area_of_patch := _area_of_patch g;
    _r_of_node := _r_of_node g;
    _phi_of_node := _phi_of_node g;
    _theta_of_node := _theta_of_node g
  |}.

(** *** Properties *)

Definition set_cell_at_node (g : Graph) : Graph :=
  {|
    radius := radius g;
    coords_of_node := coords_of_node g;
    number_of_nodes := number_of_nodes g;
    links := links g;
    nodes_at_link := nodes_at_link g;
    links_at_node := links_at_node g;
    link_dirs_at_node := link_dirs_at_node g;
    number_of_links := number_of_links g;
    length_of_link := length_of_link g;
    number_of_corners := number_of_corners g;
    number_of_patches := number_of_patches g;
    nodes_at_patch := nodes_at_patch g;
    corners_at_node := corners_at_node g;
    coords_of_corner := coords_of_corner g;
    number_of_faces := number_of_faces g;
    corners_at_face := corners_at_face g;
    length_of_face := length_of_face g;
    number_of_cells := number_of_cells g;
    area_of_cell := area_of_cell g;
    _cell_at_node := Some (np.arange (number_of_nodes g));
    _face_at_link := _face_at_link g;
    _area_of_patch := _area_of_patch g;
    _r_of_node := _r_of_node g;
    _phi_of_node := _phi_of_node g;
    _theta_of_node := _theta_of_node g
  |}.

Definition set_face_at_link (g : Graph) : Graph :=
  {|
    radius := radius g;
    coords_of_node := coords_of_node g;
    number_of_nodes := number_of_nodes g;
    links := links g;
    nodes_at_link := nodes_at_link g;
    links_at_node := links_at_node g;
    link_dirs_at_node := link_dirs_at_node g;
    number_of_links := number_of_links g;
    length_of_link := length_of_link g;
    number_of_corners := number_of_corners g;
    number_of_patches := number_of_patches g;
    nodes_at_patch := nodes_at_patch g;
    corners_at_node := corners_at_node g;
    coords_of_corner := coords_of_corner g;
    number_of_faces := number_of_faces g;
    corners_at_face := corners_at_face g;
    length_of_face := length_of_face g;
    number_of_cells := number_of_cells g;
    area_of_cell := area_of_cell g;
    _cell_at_node := _cell_at_node g;
    _face_at_link := Some (np.arange (number_of_links g));
    _area_of_patch := _area_of_patch g;
    _r_of_node := _r_of_node g;
    _phi_of_node := _phi_of_node g;
    _theta_of_node := _theta_of_node g
  |}.

Definition cell_at_node := memoized _cell_at_node set_cell_at_node.
Definition node_at_cell := cell_at_node.
Definition face_at_link := memoized _face_at_link set_face_at_link.
Definition link_at_face := face_at_link.
Definition patches_at_node := corners_at_node.
Definition corners_at_cell := corners_at_node.
Definition faces_at_cell := links_at_node.

(** [_calc_area_of_patch(self)] has no parameter besides [self] and its
    body is [pass]; [args] are the further positional arguments of a call. *)
Definition _calc_area_of_patch (args : list Graph) (g : Graph) : result Graph :=
  match args with
  | [] => Ok g
  | _ :: _ => Raise TypeError
  end.

(** The property calls [self._calc_area_of_patch(self)]. *)
Definition area_of_patch (g : Graph) : result (list F * Graph) :=
  match _area_of_patch g with
  | Some a => Ok (a, g)
  | None =>
      g' ← _calc_area_of_patch [g] g;
      match _area_of_patch g' with
      | Some a => Ok (a, g')
      | None => Raise AttributeError
      end
  end.

(** *** __init__

    [ico_vertices] and [ico_faces] are the [vertices] and [faces] of the
    [RefinableIcosahedron] that [__init__] builds and refines. *)
Definition init (radius : F) (ico_vertices : list (vec3 F))
    (ico_faces : list (Z * Z * Z)) : result Graph :=
  let g := setup_nodes ico_vertices (new_graph radius) in
  g ← setup_links ico_faces g;
  g ← setup_patches_and_corners ico_faces g;
  g ← setup_faces g;
  setup_cells g.

End Graph.
Arguments Graph F : clear implicits.
Arguments link_tables F : clear implicits.

(** ** Writing the grid to VTK files

    [IcosphereGlobalGrid], in [landlab/grid/icosphere.py], derives from
    [DualIcosphereGraph] and writes its tables to two legacy VTK text files.
    A file is modelled by the list of its lines, each without the newline
    that ends it; a call that raises leaves the lines written before it. *)

(** [str] of a float, as Python prints it. *)
Class Str (F : Type) := str_float : F -> string.

(** [str] of an integer. *)
Definition str_int (z : Z) : string := NilZero.string_of_int (Z.to_int z).

Section Vtk.
Context {beyond_int64 : RowBeyondInt64}.
Context {F : Type} `{!Str F}.

(** [np.count_nonzero(cells + 1, axis=1)] *)
Definition num_points_in_cell (cells : list (list Z)) : list Z :=
  (fun row => Z.of_nat (np.count_nonzero ((fun c => c + 1) <$> row))) <$> cells.

(** The line of a point: its three coordinates. *)
Definition point_line (p : vec3 F) : string :=
  str_float p.1.1 +:+ " " +:+ str_float p.1.2 +:+ " " +:+ str_float p.2.

(** The line of a cell: the number of its points, then every id of the
    row that is greater than -1. *)
Definition cell_line (n : Z) (row : list Z) : string :=
  foldl (fun line point_id =>
           if bool_decide (point_id > -1) then line +:+ " " +:+ str_int point_id
           else line)
    (str_int n) row.

Definition _points_and_cells_to_vtk (points : list (vec3 F))
    (cells : list (list Z)) (scalar_field : option (list F))
    (scalar_field_name : string) : list string * result () :=
  let header :=
    [ "# vtk DataFile Version 2.0"; "Landlab Icosphere Grid"; "ASCII";
      "DATASET UNSTRUCTURED_GRID" ] in
  let points_block :=
    ("POINTS " +:+ str_int (Z.of_nat (length points)) +:+ " float")
    :: (point_line <$> points) ++ [EmptyString] in
  let ncells := Z.of_nat (length cells) in
  let num := num_points_in_cell cells in
  let cells_block :=
    ("CELLS " +:+ str_int ncells +:+ " "
       +:+ str_int (np.sum ((fun c => c + 1) <$> num)))
    :: zip_with cell_line num cells ++ [EmptyString] in
  match np.amax num with
  | Raise e => (header ++ points_block ++ cells_block, Raise e)
  | Ok m =>
      let cell_type_line := if bool_decide (m = 3) then str_int 5 else str_int 7 in
      let types_block :=
        ("CELL_TYPES " +:+ str_int ncells)
        :: replicate (length cells) cell_type_line in
      let data_block :=
        match scalar_field with
        | None => []
        | Some field =>
            [ "CELL_DATA " +:+ str_int (Z.of_nat (length field));
              "SCALARS " +:+ scalar_field_name +:+ " float 1";
              "LOOKUP_TABLE default" ] ++ (str_float <$> field)
        end in
      (header ++ points_block ++ cells_block ++ types_block ++ data_block, Ok ())
  end.

(** [nodes_at_patch] as the two-dimensional array it is. *)
Definition rows_of_patches (ps : list (Z * Z * Z)) : list (list Z) :=
  (fun t => [t.1.1; t.1.2; t.2]) <$> ps.

(** The files written, each with its name, and the outcome. *)
Definition to_vtk (g : Graph F) (base_name : string)
    (field_for_cells : option (list F)) (field_name_for_cells : string)
    (field_for_patches : option (list F)) (field_name_for_patches : string)
  : list (string * list string) * result () :=
  let cells_file :=
    _points_and_cells_to_vtk (coords_of_corner g) (corners_at_cell g)
      field_for_cells field_name_for_cells in
  match cells_file.2 with
  | Raise e => ([(base_name +:+ "_cells.vtk", cells_file.1)], Raise e)
  | Ok _ =>
      let patches_file :=
        _points_and_cells_to_vtk (coords_of_node g)
          (rows_of_patches (nodes_at_patch g))
          field_for_patches field_name_for_patches in
      ([(base_name +:+ "_cells.vtk", cells_file.1);
        (base_name +:+ "_patches.vtk", patches_file.1)], patches_file.2)
  end.

End Vtk.

(** ** An implementation of the contract of [np.argsort]

    Insertion sort on the positions, for the runs on concrete meshes: one of
    the functions that meet [is_argsort].  Among keys that compare equal it
    keeps the order of the positions; the default kind of [np.argsort], which
    [sort_corners_ccw] calls, promises no order among them, so that where two
    corners of a node have the same angle the row that NumPy leaves may differ
    from the row of these runs.  No theorem depends on the choice: they take
    [argsort] with its contract. *)

Fixpoint insert_key {F} (lt : F -> F -> bool) (x : F * nat) (l : list (F * nat))
  : list (F * nat) :=
  match l with
  | [] => [x]
  | y :: l' => if lt x.1 y.1 then x :: y :: l' else y :: insert_key lt x l'
  end.

Definition insertion_argsort {F} (lt : F -> F -> bool) (a : list F) : list nat :=
  (foldl (fun acc x => insert_key lt x acc) [] (zip a (seq 0 (length a)))).*2.

(** ** The real numbers as [Numeric]

    Floating-point arithmetic without rounding. *)

Definition Rltb (a b : R) : bool := if Rlt_dec a b then true else false.

Definition Ratan2 (y x : R) : R :=
  if Rlt_dec 0 x then atan (y / x)
  else if Rlt_dec x 0 then
    if Rlt_dec y 0 then atan (y / x) - PI else atan (y / x) + PI
  else if Rlt_dec 0 y then PI / 2
  else if Rlt_dec y 0 then - PI / 2
  else 0.

#[global] Instance R_numeric : Numeric R := {|
  f0 := 0%R; fadd := Rplus; fsub := Rminus; fmul := Rmult; fdiv := Rdiv;
  fneg := Ropp; flt := Rltb; of_int := IZR; fsqrt := sqrt;
  two_pi := (2 * PI)%R; arctan2 := Ratan2;
  argsort := insertion_argsort Rltb
|}.

Definition dot (p q : vec3 R) : R :=
  (p.1.1 * q.1.1 + p.1.2 * q.1.2 + p.2 * q.2)%R.

(** Modelled from the spec: [arc_length] of [landlab.utils.geometry.spherical],
    which is not among the sources.  The spec calls it the great-circle arc
    length between two points of the sphere, which the caller scales by the
    radius: the angle at the centre between the two points. *)
#[global] Instance R_arc_length : ArcLength R :=
  fun p q r => acos (dot p q / (r * r)).

(** ** A stand-in for the rows beyond 64 bits

    For the runs on concrete meshes: it lets every such row raise.  No mesh
    of this file has one. *)
#[global] Instance refusing_rows : RowBeyondInt64 := {|
  row_beyond_int64 := fun _ => Raise OverflowError;
  row_beyond_int64_raises := ltac:(by intros t e [= <-]);
  row_beyond_int64_stored := ltac:(by intros t t');
  row_beyond_int64_float := ltac:(by intros t t')
|}.

(** ** An integer stand-in for [Numeric]

    Integer arithmetic, with angles counted in thousandths of a quadrant of
    the taxicab circle.  It runs the builders on concrete triangle lists and
    shows that the conditions of the theorems can be met.  Its numbers are
    not those of NumPy: the coordinates, lengths and angles of these runs, and
    with the angles the order of the corners in a row of [corners_at_node],
    are those of the stand-in.  The other index tables do not depend on the
    numbers. *)

Module Taxicab.

Definition quadrant_angle (y x : Z) : Z :=
  let d := Z.abs x + Z.abs y in
  if bool_decide (d = 0) then 0
  else if bool_decide (0 ≤ y) then
    if bool_decide (0 ≤ x) then 1000 * y / d else 1000 + 1000 * (- x) / d
  else
    if bool_decide (x < 0) then - 2000 + 1000 * (- y) / d else - (1000 * (- y) / d).

#[global] Instance numeric : Numeric Z := {|
  f0 := 0; fadd := Z.add; fsub := Z.sub; fmul := Z.mul; fdiv := Z.div;
  fneg := Z.opp; flt := Z.ltb; of_int := fun z => z; fsqrt := Z.sqrt;
  two_pi := 4000; arctan2 := quadrant_angle;
  argsort := insertion_argsort Z.ltb
|}.

Definition dist (p q : vec3 Z) : Z :=
  Z.abs (p.1.1 - q.1.1) + Z.abs (p.1.2 - q.1.2) + Z.abs (p.2 - q.2).

#[global] Instance arc : ArcLength Z := fun p q r => dist p q / r.
#[global] Instance area : AreaOfSphertri Z :=
  fun p0 p1 p2 r => (dist p0 p1 * dist p0 p2) / 2.
#[global] Instance to_spherical : CartesianToSpherical Z :=
  fun x y z =>
    (Z.abs x + Z.abs y + Z.abs z, quadrant_angle y x,
     quadrant_angle (Z.abs x + Z.abs y) z).
(** A quarter turn about the z axis for each quadrant of [phi]. *)
#[global] Instance rotate : RotateZY Z :=
  fun x y z phi theta =>
    match (phi / 1000) `mod` 4 with
    | 0 => (x, y, z)
    | 1 => (- y, x, z)
    | 2 => (- x, - y, z)
    | _ => (y, - x, z)
    end.

End Taxicab.

(** ** Triangle lists *)

(** The twenty triangles of an icosahedron on twelve vertices: the mesh of
    the docstrings ([nodes_at_patch[0]] is [0, 11, 5]). *)
Definition icosahedron_faces : list (Z * Z * Z) :=
  [ (0, 11, 5); (0, 5, 1); (0, 1, 7); (0, 7, 10); (0, 10, 11);
    (1, 5, 9); (5, 11, 4); (11, 10, 2); (10, 7, 6); (7, 1, 8);
    (3, 9, 4); (3, 4, 2); (3, 2, 6); (3, 6, 8); (3, 8, 9);
    (4, 9, 5); (2, 4, 11); (6, 2, 10); (8, 6, 7); (9, 8, 1) ].

(** Its vertices on an integer grid (the golden ratio rounded to 2, scaled). *)
Definition icosahedron_grid : list (vec3 Z) :=
  [ (-100, 200, 0); (100, 200, 0); (-100, -200, 0); (100, -200, 0);
    (0, -100, 200); (0, 100, 200); (0, -100, -200); (0, 100, -200);
    (200, 0, -100); (200, 0, 100); (-200, 0, -100); (-200, 0, 100) ].

(** A square pyramid, apex 0 and base 1, 2, 3, 4, the base cut in two
    triangles: a closed mesh. *)
Definition pyramid_faces : list (Z * Z * Z) :=
  [ (0, 1, 2); (0, 2, 3); (0, 3, 4); (0, 4, 1); (1, 3, 2); (1, 4, 3) ].

Definition pyramid_grid : list (vec3 Z) :=
  [ (0, 0, 1); (1, 0, 0); (0, 1, 0); (-1, 0, 0); (0, -1, 0) ].

(** The pyramid as the builders of this file leave it in the integer
    stand-in, with its numbers and its order of the corners of a node. *)
Definition pyramid_mesh : Graph Z :=
  Eval vm_compute in
    match init (F := Z) 1000 pyramid_grid pyramid_faces with
    | Ok g => g
    | Raise _ => new_graph 0
    end.

(** ** Notions used to state the properties *)

Section Notions.
Context {beyond_int64 : RowBeyondInt64}.
Context {F : Type} `{!Numeric F, !ArcLength F, !CartesianToSpherical F,
                     !RotateZY F, !AreaOfSphertri F}.
Implicit Types g : Graph F.

(** What [sort_corners_ccw] leaves alone: everything but [corners_at_node]
    and the cached spherical coordinates. *)
Definition same_tables g g' : Prop :=
  radius g' = radius g ∧ coords_of_node g' = coords_of_node g ∧
  number_of_nodes g' = number_of_nodes g ∧ links g' = links g ∧
  nodes_at_link g' = nodes_at_link g ∧ links_at_node g' = links_at_node g ∧
  link_dirs_at_node g' = link_dirs_at_node g ∧
  number_of_links g' = number_of_links g ∧
  length_of_link g' = length_of_link g ∧
  number_of_corners g' = number_of_corners g ∧
  number_of_patches g' = number_of_patches g ∧
  nodes_at_patch g' = nodes_at_patch g ∧
  coords_of_corner g' = coords_of_corner g ∧
  number_of_faces g' = number_of_faces g ∧
  corners_at_face g' = corners_at_face g ∧
  length_of_face g' = length_of_face g ∧
  number_of_cells g' = number_of_cells g ∧ area_of_cell g' = area_of_cell g ∧
  _cell_at_node g' = _cell_at_node g ∧ _face_at_link g' = _face_at_link g ∧
  _area_of_patch g' = _area_of_patch g.

(** What one pass of the loop of [setup_cells] stores for [cell]. *)
Definition cell_area_of g (cell : nat) (v : F) : Prop :=
  ∃ p0 row c0 c1 p1 p2 m,
    coords_of_node g !! cell = Some p0 ∧
    corners_at_node g !! cell = Some row ∧
    row !! 0%nat = Some c0 ∧ row !! 1%nat = Some c1 ∧
    np.getitem (coords_of_corner g) c0 = Ok p1 ∧
    np.getitem (coords_of_corner g) c1 = Ok p2 ∧
    np.amin row = Ok m ∧
    v = fmul (of_int (5 + (if bool_decide (m > -1) then 1 else 0)))
             (area_of_sphertri p0 p1 p2 (radius g)).

(** The registry after the edges [pre]: every entry is filed under its
    key, keys are not repeated, every edge seen has its key filed, and an
    entry is the first edge seen under its key. *)
Definition registry (pre : list (Z * Z)) (links : list (Z * (Z * Z))) : Prop :=
  Forall (fun kl => kl.1 = link_key kl.2.1 kl.2.2) links ∧
  NoDup links.*1 ∧
  (∀ e, e ∈ pre → link_key e.1 e.2 ∈ links.*1) ∧
  (∀ kl, kl ∈ links → ∃ pre1 post1, pre = pre1 ++ kl.2 :: post1 ∧
     ∀ e, e ∈ pre1 → link_key e.1 e.2 ≠ kl.1).

(** The edges of a triangle in the order [setup_links] registers them. *)
Definition triangle_edges (t : Z * Z * Z) : list (Z * Z) :=
  let '(a, b, c) := t in [(a, b); (b, c); (c, a)].

Definition edges (ico_faces : list (Z * Z * Z)) : list (Z * Z) :=
  ico_faces ≫= triangle_edges.

(** Two pairs name the same unordered pair of nodes. *)
Definition same_pair (e e' : Z * Z) : Prop :=
  (e.1 = e'.1 ∧ e.2 = e'.2) ∨ (e.1 = e'.2 ∧ e.2 = e'.1).

(** A vertex index that fits the 32 bits [add_link] packs it in. *)
Definition fits32 (v : Z) : Prop := 0 ≤ v < 2 ^ 32.

#[global] Instance exn_eq_dec : EqDecision exn.
Proof. solve_decision. Defined.
#[global] Instance result_eq_dec {A} `{EqDecision A} : EqDecision (result A).
Proof. solve_decision. Defined.

(** What link number [i], from [l.1] to [l.2], writes in the tables of node
    [k] among [n] nodes: its number with the sign -1 if [k] is its tail, then
    its number with the sign +1 if [k] is its head. *)
Definition link_ends (n k : nat) (i : nat) (l : Z * Z) : list (Z * Z) :=
  (if decide (np.index n l.1 = Ok k) then [(Z.of_nat i, -1)] else []) ++
  (if decide (np.index n l.2 = Ok k) then [(Z.of_nat i, 1)] else []).

(** The link ends at node [k], link by link. *)
Definition incidences (n : nat) (ls : list (Z * Z)) (k : nat) : list (Z * Z) :=
  mjoin (imap (link_ends n k) ls).

Definition degree (n : nat) (ls : list (Z * Z)) (k : nat) : nat :=
  length (incidences n ls k).

(** The three per-node arrays of [setup_links] when node [k] has received
    the entries [inc k]: row [k] holds them from slot 0 on, the remaining
    slots hold the initial value, and the counter holds their number. *)
Definition node_slots (n : nat) (inc : nat -> list (Z * Z))
    (lan dirs : list (list Z)) (ix : list Z) : Prop :=
  length lan = n ∧ length dirs = n ∧ length ix = n ∧
  ∀ k : nat, (k < n)%nat →
    (length (inc k) ≤ 6)%nat ∧
    lan !! k = Some ((inc k).*1 ++ replicate (6 - length (inc k)) (-1)) ∧
    dirs !! k = Some ((inc k).*2 ++ replicate (6 - length (inc k)) 0) ∧
    ix !! k = Some (Z.of_nat (length (inc k))).

(** The state of the second loop of [setup_links] once the links [pre] have
    been entered, for [n] nodes, [rows] rows of [nodes_at_link] and [total]
    links in all. *)
Definition link_loop_inv (n rows total : nat) (r : F) (coords : list (vec3 F))
    (pre : list (Z * Z)) (t : link_tables F) : Prop :=
  lt_i t = length pre ∧
  node_slots n (incidences n pre) (lt_links_at_node t)
    (lt_link_dirs_at_node t) (lt_link_at_node_index t) ∧
  lt_nodes_at_link t = pre ++ replicate (rows - length pre) (0, 0) ∧
  (length pre ≤ rows)%nat ∧
  length (lt_length_of_link t) = total ∧ (length pre ≤ total)%nat ∧
  (∀ (i : nat) l, pre !! i = Some l →
     ∃ p q, np.getitem coords l.1 = Ok p ∧ np.getitem coords l.2 = Ok q ∧
            lt_length_of_link t !! i = Some (fmul r (arc_length p q r))) ∧
  Forall (fun l => ∃ kt kh : nat,
            np.index n l.1 = Ok kt ∧ np.index n l.2 = Ok kh) pre.

(** The per-node arrays of [setup_patches_and_corners] when node [k] has
    received the corners [inc k]. *)
Definition corner_slots (n : nat) (inc : nat -> list Z)
    (can : list (list Z)) (ix : list Z) : Prop :=
  length can = n ∧ length ix = n ∧
  ∀ k : nat, (k < n)%nat →
    (length (inc k) ≤ 6)%nat ∧
    can !! k = Some (inc k ++ replicate (6 - length (inc k)) (-1)) ∧
    ix !! k = Some (Z.of_nat (length (inc k))).

(** A row of [corners_at_node] among [np] corners: corner numbers, then the
    sentinel up to six slots. *)
Definition corner_row (np : nat) (row : list Z) : Prop :=
  ∃ valid, row = valid ++ replicate (6 - length valid) (-1) ∧
           (length valid ≤ 6)%nat ∧
           Forall (fun c => 0 ≤ c < Z.of_nat np) valid.

(** The spherical coordinates that [_setup_node_spherical_coords] stores. *)
Definition node_sph g : list (F * F * F) :=
  (fun p : vec3 F => cartesian_to_spherical p.1.1 p.1.2 p.2) <$> coords_of_node g.

(** The cached azimuths and polar angles are unset, or those of the nodes. *)
Definition cache_ok g : Prop :=
  (_phi_of_node g = None ∨ _phi_of_node g = Some ((fun s => s.1.2) <$> node_sph g)) ∧
  (_theta_of_node g = None ∨ _theta_of_node g = Some ((fun s => s.2) <$> node_sph g)).

(** [a] is the angle of corner [c] in the local frame of node [node]. *)
Definition angle_of g (node : nat) (c : Z) (a : F) : Prop :=
  ∃ p q, coords_of_node g !! node = Some p ∧
         np.getitem (coords_of_corner g) c = Ok q ∧
         a = corner_angle (cartesian_to_spherical p.1.1 p.1.2 p.2).1.2
               (cartesian_to_spherical p.1.1 p.1.2 p.2).2 q.

(** Node [node] once [sort_corners_ccw] has visited it, [g] being the graph
    it started from: the first [nc] slots of its row are those of [g]
    rearranged, the others are untouched, and the local-frame angles of the
    rearranged corners never decrease. *)
Definition sorted_at g (can : list (list Z)) (node : nat) : Prop :=
  ∃ row row' angs,
    corners_at_node g !! node = Some row ∧ can !! node = Some row' ∧
    let nc := np.count_nonzero ((fun c => c + 1) <$> row) in
    take nc row' ≡ₚ take nc row ∧ drop nc row' = drop nc row ∧
    Forall2 (angle_of g node) (take nc row') angs ∧ nondecreasing flt angs.

(** Each key is followed by one that is not less. *)
Fixpoint ascending {F} (lt : F -> F -> bool) (l : list F) : Prop :=
  match l with
  | x :: (y :: _) as l' => lt y x = false ∧ ascending lt l'
  | _ => True
  end.

(** The key of [patches_at_node_pair] for the node pair [e]. *)
Definition edge_key (e : Z * Z) : Z * Z := (Z.min e.1 e.2, Z.max e.1 e.2).

(** The value the dict holds for a key that the patches [owners] have
    registered, in that order. *)
Definition dict_value (owners : list Z) : option patches :=
  match owners with
  | [i] => Some (One i)
  | [i; j] => Some (Two (Z.min j i) (Z.max j i))
  | _ => None
  end.

(** The dict after the registrations [regs], each a patch and a key: no key
    has been registered more than twice. *)
Definition dict_inv (regs : list (Z * (Z * Z))) (d : gmap (Z * Z) patches) : Prop :=
  ∀ k, (length (filter (fun r => r.2 = k) regs) ≤ 2)%nat ∧
       d !! k = dict_value (filter (fun r => r.2 = k) regs).*1.

(** What the patches numbered [ps] register, in order. *)
Definition registrations g (ps : list nat) : list (Z * (Z * Z)) :=
  ps ≫= fun i =>
    match nodes_at_patch g !! i with
    | Some t => (fun e => (Z.of_nat i, edge_key e)) <$> patch_edges t
    | None => []
    end.

(** Patch [i] has both [a] and [b] among its three nodes. *)
Definition patch_has g (a b : Z) (i : nat) : Prop :=
  ∃ t, nodes_at_patch g !! i = Some t ∧
       a ∈ [t.1.1; t.1.2; t.2] ∧ b ∈ [t.1.1; t.1.2; t.2].

(** The link from [a] to [b] lies between exactly the patches [lo] and
    [hi]: the mesh has no boundary there. *)
Definition between g (a b : Z) (lo hi : nat) : Prop :=
  a ≠ b ∧ (lo < hi < number_of_patches g)%nat ∧
  ∀ i : nat, (i < number_of_patches g)%nat →
    patch_has g a b i ↔ i = lo ∨ i = hi.

End Notions.

(** ** Notions used to state when the builders return *)

(** An index that names one of [n] items, counted from either end. *)
Definition valid_index (n : nat) (v : Z) : Prop :=
  - Z.of_nat n ≤ v < Z.of_nat n.

Definition valid_triangle (n : nat) (t : Z * Z * Z) : Prop :=
  valid_index n t.1.1 ∧ valid_index n t.1.2 ∧ valid_index n t.2.

(** An index, counted from either end, that fits the 32 bits [add_link]
    packs it in. *)
Definition fits_signed (v : Z) : Prop := - 2 ^ 31 ≤ v < 2 ^ 31.

(** What patch number [p], on the nodes [t], writes in the row of node [k]
    among [n] nodes: its number, once for each of its three positions that
    names [k]. *)
Definition patch_ends (n k : nat) (p : nat) (t : Z * Z * Z) : list Z :=
  [t.1.1; t.1.2; t.2] ≫= fun v =>
    if decide (np.index n v = Ok k) then [Z.of_nat p] else [].

(** The corners at node [k], patch by patch. *)
Definition corners_of_node (n : nat) (fs : list (Z * Z * Z)) (k : nat) : list Z :=
  mjoin (imap (patch_ends n k) fs).

(** The number of patch edges that join the pair of nodes with key [k]. *)
Definition edge_uses (fs : list (Z * Z * Z)) (k : Z * Z) : nat :=
  length (filter (fun e => edge_key e = k) (fs ≫= patch_edges)).

(** The number of registrations under the key [k]. *)
Definition uses_in (regs : list (Z * (Z * Z))) (k : Z * Z) : nat :=
  length (filter (fun r => r.2 = k) regs).

(** A mesh without boundary: a pair of nodes that some patch edge joins is
    joined by exactly two patch edges. *)
Definition closed_mesh (fs : list (Z * Z * Z)) : Prop :=
  ∀ k, edge_uses fs k = 0%nat ∨ edge_uses fs k = 2%nat.

(** What the triangle list of a mesh on [n] vertices has to satisfy for
    [__init__] to return: its indices name vertices, it has no boundary, no
    node has more than six link ends or more than six corners, and there is
    a triangle unless there is no vertex. *)
Definition buildable (n : nat) (fs : list (Z * Z * Z)) : Prop :=
  Forall (valid_triangle n) fs ∧
  closed_mesh fs ∧
  (∀ k, (k < n)%nat → (degree n (register_links fs).*2 k ≤ 6)%nat) ∧
  (∀ k, (k < n)%nat → (length (corners_of_node n fs k) ≤ 6)%nat) ∧
  (n = 0%nat ∨ fs ≠ []).

Section Readiness.
Context {beyond_int64 : RowBeyondInt64}.
Context {F : Type} `{!Numeric F, !CartesianToSpherical F}.
Implicit Types g : Graph F.

(** The graph is ready for [sort_corners_ccw]: every node has its
    coordinates and its row of corners, and a row holds corner numbers
    followed by the sentinel. *)
Definition sortable g : Prop :=
  cache_ok g ∧
  length (coords_of_node g) = number_of_nodes g ∧
  length (corners_at_node g) = number_of_nodes g ∧
  Forall (corner_row (length (coords_of_corner g))) (corners_at_node g).

(** The graph is ready for [setup_faces]: the tables that it reads have
    the lengths that the counters announce. *)
Definition faces_ready g : Prop :=
  number_of_patches g = length (nodes_at_patch g) ∧
  length (coords_of_corner g) = number_of_patches g ∧
  (number_of_links g ≤ length (nodes_at_link g))%nat.

(** The graph is ready for [setup_cells]. *)
Definition cells_ready g : Prop :=
  length (coords_of_node g) = number_of_nodes g ∧
  length (corners_at_node g) = number_of_nodes g ∧
  Forall (corner_row (length (coords_of_corner g))) (corners_at_node g).

(** The three cached arrays of spherical coordinates are assigned together:
    none is set, or each holds its component of the coordinates of the
    nodes. *)
Definition sph_cached g : Prop :=
  (_r_of_node g = None ∧ _phi_of_node g = None ∧ _theta_of_node g = None) ∨
  (_r_of_node g = Some ((fun s => s.1.1) <$> node_sph g) ∧
   _phi_of_node g = Some ((fun s => s.1.2) <$> node_sph g) ∧
   _theta_of_node g = Some ((fun s => s.2) <$> node_sph g)).

(** The opposite vector. *)
Definition vneg (c : vec3 F) : vec3 F := (fneg c.1.1, fneg c.1.2, fneg c.2).

End Readiness.

(** The ids of a row that [_points_and_cells_to_vtk] prints. *)
Definition printed_ids (row : list Z) : list Z := filter (fun id => id > -1) row.

(** The ids below -1: counted among the points of a cell, never printed. *)
Definition unprinted_ids (row : list Z) : list Z := filter (fun id => id < -1) row.

(** A line of a VTK cell: a count, then each id after a space. *)
Definition ids_line (count : nat) (ids : list Z) : string :=
  foldl (fun line id => line +:+ " " +:+ str_int id) (str_int (Z.of_nat count)) ids.

(** The integer stand-in prints its numbers as integers. *)
#[global] Instance taxicab_str : Str Z := str_int.

(** ** The pyramid, symbolically *)

Section Pyramid.
Context {beyond_int64 : RowBeyondInt64}.
Context {F : Type} `{!Numeric F, !ArcLength F}.
Variables (r : F) (p0 p1 p2 p3 p4 : vec3 F).

(** The pyramid on five given points after [setup_links]. *)
Definition pyramid_links : Graph F :=
  Eval vm_compute in
    match setup_links pyramid_faces
            (setup_nodes [p0; p1; p2; p3; p4] (new_graph r)) with
    | Ok g => g
    | Raise _ => new_graph r
    end.

(** After the patch loop of [setup_patches_and_corners]. *)
Definition pyramid_patches : Graph F :=
  Eval vm_compute in
    match setup_patch_tables pyramid_faces pyramid_links with
    | Ok g => g
    | Raise _ => new_graph r
    end.

(** After [set_coords_of_corner]. *)
Definition pyramid_corners : Graph F :=
  Eval vm_compute in
    match set_coords_of_corner pyramid_patches with
    | Ok g => g
    | Raise _ => new_graph r
    end.

(** And after [setup_faces] on that. *)
Definition pyramid_faces_built : Graph F :=
  Eval vm_compute in
    match setup_faces pyramid_corners with
    | Ok g => g
    | Raise _ => new_graph r
    end.

End Pyramid.

(** ** Concrete meshes *)

(** The pyramid with unit integer coordinates and radius 1000, in the
    integer stand-in, before and after [sort_corners_ccw]: a run of the
    builders of this file on the stand-in's angles, of which the two base
    corners have the same at nodes 1 and 3. *)
Definition pyramid_unsorted : Graph Z :=
  pyramid_corners 1000 (0, 0, 1) (1, 0, 0) (0, 1, 0) (-1, 0, 0) (0, -1, 0).

Definition pyramid_sorted : Graph Z :=
  Eval vm_compute in
    match sort_corners_ccw pyramid_unsorted with
    | Ok g => g
    | Raise _ => new_graph 0
    end.

(** The triangles of the icosahedron of the docstrings as the builders of
    this file leave them in the integer stand-in. *)
Definition icosahedron_mesh : Graph Z :=
  Eval vm_compute in
    match init (F := Z) 1000 icosahedron_grid icosahedron_faces with
    | Ok g => g
    | Raise _ => new_graph 0
    end.

(** Two triangles with a repeated vertex, on three nodes. *)
Definition degenerate_faces : list (Z * Z * Z) := [ (0, 0, 1); (0, 0, 2) ].
Definition three_nodes : list (vec3 Z) := [ (0, 0, 1); (1, 0, 0); (0, 1, 0) ].

(** The pyramid with its nodes only, and with its links. *)
Definition pyramid_nodes : Graph Z := setup_nodes pyramid_grid (new_graph 1000).

Definition pyramid_linked : Graph Z :=
  pyramid_links 1000 (0, 0, 1) (1, 0, 0) (0, 1, 0) (-1, 0, 0) (0, -1, 0).

(** Three copies of one triangle: its edges lie on three patches each. *)
Definition tripled_triangle : list (Z * Z * Z) := [ (0, 1, 2); (0, 1, 2); (0, 1, 2) ].

(** * Properties *)

(** ** Results and loops *)

Lemma bind_Ok {A B} (m : result A) (f : A -> result B) (b : B) :
  m ≫= f = Ok b → ∃ a, m = Ok a ∧ f a = Ok b.
Proof. destruct m as [a|e]; simpl; [eauto | discriminate]. Qed.

Lemma bind_Raise {A B} (m : result A) (f : A -> result B) (e : exn) :
  m ≫= f = Raise e → m = Raise e ∨ ∃ a, m = Ok a ∧ f a = Raise e.
Proof. destruct m as [a|e']; simpl; [eauto | intros [= ->]; auto]. Qed.

(** Splits a hypothesis [x ← m; k = Ok b] into [m = Ok a] and [k a = Ok b]. *)
Tactic Notation "bind_inv" hyp(H) "as" simple_intropattern(a) ident(E) :=
  apply bind_Ok in H as (a & E & H).
Tactic Notation "bind_inv" hyp(H) :=
  let a := fresh "a" in
  let E := fresh "E" in
  apply bind_Ok in H as (a & E & H).

Lemma for_each_app {S B} (body : S -> B -> result S) (l1 l2 : list B) (s : S) :
  for_each body (l1 ++ l2) s = for_each body l1 s ≫= for_each body l2.
Proof.
  revert s; induction l1 as [|x l1 IH]; intros s; simpl; [done|].
  destruct (body s x) as [s'|e]; simpl; [apply IH | done].
Qed.

(** The invariant rule of a loop: [P pre s] relates the items already
    visited to the state. *)
Lemma for_each_inv {S B} (body : S -> B -> result S) (P : list B -> S -> Prop)
    (l : list B) (s s' : S) :
  P [] s →
  (∀ pre x s1 s2, P pre s1 → body s1 x = Ok s2 → P (pre ++ [x]) s2) →
  for_each body l s = Ok s' → P l s'.
Proof.
  intros H0 Hstep.
  cut (∀ pre s, P pre s → for_each body l s = Ok s' → P (pre ++ l) s').
  { intros H. apply (H [] s H0). }
  induction l as [|x l IH]; intros pre s1 HP; simpl.
  - intros [= <-]. by rewrite app_nil_r.
  - intros H. bind_inv H.
    replace (pre ++ x :: l) with ((pre ++ [x]) ++ l) by by rewrite <- app_assoc.
    eapply IH; [|done]. eauto.
Qed.

(** A loop whose body can only raise [e] can only raise [e]. *)
Lemma for_each_raises {S B} (body : S -> B -> result S) (e : exn)
    (l : list B) (s : S) (e' : exn) :
  (∀ s x e', body s x = Raise e' → e' = e) →
  for_each body l s = Raise e' → e' = e.
Proof.
  intros Hb. revert s; induction l as [|x l IH]; intros s; simpl; [done|].
  intros H. apply bind_Raise in H as [H|(a & _ & H)]; eauto.
Qed.

Lemma for_each_raises_elem {S B} (body : S -> B -> result S)
    (P : exn -> Prop) (l : list B) (s : S) (e' : exn) :
  (∀ s x e', x ∈ l → body s x = Raise e' → P e') →
  for_each body l s = Raise e' → P e'.
Proof.
  revert s; induction l as [|x l IH]; intros s Hb; simpl; [done|].
  intros H. apply bind_Raise in H as [H|(a & _ & H)].
  - eapply Hb; [|exact H]. by left.
  - eapply IH; [|exact H]. intros s' y e'' Hy. apply Hb. by right.
Qed.

Lemma map_result_Ok {A B} (f : A -> result B) (l : list A) (l' : list B) :
  map_result f l = Ok l' → Forall2 (fun x y => f x = Ok y) l l'.
Proof.
  revert l'; induction l as [|x l IH]; intros l'; simpl.
  - intros [= <-]. constructor.
  - intros H. bind_inv H. bind_inv H. injection H as <-. constructor; auto.
Qed.

Lemma map_result_all {A B} (f : A -> result B) (l : list A) (l' : list B) :
  Forall2 (fun x y => f x = Ok y) l l' → map_result f l = Ok l'.
Proof. induction 1 as [|x y l l' Hx _ IH]; simpl; [done|]. by rewrite Hx, IH. Qed.

(** ** NumPy indexing *)

Lemma index_Ok (n : nat) (i : Z) (k : nat) :
  np.index n i = Ok k ↔
  (k < n)%nat ∧ (i = Z.of_nat k ∨ i = Z.of_nat k - Z.of_nat n).
Proof.
  unfold np.index. repeat case_bool_decide; split.
  all: try (intros [= <-]; lia).
  all: try (intros [? [-> | ->]]; f_equal; lia).
  all: try discriminate.
Qed.

Lemma index_nat (n k : nat) : (k < n)%nat → np.index n (Z.of_nat k) = Ok k.
Proof. intros. apply index_Ok. lia. Qed.

Lemma as_int64_Ok (v v' : Z) :
  np.as_int64 v = Ok v' ↔ np.is_int64 v ∧ v' = v.
Proof.
  unfold np.as_int64. case_bool_decide; split.
  - by intros [= <-].
  - by intros [_ ->].
  - done.
  - by intros [? _].
Qed.

Lemma as_int64_fits (v : Z) : np.is_int64 v → np.as_int64 v = Ok v.
Proof. intros Hv. by apply as_int64_Ok. Qed.

Lemma as_int64_Raise (v : Z) (e : exn) :
  np.as_int64 v = Raise e ↔ e = OverflowError ∧ ¬ np.is_int64 v.
Proof.
  unfold np.as_int64. case_bool_decide; split.
  - done.
  - by intros [_ ?].
  - by intros [= <-].
  - by intros [-> _].
Qed.

Lemma index_Raise (n : nat) (i : Z) (e : exn) :
  np.index n i = Raise e ↔
  e = IndexError ∧ (i < - Z.of_nat n ∨ Z.of_nat n ≤ i).
Proof.
  unfold np.index. repeat case_bool_decide; split; intros Hx.
  all: try discriminate Hx; try (destruct Hx; lia).
  - injection Hx as <-. split; [done | lia].
  - by destruct Hx as [-> _].
Qed.

Lemma getitem_Ok {A} (a : list A) (i : Z) (x : A) :
  np.getitem a i = Ok x ↔ ∃ k, np.index (length a) i = Ok k ∧ a !! k = Some x.
Proof.
  unfold np.getitem. split.
  - intros H. bind_inv H. exists a0. split; [done|].
    destruct (a !! a0); [by injection H as -> | done].
  - intros (k & -> & Hk). simpl. by rewrite Hk.
Qed.

Lemma getitem_nat {A} (a : list A) (k : nat) (x : A) :
  a !! k = Some x → np.getitem a (Z.of_nat k) = Ok x.
Proof.
  intros H. apply getitem_Ok. exists k. split; [|done].
  apply index_nat. by eapply lookup_lt_Some.
Qed.

Lemma getitem_nat_Ok {A} (a : list A) (k : nat) (x : A) :
  np.getitem a (Z.of_nat k) = Ok x → a !! k = Some x.
Proof.
  intros (k' & Hi & Hk)%getitem_Ok. apply index_Ok in Hi as [? [?|?]]; [|lia].
  by replace k with k' by lia.
Qed.

Lemma getitem_Raise {A} (a : list A) (i : Z) (e : exn) :
  np.getitem a i = Raise e → e = IndexError.
Proof.
  unfold np.getitem. intros [H|(k & _ & H)]%bind_Raise.
  - by apply index_Raise in H as [-> _].
  - destruct (a !! k); [done | by injection H].
Qed.

Lemma getitem_out {A} (a : list A) (i : Z) :
  i < - Z.of_nat (length a) ∨ Z.of_nat (length a) ≤ i →
  np.getitem a i = Raise IndexError.
Proof.
  intros H. unfold np.getitem.
  assert (np.index (length a) i = Raise IndexError) as ->; [|done].
  by apply index_Raise.
Qed.

Lemma setitem_Ok {A} (a : list A) (i : Z) (x : A) (a' : list A) :
  np.setitem a i x = Ok a' ↔
  ∃ k, np.index (length a) i = Ok k ∧ a' = <[k := x]> a.
Proof.
  unfold np.setitem. split.
  - intros H. bind_inv H. injection H as <-. eauto.
  - intros (k & -> & ->). done.
Qed.

Lemma setitem_Raise {A} (a : list A) (i : Z) (x : A) (e : exn) :
  np.setitem a i x = Raise e → e = IndexError.
Proof.
  unfold np.setitem. intros [H|(k & _ & H)]%bind_Raise; [|done].
  by apply index_Raise in H as [-> _].
Qed.

Lemma setitem2_Ok {A} (a : list (list A)) (i j : Z) (x : A) a' :
  np.setitem2 a i j x = Ok a' ↔
  ∃ k row s, np.index (length a) i = Ok k ∧ a !! k = Some row ∧
    np.index (length row) j = Ok s ∧ a' = <[k := <[s := x]> row]> a.
Proof.
  unfold np.setitem2. split.
  - intros H. bind_inv H. bind_inv H.
    apply getitem_Ok in E as (k & Hk & Hrow).
    apply setitem_Ok in E0 as (s & Hs & ->).
    apply setitem_Ok in H as (k' & Hk' & ->).
    assert (k' = k) as -> by congruence. eauto 10.
  - intros (k & row & s & Hk & Hrow & Hs & ->).
    assert (np.getitem a i = Ok row) as -> by (apply getitem_Ok; eauto).
    simpl. assert (np.setitem row j x = Ok (<[s:=x]> row)) as ->
      by (apply setitem_Ok; eauto).
    simpl. apply setitem_Ok; eauto.
Qed.

Lemma setitem2_Raise {A} (a : list (list A)) (i j : Z) (x : A) (e : exn) :
  np.setitem2 a i j x = Raise e → e = IndexError.
Proof.
  unfold np.setitem2. intros [H|(row & _ & [H|(row' & _ & H)]%bind_Raise)]%bind_Raise.
  - by eapply getitem_Raise.
  - by eapply setitem_Raise.
  - by eapply setitem_Raise.
Qed.

Lemma arange_lookup (n i : nat) :
  (i < n)%nat → np.arange n !! i = Some (Z.of_nat i).
Proof.
  intros. unfold np.arange. rewrite list_lookup_fmap, lookup_seq_lt; done.
Qed.

Lemma length_arange (n : nat) : length (np.arange n) = n.
Proof. unfold np.arange. by rewrite length_fmap, length_seq. Qed.

(** ** setup_links *)


(** ** add_link *)

Lemma link_key_same (e e' : Z * Z) :
  same_pair e e' → link_key e.1 e.2 = link_key e'.1 e'.2.
Proof.
  unfold same_pair, link_key. intros [[-> ->]|[-> ->]]; [done|].
  by rewrite Z.min_comm, Z.max_comm.
Qed.

Lemma link_key_inj (e e' : Z * Z) :
  fits32 e.1 → fits32 e.2 → fits32 e'.1 → fits32 e'.2 →
  link_key e.1 e.2 = link_key e'.1 e'.2 → same_pair e e'.
Proof.
  unfold fits32, link_key, same_pair. rewrite !Z.shiftl_mul_pow2 by lia.
  change (2 ^ 32) with 4294967296. lia.
Qed.

Lemma register_links_edges (fs : list (Z * Z * Z)) :
  register_links fs = foldl (fun links e => add_link links e.1 e.2) [] (edges fs).
Proof.
  unfold register_links, edges. generalize (@nil (Z * (Z * Z))).
  induction fs as [|[[a b] c] fs IH]; intros l; simpl; [done|].
  by rewrite IH.
Qed.

Lemma add_link_registry pre links (e : Z * Z) :
  registry pre links → registry (pre ++ [e]) (add_link links e.1 e.2).
Proof.
  destruct e as [p1 p2]. simpl.
  intros (Hk & Hnd & Hcov & Hfirst). unfold add_link. case_bool_decide as Hin.
  - repeat split; [done | done | |].
    + intros e' [?| ->%list_elem_of_singleton]%elem_of_app; auto.
    + intros kl (pre1 & post1 & -> & Hp)%Hfirst.
      exists pre1, (post1 ++ [(p1, p2)]). split; [|done]. by rewrite <- app_assoc.
  - repeat split.
    + apply Forall_app. split; [done|]. by repeat constructor.
    + rewrite fmap_app. apply NoDup_app. repeat split; [done | |].
      * intros k Hk1 ->%list_elem_of_singleton. by apply Hin.
      * apply NoDup_singleton.
    + rewrite fmap_app. intros e' [?| ->%list_elem_of_singleton]%elem_of_app.
      * apply elem_of_app. left. auto.
      * apply elem_of_app. right. by left.
    + intros kl [Hl| ->%list_elem_of_singleton]%elem_of_app.
      * destruct (Hfirst kl Hl) as (pre1 & post1 & -> & Hp).
        exists pre1, (post1 ++ [(p1, p2)]). split; [|done]. by rewrite <- app_assoc.
      * exists pre, []. split; [done|]. simpl. intros e' He' Heq.
        apply Hin. rewrite <- Heq. auto.
Qed.

Lemma foldl_inv {A B} (f : A -> B -> A) (P : list B -> A -> Prop) l a :
  P [] a → (∀ pre x a, P pre a → P (pre ++ [x]) (f a x)) → P l (foldl f a l).
Proof.
  intros H0 Hstep.
  cut (∀ pre a, P pre a → P (pre ++ l) (foldl f a l)).
  { intros H. apply (H [] a H0). }
  induction l as [|x l IH]; intros pre a' HP; simpl.
  - by rewrite app_nil_r.
  - replace (pre ++ x :: l) with ((pre ++ [x]) ++ l) by by rewrite <- app_assoc.
    apply IH. auto.
Qed.

Lemma register_links_registry (fs : list (Z * Z * Z)) :
  registry (edges fs) (register_links fs).
Proof.
  rewrite register_links_edges. apply foldl_inv.
  - repeat split; [constructor | constructor | |].
    + intros e He. inversion He.
    + intros kl Hkl. inversion Hkl.
  - intros pre x a. apply add_link_registry.
Qed.

Lemma registry_values pre links l :
  registry pre links → l ∈ links.*2 → l ∈ pre.
Proof.
  intros (_ & _ & _ & Hfirst) (kl & -> & Hkl)%list_elem_of_fmap.
  destruct (Hfirst kl Hkl) as (pre1 & post1 & -> & _).
  apply elem_of_app. right. by left.
Qed.


Lemma insert_first_free {A} (l : list A) (x y : A) (c : nat) :
  (length l < c)%nat →
  <[length l := x]> (l ++ replicate (c - length l) y)
  = (l ++ [x]) ++ replicate (c - length (l ++ [x])) y.
Proof.
  intros H. rewrite insert_app_r_alt by lia. rewrite Nat.sub_diag.
  rewrite length_app. simpl.
  replace (c - length l)%nat with (S (c - (length l + 1))) by lia.
  simpl. by rewrite <- app_assoc.
Qed.

Lemma insert_slot {A B} (f : A -> B) (l : list A) (a : A) (y : B) (c : nat) :
  (length l < c)%nat →
  <[length l := f a]> ((f <$> l) ++ replicate (c - length l) y)
  = (f <$> l ++ [a]) ++ replicate (c - length (l ++ [a])) y.
Proof.
  intros H. pose proof (insert_first_free (f <$> l) (f a) y c) as E.
  rewrite !length_app, !length_fmap in E. rewrite fmap_app, length_app.
  apply E. lia.
Qed.

Lemma attach_link_Ok n inc (v i dir : Z) lan dirs ix lan' dirs' ix' :
  node_slots n inc lan dirs ix →
  attach_link v i dir lan dirs ix = Ok (lan', dirs', ix') →
  ∃ kv, np.index n v = Ok kv ∧
    node_slots n (fun k => if decide (k = kv) then inc k ++ [(i, dir)] else inc k)
      lan' dirs' ix'.
Proof.
  intros (Hl & Hd & Hx & Hrows) H. unfold attach_link in H.
  bind_inv H as d Hd1. bind_inv H as lan1 Hlan. bind_inv H as d' Hd2.
  bind_inv H as dirs1 Hdirs. bind_inv H as d'' Hd3. bind_inv H as ix1 Hix.
  injection H as <- <- <-.
  assert (d' = d) as -> by congruence. assert (d'' = d) as -> by congruence.
  apply getitem_Ok in Hd1 as (kv & Hkv & Hdv). rewrite Hx in Hkv.
  exists kv. split; [done|].
  assert (kv < n)%nat as Hlt by by apply index_Ok in Hkv as [? _].
  destruct (Hrows kv Hlt) as (Hle & Hrow & Hdrow & Hc).
  assert (d = Z.of_nat (length (inc kv))) as -> by congruence.
  apply setitem2_Ok in Hlan as (k1 & row & s & Hk1 & Hr1 & Hs & ->).
  rewrite Hl in Hk1. assert (k1 = kv) as -> by congruence.
  assert (row = (inc kv).*1 ++ replicate (6 - length (inc kv)) (-1)) as ->
    by congruence.
  apply setitem2_Ok in Hdirs as (k2 & row2 & s2 & Hk2 & Hr2 & Hs2 & ->).
  rewrite Hd in Hk2. assert (k2 = kv) as -> by congruence.
  assert (row2 = (inc kv).*2 ++ replicate (6 - length (inc kv)) 0) as ->
    by congruence.
  apply setitem_Ok in Hix as (k3 & Hk3 & ->).
  rewrite Hx in Hk3. assert (k3 = kv) as -> by congruence.
  rewrite length_app, length_fmap, length_replicate in Hs, Hs2.
  apply index_Ok in Hs as [Hs [Hs'|Hs']]; [|lia].
  apply index_Ok in Hs2 as [Hs2 [Hs2'|Hs2']]; [|lia].
  assert (s = length (inc kv)) as -> by lia.
  assert (s2 = length (inc kv)) as -> by lia.
  assert (length (inc kv) < 6)%nat as Hlt6 by lia.
  do 3 (split; [by rewrite length_insert|]).
  intros k Hk. destruct (decide (k = kv)) as [->|Hne].
  - rewrite !list_lookup_insert_eq by lia.
    split; [rewrite length_app; simpl; lia|].
    split; [f_equal; by apply (insert_slot fst (inc kv) (i, dir))|].
    split; [f_equal; by apply (insert_slot snd (inc kv) (i, dir))|].
    f_equal. rewrite length_app. simpl. lia.
  - rewrite !list_lookup_insert_ne by done. auto.
Qed.

Lemma attach_link_Raise (v i dir : Z) lan dirs ix e :
  attach_link v i dir lan dirs ix = Raise e → e = IndexError.
Proof.
  unfold attach_link. intros H.
  repeat (apply bind_Raise in H as [H|(? & _ & H)];
          [first [by eapply getitem_Raise | by eapply setitem2_Raise
                 | by eapply setitem_Raise]|]).
  done.
Qed.

Lemma node_slots_ext n inc inc' lan dirs ix :
  (∀ k, inc k = inc' k) → node_slots n inc lan dirs ix →
  node_slots n inc' lan dirs ix.
Proof.
  intros E (H1 & H2 & H3 & H). do 3 (split; [done|]).
  intros k Hk. rewrite <- E. auto.
Qed.

Lemma incidences_snoc n pre l k :
  incidences n (pre ++ [l]) k
  = incidences n pre k ++ link_ends n k (length pre) l.
Proof.
  unfold incidences. rewrite imap_app, join_app. simpl.
  by rewrite app_nil_r, Nat.add_0_r.
Qed.

Lemma incidences_nil n k : incidences n [] k = [].
Proof. done. Qed.

Section LinkLoop.
Context {beyond_int64 : RowBeyondInt64}.
Context {F : Type} `{!Numeric F, !ArcLength F}.


Lemma link_body_inv n rows total r coords pre t link t' :
  link_loop_inv n rows total r coords pre t →
  link_body r coords t link = Ok t' →
  link_loop_inv n rows total r coords (pre ++ [link]) t'.
Proof.
  intros (Hi & Hslots & Hnal & Hrows & Hlen & Htot & Hlens & Hvalid) H.
  unfold link_body in H. destruct link as [tl hd]. simpl in H.
  bind_inv H as row Hrow. bind_inv H as tl64 Htl.
  apply as_int64_Ok in Htl as [_ ->]. bind_inv H as nal1 Hnal1.
  bind_inv H as [[lan1 dirs1] ix1] Ht.
  bind_inv H as row' Hrow'. bind_inv H as hd64 Hhd.
  apply as_int64_Ok in Hhd as [_ ->]. bind_inv H as nal2 Hnal2.
  bind_inv H as [[lan2 dirs2] ix2] Hh.
  bind_inv H as p Hp. bind_inv H as q Hq. bind_inv H as len Hl.
  injection H as <-. simpl.
  destruct (attach_link_Ok _ _ _ _ _ _ _ _ _ _ _ Hslots Ht) as (kt & Hkt & Hs1).
  destruct (attach_link_Ok _ _ _ _ _ _ _ _ _ _ _ Hs1 Hh) as (kh & Hkh & Hs2).
  apply setitem_Ok in Hnal1 as (k1 & [Hk1 [Hk1'|Hk1']]%index_Ok & ->); [|lia].
  assert (k1 = length pre) as -> by lia.
  apply setitem_Ok in Hnal2 as (k2 & Hk2 & ->). rewrite length_insert in Hk2.
  apply index_Ok in Hk2 as [Hk2 [Hk2'|Hk2']]; [|lia].
  assert (k2 = length pre) as -> by lia.
  apply setitem_Ok in Hl as (k3 & [Hk3 [Hk3'|Hk3']]%index_Ok & ->); [|lia].
  assert (k3 = length pre) as -> by lia.
  rewrite Hnal, length_app, length_replicate in Hk1.
  assert (length pre < rows)%nat as Hlt by lia.
  apply getitem_nat_Ok in Hrow'. rewrite Hi in Hrow'.
  rewrite list_lookup_insert_eq in Hrow' by
    (rewrite Hnal, length_app, length_replicate; lia).
  injection Hrow' as <-. unfold link_loop_inv. simpl.
  rewrite length_app. simpl.
  split; [lia|]. split.
  { eapply node_slots_ext; [|exact Hs2]. intros k. simpl.
    rewrite incidences_snoc. unfold link_ends. simpl. rewrite Hkt, Hkh, Hi.
    destruct (decide (k = kh)), (decide (k = kt)).
    all: repeat (case_decide; simplify_eq); try done.
    all: by rewrite <- ?app_assoc, ?app_nil_r. }
  split.
  { rewrite list_insert_insert_eq, Hnal.
    rewrite insert_app_r_alt, Nat.sub_diag by lia.
    replace (rows - length pre)%nat with (S (rows - (length pre + 1))) by lia.
    simpl. by rewrite <- app_assoc. }
  split; [lia|]. split; [by rewrite length_insert|]. rewrite Hi in *.
  split; [lia|]. split.
  - intros i l Hil. destruct (decide (i = length pre)) as [->|Hne].
    + rewrite lookup_app_r, Nat.sub_diag in Hil by lia. injection Hil as <-.
      exists p, q. simpl. by rewrite list_lookup_insert_eq by lia.
    + rewrite list_lookup_insert_ne by done.
      apply Hlens. rewrite lookup_app_l in Hil; [done|].
      apply lookup_lt_Some in Hil. rewrite length_app in Hil. simpl in Hil. lia.
  - apply Forall_app. split; [done|]. repeat constructor. by exists kt, kh.
Qed.

Lemma link_body_Raise r coords t link e :
  link_body r coords t link = Raise e →
  e = IndexError ∨
  (e = OverflowError ∧ (¬ np.is_int64 link.1 ∨ ¬ np.is_int64 link.2)).
Proof.
  unfold link_body. intros H.
  repeat (apply bind_Raise in H as [H|(? & _ & H)];
          [first [left; by eapply getitem_Raise | left; by eapply setitem_Raise
                 | left; by eapply attach_link_Raise
                 | apply as_int64_Raise in H as [-> ?]; right; by eauto]|];
          try match type of H with context [let '(_, _) := ?x in _] =>
                destruct x as [[? ?] ?] end).
  done.
Qed.

End LinkLoop.

Lemma sum_list_fmap_add {A} (f g : A -> nat) (l : list A) :
  sum_list ((fun x => f x + g x)%nat <$> l)
  = (sum_list (f <$> l) + sum_list (g <$> l))%nat.
Proof. induction l as [|x l IH]; csimpl; [done|]. rewrite IH. lia. Qed.

Lemma sum_indicator (P : nat -> Prop) `{!∀ k, Decision (P k)} (kt a m : nat) :
  (∀ k, P k ↔ k = kt) →
  sum_list ((fun k => if decide (P k) then 1 else 0)%nat <$> seq a m)
  = if decide (a ≤ kt < a + m)%nat then 1%nat else 0%nat.
Proof.
  intros HP. revert a; induction m as [|m IH]; intros a; csimpl.
  - case_decide; [lia | done].
  - rewrite IH. destruct (decide (P a)) as [Hp|Hp]; rewrite HP in Hp;
      repeat case_decide; lia.
Qed.

Lemma link_ends_sum n (i : nat) (l : Z * Z) (kt kh : nat) :
  np.index n l.1 = Ok kt → np.index n l.2 = Ok kh →
  sum_list ((fun k => length (link_ends n k i l)) <$> seq 0 n) = 2%nat.
Proof.
  intros Ht Hh. unfold link_ends.
  rewrite (list_fmap_ext _
    (fun k => (if decide (np.index n l.1 = Ok k) then 1 else 0)
              + (if decide (np.index n l.2 = Ok k) then 1 else 0))%nat).
  2: { intros _ k _. rewrite length_app. by repeat case_decide. }
  rewrite sum_list_fmap_add.
  rewrite (sum_indicator _ kt), (sum_indicator _ kh).
  - apply index_Ok in Ht as [? _], Hh as [? _]. repeat case_decide; lia.
  - intros k. rewrite Hh. split; [by intros [= ->] | by intros ->].
  - intros k. rewrite Ht. split; [by intros [= ->] | by intros ->].
Qed.

(** Every link has two ends. *)
Lemma degree_sum n (ls : list (Z * Z)) :
  Forall (fun l => ∃ kt kh : nat,
            np.index n l.1 = Ok kt ∧ np.index n l.2 = Ok kh) ls →
  sum_list (degree n ls <$> seq 0 n) = (2 * length ls)%nat.
Proof.
  induction ls as [|l ls IH] using rev_ind; intros H.
  - induction (seq 0 n) as [|k l IHl]; csimpl; [done|]. rewrite IHl. done.
  - apply Forall_app in H as [H1 H2]. inversion_clear H2 as [|? ? (kt & kh & Ht & Hh) _].
    rewrite (list_fmap_ext _
      (fun k => degree n ls k + length (link_ends n k (length ls) l))%nat).
    2: { intros _ k _. unfold degree. by rewrite incidences_snoc, length_app. }
    rewrite sum_list_fmap_add, IH, (link_ends_sum _ _ _ kt kh) by done.
    rewrite length_app. simpl. lia.
Qed.

Section SetupLinks.
Context {beyond_int64 : RowBeyondInt64}.
Context {F : Type} `{!Numeric F, !ArcLength F}.
Implicit Types g : Graph F.

Lemma setup_links_Ok fs g g' :
  setup_links fs g = Ok g' →
  links g' = register_links fs ∧
  number_of_links g' = length (links g') ∧
  number_of_nodes g' = number_of_nodes g ∧
  ∃ t, link_loop_inv (number_of_nodes g) (3 * length fs / 2)
         (length (links g')) (radius g) (coords_of_node g) (links g').*2 t ∧
       nodes_at_link g' = lt_nodes_at_link t ∧
       links_at_node g' = lt_links_at_node t ∧
       link_dirs_at_node g' = lt_link_dirs_at_node t ∧
       length_of_link g' = lt_length_of_link t.
Proof.
  unfold setup_links. intros H. bind_inv H as t Ht. injection H as <-. simpl.
  do 3 (split; [done|]). exists t. split; [|done].
  eapply for_each_inv; [| |exact Ht].
  - unfold link_loop_inv. simpl. split; [done|]. split.
    { unfold node_slots, np.full2. rewrite !length_replicate.
      do 3 (split; [done|]). intros k Hk. simpl.
      rewrite !lookup_replicate_2 by done. split; [lia | done]. }
    rewrite Nat.sub_0_r, length_replicate.
    repeat split; [lia | lia | | constructor].
    intros i l Hil. inversion Hil.
  - intros pre x s1 s2. apply link_body_inv.
Qed.

Lemma setup_links_Raise fs g e :
  setup_links fs g = Raise e →
  e = IndexError ∨
  (e = OverflowError ∧
   ∃ l, l ∈ (register_links fs).*2 ∧ (¬ np.is_int64 l.1 ∨ ¬ np.is_int64 l.2)).
Proof.
  unfold setup_links. intros [H|(t & _ & H)]%bind_Raise; [|done].
  eapply (for_each_raises_elem _ (fun e =>
    e = IndexError ∨
    (e = OverflowError ∧
     ∃ l, l ∈ (register_links fs).*2 ∧
          (¬ np.is_int64 l.1 ∨ ¬ np.is_int64 l.2)))); [|exact H].
  intros s x e' Hx [->|[-> Hb]]%link_body_Raise; [by left|].
  right. split; [done|]. by exists x.
Qed.

End SetupLinks.

(** ** The incident-link tables *)

Lemma link_ends_entries n k i l :
  Forall (fun e => 0 ≤ e.1 ∧ (e.2 = -1 ∨ e.2 = 1)) (link_ends n k i l).
Proof.
  unfold link_ends. apply Forall_app.
  split; case_decide; repeat constructor; simpl; lia.
Qed.

Lemma incidences_entries n ls k :
  Forall (fun e => 0 ≤ e.1 ∧ (e.2 = -1 ∨ e.2 = 1)) (incidences n ls k).
Proof.
  induction ls as [|l ls IH] using rev_ind; [constructor|].
  rewrite incidences_snoc. apply Forall_app. split; [done|].
  apply link_ends_entries.
Qed.

Lemma incidences_tail n ls (i : nat) l kt :
  ls !! i = Some l → np.index n l.1 = Ok kt →
  (Z.of_nat i, -1) ∈ incidences n ls kt.
Proof.
  intros Hl Ht. unfold incidences. apply list_elem_of_join.
  exists (link_ends n kt i l). split; [|by apply elem_of_lookup_imap_2].
  unfold link_ends. rewrite decide_True by done. apply elem_of_app. left. by left.
Qed.

Lemma incidences_head n ls (i : nat) l kh :
  ls !! i = Some l → np.index n l.2 = Ok kh →
  (Z.of_nat i, 1) ∈ incidences n ls kh.
Proof.
  intros Hl Hh. unfold incidences. apply list_elem_of_join.
  exists (link_ends n kh i l). split; [|by apply elem_of_lookup_imap_2].
  unfold link_ends. rewrite (decide_True _ _ Hh). apply elem_of_app. right. by left.
Qed.

(** A row of entries followed by padding [y] that none of them equals:
    counting the slots that differ from [y] counts the entries. *)
Lemma filter_padding (l : list Z) (y : Z) (c : nat) :
  Forall (fun x => x ≠ y) l →
  filter (fun x => x ≠ y) (l ++ replicate c y) = l.
Proof.
  intros H. rewrite filter_app.
  assert (filter (fun x => x ≠ y) (replicate c y) = []) as ->.
  { induction c as [|c IH]; simpl; [done|]. by rewrite filter_cons_False by auto. }
  rewrite app_nil_r. induction H as [|x l Hx _ IH]; [done|].
  by rewrite filter_cons_True, IH by done.
Qed.

Lemma filter_replicate_keep {A} (P : A -> Prop) `{!∀ x, Decision (P x)}
    (y : A) (c : nat) :
  P y → filter P (replicate c y) = replicate c y.
Proof.
  intros Hy. induction c as [|c IH]; simpl; [done|].
  by rewrite filter_cons_True, IH by done.
Qed.

Section LinkTables.
Context {beyond_int64 : RowBeyondInt64}.
Context {F : Type} `{!Numeric F, !ArcLength F}.
Implicit Types g : Graph F.

(** C3.  [setup_links] registers one link for each unordered pair of
    nodes that are two corners of some triangle, oriented as the first
    triangle edge met for that pair; when it returns, row [i] of
    [nodes_at_link] is link [i] and its length is the radius times the arc
    length between the coordinates of its two nodes. *)
Theorem one_link_per_pair fs :
  Forall (fun '(a, b, c) => fits32 a ∧ fits32 b ∧ fits32 c) fs →
  let ls := (register_links fs).*2 in
  (∀ e, e ∈ edges fs → ∃ l, l ∈ ls ∧ same_pair l e) ∧
  (∀ (i j : nat) l l',
     ls !! i = Some l → ls !! j = Some l' → same_pair l l' → i = j) ∧
  (∀ l, l ∈ ls → ∃ pre post,
     edges fs = pre ++ l :: post ∧ ∀ e, e ∈ pre → ¬ same_pair e l) ∧
  ∀ g g', setup_links fs g = Ok g' →
    links g' = register_links fs ∧ number_of_links g' = length ls ∧
    ∀ (i : nat) l, ls !! i = Some l →
      nodes_at_link g' !! i = Some l ∧
      ∃ p q, np.getitem (coords_of_node g) l.1 = Ok p ∧
             np.getitem (coords_of_node g) l.2 = Ok q ∧
             length_of_link g' !! i
             = Some (fmul (radius g) (arc_length p q (radius g))).
Proof.
  intros Hfits.
  assert (Forall (fun e => fits32 e.1 ∧ fits32 e.2) (edges fs)) as Hfit.
  { unfold edges. apply Forall_bind. eapply Forall_impl; [exact Hfits|].
    intros [[a b] c] (Ha & Hb & Hc). simpl.
    do 3 (constructor; [done|]). constructor. }
  rewrite Forall_forall in Hfit.
  pose proof (register_links_registry fs) as Hreg.
  pose proof Hreg as (Hkeys & Hnd & Hcov & Hfirst).
  rewrite Forall_forall in Hkeys.
  assert (∀ l, l ∈ (register_links fs).*2 → fits32 l.1 ∧ fits32 l.2) as Hfitl.
  { intros l Hl. apply Hfit. by eapply registry_values. }
  simpl. split; [ | split; [ | split ] ].
  - intros e He. pose proof (Hcov e He) as Hc.
    apply list_elem_of_fmap in Hc as (kl & Hk & Hkl).
    exists kl.2. split; [apply list_elem_of_fmap; eauto|].
    assert (fits32 kl.2.1 ∧ fits32 kl.2.2) as [? ?].
    { apply Hfitl, list_elem_of_fmap. eauto. }
    destruct (Hfit e He). apply link_key_inj; try done.
    rewrite <- (Hkeys kl Hkl). done.
  - intros i j l l' Hi Hj Hsame.
    rewrite list_lookup_fmap in Hi, Hj.
    destruct (register_links fs !! i) as [kl|] eqn:Ei; [|done].
    destruct (register_links fs !! j) as [kl'|] eqn:Ej; [|done].
    injection Hi as <-. injection Hj as <-.
    eapply NoDup_lookup; [exact Hnd | |].
    + rewrite list_lookup_fmap, Ei. done.
    + rewrite list_lookup_fmap, Ej. simpl. f_equal.
      rewrite (Hkeys kl), (Hkeys kl') by by eapply list_elem_of_lookup_2.
      symmetry. by apply link_key_same.
  - intros l (kl & -> & Hkl)%list_elem_of_fmap.
    destruct (Hfirst kl Hkl) as (pre & post & E & Hpre).
    exists pre, post. split; [done|]. intros e He Hs. apply (Hpre e He).
    rewrite (Hkeys kl Hkl). by apply link_key_same.
  - intros g g' (Hlinks & Hn & _ & t & Hinv & Hnal & _ & _ & Hlol)%setup_links_Ok.
    split; [done|]. rewrite Hlinks in Hn, Hinv.
    split; [by rewrite length_fmap|].
    destruct Hinv as (_ & _ & Hrows & _ & _ & _ & Hlens & _).
    intros i l Hil. split.
    + rewrite Hnal, Hrows. by rewrite lookup_app_l by by eapply lookup_lt_Some.
    + rewrite Hlol. auto.
Qed.

(** C4.  After [setup_links] every link is entered at both its nodes, -1
    at the tail and +1 at the head, in the first free slot; the row of a node
    holds as many valid entries as the node has link ends, the other slots up
    to 6 hold -1, and the degrees add up to twice the number of links. *)
Theorem incident_links fs g g' :
  setup_links fs g = Ok g' →
  let n := number_of_nodes g in
  let ls := (links g').*2 in
  (∀ (i : nat) l, ls !! i = Some l →
     ∃ kt kh : nat, np.index n l.1 = Ok kt ∧ np.index n l.2 = Ok kh ∧
       (Z.of_nat i, -1) ∈ incidences n ls kt ∧
       (Z.of_nat i, 1) ∈ incidences n ls kh) ∧
  (∀ k : nat, (k < n)%nat →
     ∃ row dirs,
       links_at_node g' !! k = Some row ∧
       link_dirs_at_node g' !! k = Some dirs ∧
       (degree n ls k ≤ 6)%nat ∧
       row = (incidences n ls k).*1 ++ replicate (6 - degree n ls k) (-1) ∧
       dirs = (incidences n ls k).*2 ++ replicate (6 - degree n ls k) 0 ∧
       length (filter (fun x => x ≠ -1) row) = degree n ls k) ∧
  sum_list (degree n ls <$> seq 0 n) = (2 * number_of_links g')%nat.
Proof.
  intros (_ & Hn & _ & t & Hinv & _ & Hlan & Hdirs & _)%setup_links_Ok.
  destruct Hinv as (_ & (_ & _ & _ & Hslots) & _ & _ & _ & _ & _ & Hvalid).
  simpl. split; [|split].
  - intros i l Hil. rewrite Forall_forall in Hvalid.
    destruct (Hvalid l) as (kt & kh & Ht & Hh); [by eapply list_elem_of_lookup_2|].
    exists kt, kh. do 2 (split; [done|]).
    split; [by eapply incidences_tail | by eapply incidences_head].
  - intros k Hk. destruct (Hslots k Hk) as (Hle & Hrow & Hd & _).
    rewrite Hlan, Hdirs. eexists _, _. do 2 (split; [done|]).
    do 3 (split; [done|]). rewrite filter_padding; [by rewrite length_fmap|].
    apply Forall_fmap. eapply Forall_impl; [apply incidences_entries|].
    simpl. intros e [? _]. lia.
  - rewrite degree_sum by done. rewrite Hn, length_fmap. done.
Qed.

(** C10.  In the table of direction signs a slot holds -1 or +1 exactly when
    the same slot of [links_at_node] holds a link, and 0 in the padding where
    [links_at_node] holds -1.  The number of non-zero signs is the degree;
    the number of signs other than -1 is 6 less the number of links that
    leave the node. *)
Theorem link_dirs_padding fs g g' :
  setup_links fs g = Ok g' →
  let n := number_of_nodes g in
  let ls := (links g').*2 in
  ∀ k : nat, (k < n)%nat →
    ∃ row dirs,
      links_at_node g' !! k = Some row ∧
      link_dirs_at_node g' !! k = Some dirs ∧
      length row = 6%nat ∧ length dirs = 6%nat ∧
      (∀ s : nat, (s < 6)%nat →
         ∃ li d, row !! s = Some li ∧ dirs !! s = Some d ∧
           ((0 ≤ li ∧ (d = -1 ∨ d = 1)) ∨ (li = -1 ∧ d = 0))) ∧
      length (filter (fun d => d ≠ 0) dirs) = degree n ls k ∧
      length (filter (fun d => d ≠ -1) dirs)
      = (6 - length (filter (fun e => e.2 = (-1)%Z) (incidences n ls k)))%nat.
Proof.
  intros (_ & _ & _ & t & Hinv & _ & Hlan & Hdirs & _)%setup_links_Ok.
  destruct Hinv as (_ & (_ & _ & _ & Hslots) & _).
  simpl. intros k Hk. destruct (Hslots k Hk) as (Hle & Hrow & Hd & _).
  rewrite Hlan, Hdirs. eexists _, _. do 2 (split; [done|]).
  pose proof (incidences_entries (number_of_nodes g) (links g').*2 k) as Hent.
  set (inc := incidences (number_of_nodes g) (links g').*2 k) in *.
  split; [rewrite length_app, length_fmap, length_replicate; lia|].
  split; [rewrite length_app, length_fmap, length_replicate; lia|].
  split; [|split].
  - intros s Hs. destruct (decide (s < length inc)%nat) as [Hlt|Hge].
    + destruct (lookup_lt_is_Some_2 inc s Hlt) as [e He].
      exists e.1, e.2. rewrite !lookup_app_l by by rewrite length_fmap.
      rewrite !list_lookup_fmap, He. do 2 (split; [done|]). left.
      rewrite Forall_forall in Hent. apply Hent. by eapply list_elem_of_lookup_2.
    + exists (-1), 0. rewrite !lookup_app_r by (rewrite length_fmap; lia).
      rewrite !lookup_replicate_2 by (rewrite length_fmap; lia). auto.
  - rewrite filter_padding; [by rewrite length_fmap|].
    apply Forall_fmap. eapply Forall_impl; [exact Hent|].
    simpl. intros e [_ ?]. lia.
  - rewrite filter_app, length_app.
    rewrite (filter_replicate_keep (fun d => d ≠ -1)), length_replicate by done.
    assert (length (filter (fun d => d ≠ (-1)%Z) inc.*2)
            + length (filter (fun e => e.2 = (-1)%Z) inc) = length inc)%nat; [|lia].
    clear. induction inc as [|e inc IH]; [done|].
    rewrite fmap_cons, !filter_cons. repeat case_decide; simpl in *; lia.
Qed.

End LinkTables.

(** ** The builders *)

(** Each builder ends by assigning its attributes: the object it returns
    is the record written at the end of its definition. *)
Ltac builder_inv H :=
  first [ unfold setup_links in H | unfold setup_patch_tables in H
        | unfold set_coords_of_corner in H | unfold setup_faces in H
        | unfold setup_cells in H ];
  repeat (let a := fresh "a" in let E := fresh "E" in
          apply bind_Ok in H as (a & E & H));
  injection H as <-.

Section Proofs.
Context {beyond_int64 : RowBeyondInt64}.
Context {F : Type} `{!Numeric F, !ArcLength F, !CartesianToSpherical F,
                     !RotateZY F, !AreaOfSphertri F}.
Implicit Types g : Graph F.

Lemma same_tables_refl g : same_tables g g.
Proof. repeat split. Qed.

Lemma same_tables_trans g1 g2 g3 :
  same_tables g1 g2 → same_tables g2 g3 → same_tables g1 g3.
Proof.
  unfold same_tables. intros H1 H2.
  repeat match goal with H : _ ∧ _ |- _ => destruct H as [? H] end.
  repeat split; congruence.
Qed.

Lemma memoized_spherical_frame (slot : Graph F -> option (list F)) g v g' :
  memoized slot _setup_node_spherical_coords g = Ok (v, g') →
  same_tables g g' ∧ corners_at_node g' = corners_at_node g.
Proof.
  unfold memoized. destruct (slot g).
  - intros [= <- <-]. split; [apply same_tables_refl | done].
  - cbv zeta. destruct (slot (_setup_node_spherical_coords g)); [|done].
    intros [= <- <-]. split; [|done]. repeat split.
Qed.

Lemma sort_corners_at_frame g node g' :
  sort_corners_at g node = Ok g' → same_tables g g'.
Proof.
  unfold sort_corners_at. intros H.
  bind_inv H as row Hrow. bind_inv H as cx Hcx. bind_inv H as cy Hcy.
  bind_inv H as cz Hcz. bind_inv H as [phi g1] Hphi. bind_inv H as phin Hphin.
  bind_inv H as [theta g2] Hth. bind_inv H as thn Hthn. bind_inv H as sorted Hs.
  apply memoized_spherical_frame in Hphi as [H1 _], Hth as [H2 _].
  pose proof (same_tables_trans _ _ _ H1 H2) as H12.
  eapply same_tables_trans; [exact H12|].
  repeat case_bool_decide; try done; bind_inv H; injection H as <-; repeat split.
Qed.

Lemma sort_corners_ccw_frame g g' :
  sort_corners_ccw g = Ok g' → same_tables g g'.
Proof.
  unfold sort_corners_ccw. intros H.
  eapply (for_each_inv _ (fun _ g1 => same_tables g g1)); [| |exact H].
  - apply same_tables_refl.
  - intros pre x s1 s2 H1 H2%sort_corners_at_frame.
    by eapply same_tables_trans.
Qed.


Lemma init_Ok r vs fs g :
  init r vs fs = Ok g →
  ∃ g2 g3 g4 g5 g6,
    setup_links fs (setup_nodes vs (new_graph r)) = Ok g2 ∧
    setup_patch_tables fs g2 = Ok g3 ∧ set_coords_of_corner g3 = Ok g4 ∧
    sort_corners_ccw g4 = Ok g5 ∧ setup_faces g5 = Ok g6 ∧
    setup_cells g6 = Ok g.
Proof.
  unfold init, setup_patches_and_corners. intros H.
  bind_inv H as g2 H2. bind_inv H as g5 H5. bind_inv H as g6 H6.
  bind_inv H5 as g3 H3. bind_inv H5 as g4 H4.
  by exists g2, g3, g4, g5, g6.
Qed.

Lemma init_caches_unset r vs fs g :
  init r vs fs = Ok g →
  _cell_at_node g = None ∧ _face_at_link g = None ∧ _area_of_patch g = None.
Proof.
  intros (g2 & g3 & g4 & g5 & g6 & H2 & H3 & H4 & H5 & H6 & H)%init_Ok.
  apply sort_corners_ccw_frame in H5.
  destruct H5 as (_&_&_&_&_&_&_&_&_&_&_&_&_&_&_&_&_&_& Hc & Hf & Ha).
  builder_inv H. builder_inv H6. simpl. rewrite Hc, Hf, Ha.
  builder_inv H4. builder_inv H3. builder_inv H2. done.
Qed.

Lemma init_counts r vs fs g :
  init r vs fs = Ok g →
  number_of_nodes g = length vs ∧
  number_of_links g = length (register_links fs) ∧
  number_of_patches g = length fs ∧ number_of_corners g = length fs ∧
  number_of_faces g = number_of_links g ∧
  number_of_cells g = number_of_nodes g.
Proof.
  intros (g2 & g3 & g4 & g5 & g6 & H2 & H3 & H4 & H5 & H6 & H)%init_Ok.
  apply sort_corners_ccw_frame in H5.
  destruct H5 as (_&_& Hn &_&_&_&_& Hl &_& Hc & Hp &_).
  builder_inv H. builder_inv H6. simpl. rewrite Hn, Hl, Hc, Hp.
  builder_inv H4. builder_inv H3. builder_inv H2. done.
Qed.

(** C6.  In a constructed mesh the dual complex shares its index space
    with the primal one: there are as many faces as links, cells as nodes and
    corners as patches, and [cell_at_node], [node_at_cell], [face_at_link] and
    [link_at_face] are the identity on their index range. *)
Theorem dual_index_space r vs fs g :
  init r vs fs = Ok g →
  number_of_faces g = number_of_links g ∧
  number_of_cells g = number_of_nodes g ∧
  number_of_corners g = number_of_patches g ∧
  (∃ c g', cell_at_node g = Ok (c, g') ∧ node_at_cell g = Ok (c, g') ∧
     length c = number_of_nodes g ∧
     ∀ i : nat, (i < number_of_nodes g)%nat → c !! i = Some (Z.of_nat i)) ∧
  (∃ f g', face_at_link g = Ok (f, g') ∧ link_at_face g = Ok (f, g') ∧
     length f = number_of_links g ∧
     ∀ j : nat, (j < number_of_links g)%nat → f !! j = Some (Z.of_nat j)).
Proof.
  intros H.
  destruct (init_counts _ _ _ _ H) as (_ & _ & Hp & Hc & Hf & Hn).
  destruct (init_caches_unset _ _ _ _ H) as (Hcn & Hfl & _).
  repeat split; [done | done | congruence | |].
  - exists (np.arange (number_of_nodes g)), (set_cell_at_node g).
    unfold node_at_cell, cell_at_node, memoized. rewrite Hcn. simpl.
    repeat split; [apply length_arange | apply arange_lookup].
  - exists (np.arange (number_of_links g)), (set_face_at_link g).
    unfold link_at_face, face_at_link, memoized. rewrite Hfl. simpl.
    repeat split; [apply length_arange | apply arange_lookup].
Qed.

(** C8.  The property [area_of_patch] of a constructed mesh raises
    [TypeError] instead of returning areas: nothing assigns [_area_of_patch],
    and the call meant to compute it passes [self] twice. *)
Theorem area_of_patch_raises r vs fs g :
  init r vs fs = Ok g → area_of_patch g = Raise TypeError.
Proof.
  intros (_ & _ & Ha)%init_caches_unset.
  unfold area_of_patch. rewrite Ha. reflexivity.
Qed.

(** The spherical coordinates are computed on first access and kept. *)
Lemma spherical_memoized (slot : Graph F -> option (list F)) g v g' :
  memoized slot _setup_node_spherical_coords g = Ok (v, g') →
  memoized slot _setup_node_spherical_coords g' = Ok (v, g').
Proof.
  unfold memoized. destruct (slot g) eqn:E.
  - intros [= <- <-]. by rewrite E.
  - cbv zeta. destruct (slot (_setup_node_spherical_coords g)) eqn:E'; [|done].
    intros [= <- <-]. by rewrite E'.
Qed.


(** ** setup_cells *)

Lemma foldl_min_le (l : list Z) (x : Z) :
  foldl Z.min x l ≤ x ∧ Forall (fun y => foldl Z.min x l ≤ y) l ∧
  (foldl Z.min x l = x ∨ foldl Z.min x l ∈ l).
Proof.
  revert x; induction l as [|y l IH]; intros x; simpl.
  - repeat split; [lia | constructor | by left].
  - destruct (IH (Z.min x y)) as (H1 & H2 & H3). repeat split.
    + lia.
    + constructor; [lia | done].
    + destruct H3 as [H3|H3]; [|right; by right].
      set (m := foldl Z.min (Z.min x y) l) in *.
      destruct (decide (m = x)) as [?|?]; [by left|].
      right. assert (m = y) as -> by lia. by left.
Qed.

Lemma amin_Ok (row : list Z) (m : Z) :
  np.amin row = Ok m → m ∈ row ∧ Forall (fun y => m ≤ y) row.
Proof.
  destruct row as [|x l]; simpl; [done|]. intros [= <-].
  destruct (foldl_min_le l x) as (H1 & H2 & H3). split.
  - destruct H3 as [-> | H3]; [by left | by right].
  - by constructor.
Qed.

(** The factor [ntri]: 5 when a slot of the row holds the sentinel, else 6. *)
Lemma ntri_spec (row : list Z) (m : Z) :
  Forall (fun c => -1 ≤ c) row → np.amin row = Ok m →
  5 + (if bool_decide (m > -1) then 1 else 0)
  = if bool_decide (-1 ∈ row) then 5 else 6.
Proof.
  intros Hrow [Hm Hmin]%amin_Ok.
  rewrite Forall_forall in Hrow, Hmin.
  repeat case_bool_decide; try done.
  - assert (m ≤ -1) by eauto. lia.
  - assert (-1 ≤ m) by eauto. assert (m = -1) as -> by lia. done.
Qed.

Lemma cell_body_Ok g areas (cell : nat) areas' :
  cell_body g areas cell = Ok areas' →
  ∃ v, cell_area_of g cell v ∧ (cell < length areas)%nat ∧
       areas' = <[cell := v]> areas.
Proof.
  unfold cell_body. intros H.
  bind_inv H as p0 Hp0. bind_inv H as row Hrow. bind_inv H as c0 Hc0.
  bind_inv H as p1 Hp1. bind_inv H as row' Hrow'. bind_inv H as c1 Hc1.
  bind_inv H as p2 Hp2. bind_inv H as row'' Hrow''. bind_inv H as m Hm.
  assert (row' = row) as -> by congruence.
  assert (row'' = row) as -> by congruence.
  apply getitem_nat_Ok in Hp0, Hrow.
  apply (getitem_nat_Ok row 0) in Hc0. apply (getitem_nat_Ok row 1) in Hc1.
  apply setitem_Ok in H as (k & [Hk [Hk'|Hk']]%index_Ok & ->); [|lia].
  assert (k = cell) as -> by lia.
  eexists. split; [|done]. by exists p0, row, c0, c1, p1, p2, m.
Qed.

Lemma setup_cells_areas g g' :
  setup_cells g = Ok g' →
  length (area_of_cell g') = number_of_nodes g ∧
  ∀ cell : nat, (cell < number_of_nodes g)%nat →
    ∃ v, area_of_cell g' !! cell = Some v ∧ cell_area_of g cell v.
Proof.
  unfold setup_cells. intros H. bind_inv H as areas Hl. injection H as <-. simpl.
  set (n := number_of_nodes g) in *.
  apply (for_each_inv _ (fun pre a =>
           length a = n ∧
           ∀ cell, cell ∈ pre → ∃ v, a !! cell = Some v ∧ cell_area_of g cell v))
    in Hl.
  - destruct Hl as [Hlen Hl]. split; [done|]. intros cell Hc. apply Hl.
    apply elem_of_seq. lia.
  - split; [by rewrite length_replicate|]. intros cell Hc. inversion Hc.
  - intros pre x a1 a2 [Hlen IH] (v & Hv & Hx & ->)%cell_body_Ok.
    split; [by rewrite length_insert|].
    intros cell [Hc| ->%list_elem_of_singleton]%elem_of_app.
    + destruct (decide (cell = x)) as [->|Hne].
      * exists v. by rewrite list_lookup_insert_eq.
      * rewrite list_lookup_insert_ne by done. auto.
    + exists v. by rewrite list_lookup_insert_eq.
Qed.

End Proofs.

(** ** setup_patches_and_corners *)


Lemma attach_corner_Ok n inc (p : Z) st (v : Z) st' :
  corner_slots n inc st.1 st.2 →
  attach_corner p st v = Ok st' →
  ∃ kv, np.index n v = Ok kv ∧
    corner_slots n (fun k => if decide (k = kv) then inc k ++ [p] else inc k)
      st'.1 st'.2.
Proof.
  destruct st as [can ix]. simpl. intros (Hl & Hx & Hrows) H.
  unfold attach_corner in H. simpl in H.
  bind_inv H as d Hd1. bind_inv H as can1 Hcan. bind_inv H as d' Hd2.
  bind_inv H as ix1 Hix. injection H as <-. simpl.
  assert (d' = d) as -> by congruence.
  apply getitem_Ok in Hd1 as (kv & Hkv & Hdv). rewrite Hx in Hkv.
  exists kv. split; [done|].
  assert (kv < n)%nat as Hlt by by apply index_Ok in Hkv as [? _].
  destruct (Hrows kv Hlt) as (Hle & Hrow & Hc).
  assert (d = Z.of_nat (length (inc kv))) as -> by congruence.
  apply setitem2_Ok in Hcan as (k1 & row & s & Hk1 & Hr1 & Hs & ->).
  rewrite Hl in Hk1. assert (k1 = kv) as -> by congruence.
  assert (row = inc kv ++ replicate (6 - length (inc kv)) (-1)) as ->
    by congruence.
  apply setitem_Ok in Hix as (k3 & Hk3 & ->).
  rewrite Hx in Hk3. assert (k3 = kv) as -> by congruence.
  rewrite length_app, length_replicate in Hs.
  apply index_Ok in Hs as [Hs [Hs'|Hs']]; [|lia].
  assert (s = length (inc kv)) as -> by lia.
  do 2 (split; [by rewrite length_insert|]).
  intros k Hk. destruct (decide (k = kv)) as [->|Hne].
  - rewrite !list_lookup_insert_eq by lia.
    split; [rewrite length_app; simpl; lia|].
    split; [f_equal; apply insert_first_free; lia|].
    f_equal. rewrite length_app. simpl. lia.
  - rewrite !list_lookup_insert_ne by done. auto.
Qed.

Lemma attach_corner_Raise (p : Z) st (v : Z) e :
  attach_corner p st v = Raise e → e = IndexError.
Proof.
  unfold attach_corner. intros H.
  repeat (apply bind_Raise in H as [H|(? & _ & H)];
          [first [by eapply getitem_Raise | by eapply setitem2_Raise
                 | by eapply setitem_Raise]|]).
  done.
Qed.

Lemma corner_slots_ext n inc inc' can ix :
  (∀ k, inc k = inc' k) → corner_slots n inc can ix → corner_slots n inc' can ix.
Proof.
  intros E (H1 & H2 & H). do 2 (split; [done|]).
  intros k Hk. rewrite <- E. auto.
Qed.

(** One patch: its three nodes receive corner [p]; an index that names no
    node raises. *)
Lemma attach_patch_Ok n inc st (p : nat) (t : Z * Z * Z) st' :
  corner_slots n inc st.1 st.2 →
  attach_patch st (p, t) = Ok st' →
  (∃ ka kb kc : nat, np.index n t.1.1 = Ok ka ∧ np.index n t.1.2 = Ok kb ∧
                     np.index n t.2 = Ok kc) ∧
  ∃ inc', corner_slots n inc' st'.1 st'.2 ∧
    ∀ k, ∃ new, inc' k = inc k ++ new ∧ Forall (fun c => c = Z.of_nat p) new.
Proof.
  destruct t as [[a b] c]. intros Hs H. unfold attach_patch in H. simpl in H.
  bind_inv H as st1 H1. bind_inv H as st2 H2. bind_inv H as st3 H3.
  injection H as <-.
  destruct (attach_corner_Ok _ _ _ _ _ _ Hs H1) as (ka & Ha & Hs1).
  destruct (attach_corner_Ok _ _ _ _ _ _ Hs1 H2) as (kb & Hb & Hs2).
  destruct (attach_corner_Ok _ _ _ _ _ _ Hs2 H3) as (kc & Hc & Hs3).
  split; [by exists ka, kb, kc|].
  eexists. split; [exact Hs3|]. intros k. simpl.
  repeat case_decide; eexists; rewrite <- ?app_assoc;
    (split; [reflexivity || (symmetry; apply app_nil_r)|]);
    repeat constructor.
Qed.

Lemma attach_patch_Raise st pt e : attach_patch st pt = Raise e → e = IndexError.
Proof.
  destruct pt as [p [[a b] c]]. unfold attach_patch. simpl. intros H.
  repeat (apply bind_Raise in H as [H|(? & _ & H)];
          [by eapply attach_corner_Raise|]).
  done.
Qed.

Lemma attach_patch_out n inc st (p : nat) (t : Z * Z * Z) :
  corner_slots n inc st.1 st.2 →
  (∃ v, v ∈ [t.1.1; t.1.2; t.2] ∧ (v < - Z.of_nat n ∨ Z.of_nat n ≤ v)) →
  attach_patch st (p, t) = Raise IndexError.
Proof.
  intros Hs (v & Hv & Hout).
  destruct (attach_patch st (p, t)) as [st'|e] eqn:E.
  - destruct (attach_patch_Ok _ _ _ _ _ _ Hs E) as ((ka & kb & kc & Ha & Hb & Hc) & _).
    apply index_Ok in Ha as [? ?], Hb as [? ?], Hc as [? ?].
    simpl in Hv. set_unfold in Hv. destruct Hv as [->|[->|[->|[]]]]; lia.
  - f_equal. by eapply attach_patch_Raise.
Qed.

Lemma ret_bind {A B} (a : A) (f : A -> result B) : Ok a ≫= f = f a.
Proof. done. Qed.

Lemma raise_bind {A B} (e : exn) (f : A -> result B) : Raise e ≫= f = Raise e.
Proof. done. Qed.

Lemma corner_slots_init n :
  corner_slots n (fun _ => []) (np.full2 n 6 (-1)) (replicate n 0).
Proof.
  unfold corner_slots, np.full2. rewrite !length_replicate.
  do 2 (split; [done|]). intros k Hk. simpl.
  rewrite !lookup_replicate_2 by done. split; [lia | done].
Qed.

Lemma patch_loop_inv n (l : list (nat * (Z * Z * Z))) st st' :
  for_each attach_patch l st = Ok st' →
  (∃ inc, corner_slots n inc st.1 st.2 ∧ ∀ k, inc k = []) →
  ∃ inc, corner_slots n inc st'.1 st'.2 ∧
    ∀ k, Forall (fun c => ∃ pt, pt ∈ l ∧ c = Z.of_nat pt.1) (inc k).
Proof.
  intros H H0.
  apply (for_each_inv _ (fun pre s =>
           ∃ inc, corner_slots n inc s.1 s.2 ∧
             ∀ k, Forall (fun c => ∃ pt, pt ∈ pre ∧ c = Z.of_nat pt.1) (inc k)))
    in H; [done | |].
  - destruct H0 as (inc & Hs & He). exists inc. split; [done|].
    intros k. rewrite He. constructor.
  - intros pre [p t] s1 s2 (inc & Hs & Hin) Hb.
    destruct (attach_patch_Ok _ _ _ _ _ _ Hs Hb) as (_ & inc' & Hs' & Hnew).
    exists inc'. split; [done|]. intros k.
    destruct (Hnew k) as (new & -> & Hn). apply Forall_app. split.
    + eapply Forall_impl; [apply Hin|]. intros c (pt & Hpt & ->).
      exists pt. split; [|done]. apply elem_of_app. by left.
    + eapply Forall_impl; [exact Hn|]. intros c ->.
      exists (p, t). split; [|done]. apply elem_of_app. right. by left.
Qed.

Lemma patch_loop_out n inc (l : list (nat * (Z * Z * Z))) st :
  corner_slots n inc st.1 st.2 →
  (∃ pt v, pt ∈ l ∧ v ∈ [pt.2.1.1; pt.2.1.2; pt.2.2] ∧
           (v < - Z.of_nat n ∨ Z.of_nat n ≤ v)) →
  for_each attach_patch l st = Raise IndexError.
Proof.
  revert inc st. induction l as [|[p t] l IH]; intros inc st Hs (pt & v & Hpt & Hv & Hout).
  - inversion Hpt.
  - change (for_each attach_patch ((p, t) :: l) st)
      with (attach_patch st (p, t) ≫= for_each attach_patch l).
    destruct (attach_patch st (p, t)) as [st1|e] eqn:E;
      [rewrite ret_bind | rewrite raise_bind].
    + destruct (attach_patch_Ok _ _ _ _ _ _ Hs E) as (_ & inc' & Hs' & _).
      apply (IH inc' st1 Hs'). exists pt, v. split; [|done].
      apply elem_of_cons in Hpt as [->|?]; [|done].
      rewrite (attach_patch_out n inc st p t Hs) in E; [done|]. by exists v.
    + f_equal. by eapply attach_patch_Raise.
Qed.

Section PatchTables.
Context {beyond_int64 : RowBeyondInt64}.
Context {F : Type}.
Implicit Types g : Graph F.

Lemma as_int64_row_fits t : int64_row t → as_int64_row t = Ok t.
Proof. intros Ht. unfold as_int64_row. by rewrite bool_decide_true. Qed.

Lemma as_int64_row_Ok t row :
  as_int64_row t = Ok row → int64_row row ∧ (int64_row t → row = t).
Proof.
  unfold as_int64_row. case_bool_decide as Ht.
  - by intros [= <-].
  - intros H. split; [by eapply row_beyond_int64_stored | done].
Qed.

Lemma as_int64_row_Raise t e :
  as_int64_row t = Raise e → e = OverflowError ∧ ¬ int64_row t.
Proof.
  unfold as_int64_row. case_bool_decide as Ht; [done|].
  intros H. split; [by eapply row_beyond_int64_raises | done].
Qed.

Lemma stored_rows_fits fs : Forall int64_row fs → stored_rows fs fs.
Proof.
  intros Hfs. apply Forall2_same_length_lookup_2; [done|].
  intros i t t' Ht Ht'. simplify_eq. apply as_int64_row_fits.
  by eapply (proj1 (Forall_lookup _ _) Hfs).
Qed.

Lemma stored_rows_int64 fs rows : stored_rows fs rows → Forall int64_row rows.
Proof.
  induction 1 as [|t row fs rows Ht _ IH]; constructor; [|done].
  by apply as_int64_row_Ok in Ht as [? _].
Qed.

Lemma stored_rows_eq fs rows :
  stored_rows fs rows → Forall int64_row fs → rows = fs.
Proof.
  induction 1 as [|t row fs rows Ht _ IH]; [done|].
  intros [Hfit Hfs]%Forall_cons. f_equal; [|by apply IH].
  apply as_int64_row_Ok in Ht as [_ Ht]. by apply Ht.
Qed.

Lemma patch_body_Raise t pf e :
  patch_body t pf = Raise e →
  e = IndexError ∨ (e = OverflowError ∧ ¬ int64_row pf.2).
Proof.
  unfold patch_body. intros H.
  apply bind_Raise in H as [H|(row & _ & H)].
  { right. by apply as_int64_row_Raise in H. }
  apply bind_Raise in H as [H|(nap & _ & H)].
  { left. by eapply setitem_Raise. }
  apply bind_Raise in H as [H|(st & _ & H)]; [|done].
  left. by eapply attach_patch_Raise.
Qed.

Lemma patch_body_eq t (p : nat) tri :
  patch_body t (p, tri)
  = row ← as_int64_row tri;
    nap ← np.setitem (pt_nodes_at_patch t) (Z.of_nat p) row;
    st ← attach_patch (pt_corners t) (p, row);
    Ok {| pt_nodes_at_patch := nap; pt_corners := st |}.
Proof. done. Qed.

(** The loop over the patches when every row is stored: it is the loop
    that enters the stored rows in [corners_at_node], and [nodes_at_patch]
    holds these rows. *)
Lemma patch_loop_stored post rows (k : nat) nap st :
  stored_rows post rows → (k + length post ≤ length nap)%nat →
  for_each patch_body (zip (seq k (length post)) post)
    {| pt_nodes_at_patch := nap; pt_corners := st |}
  = st' ← for_each attach_patch (zip (seq k (length rows)) rows) st;
    Ok {| pt_nodes_at_patch := take k nap ++ rows ++ drop (k + length post) nap;
          pt_corners := st' |}.
Proof.
  intros Hrows. revert k nap st.
  induction Hrows as [|t row post rows Ht _ IH]; intros k nap st Hk.
  - simpl. by rewrite Nat.add_0_r, take_drop.
  - simpl in Hk. cbn [length seq zip zip_with for_each].
    rewrite patch_body_eq, Ht, ret_bind. cbv beta.
    cbn [pt_nodes_at_patch pt_corners].
    assert (np.setitem nap (Z.of_nat k) row = Ok (<[k := row]> nap)) as ->.
    { apply setitem_Ok. exists k. split; [|done]. apply index_nat. lia. }
    rewrite ret_bind. cbv beta.
    destruct (attach_patch st (k, row)) as [st1|e]; [|done].
    rewrite !ret_bind. cbv beta. rewrite IH by (rewrite length_insert; lia).
    destruct (for_each attach_patch (zip (seq (S k) (length rows)) rows) st1)
      as [st2|e]; [|done].
    rewrite !ret_bind. do 2 f_equal.
    rewrite drop_insert_lt by lia.
    replace (S k + length post)%nat with (k + S (length post))%nat by lia.
    rewrite (take_S_r _ _ row)
      by (apply list_lookup_insert_eq; lia).
    rewrite take_insert_ge by lia. by rewrite <- app_assoc.
Qed.

Lemma patch_loop_rows l t t' :
  for_each patch_body l t = Ok t' → ∃ rows, stored_rows l.*2 rows.
Proof.
  revert t. induction l as [|pf l IH]; intros t H.
  - exists []. constructor.
  - simpl in H. bind_inv H as t1 H1. destruct (IH _ H) as [rows Hrows].
    unfold patch_body in H1. bind_inv H1 as row Hrow.
    exists (row :: rows). by constructor.
Qed.

Lemma patch_loop_Raise l t e :
  for_each patch_body l t = Raise e →
  e = IndexError ∨ (e = OverflowError ∧ ¬ Forall int64_row l.*2).
Proof.
  apply (for_each_raises_elem _ (fun e =>
    e = IndexError ∨ (e = OverflowError ∧ ¬ Forall int64_row l.*2))).
  intros s x e' Hx [->|[-> Hb]]%patch_body_Raise; [by left|].
  right. split; [done|]. intros Hall. apply Hb.
  rewrite Forall_forall in Hall. apply Hall. by apply list_elem_of_fmap_2.
Qed.

(** The tables of [setup_patch_tables] are those it builds from the rows
    it stores. *)
Lemma setup_patch_tables_stored fs rows g :
  stored_rows fs rows → setup_patch_tables fs g = setup_patch_tables rows g.
Proof.
  intros Hrows. pose proof (stored_rows_fits _ (stored_rows_int64 _ _ Hrows)) as Hrows'.
  pose proof (Forall2_length _ _ _ Hrows) as Hlen.
  unfold setup_patch_tables. cbv zeta.
  rewrite (patch_loop_stored fs rows 0 _ _ Hrows)
    by (rewrite length_replicate; lia).
  rewrite (patch_loop_stored rows rows 0 _ _ Hrows')
    by (rewrite length_replicate; lia).
  destruct (for_each attach_patch _ _) as [st|e]; [|done].
  rewrite !ret_bind. cbn [pt_nodes_at_patch pt_corners].
  rewrite !drop_ge by (rewrite length_replicate; lia). by rewrite Hlen.
Qed.

Lemma setup_patch_tables_rows fs g g' :
  setup_patch_tables fs g = Ok g' →
  stored_rows fs (nodes_at_patch g') ∧
  setup_patch_tables (nodes_at_patch g') g = Ok g'.
Proof.
  intros H. pose proof H as H'. unfold setup_patch_tables in H'.
  bind_inv H' as t Ht. destruct (patch_loop_rows _ _ _ Ht) as [rows Hrows].
  rewrite snd_zip in Hrows by by rewrite length_seq.
  rewrite (patch_loop_stored fs rows 0 _ _ Hrows) in Ht
    by (rewrite length_replicate; lia).
  bind_inv Ht as st Hst. injection Ht as <-. injection H' as <-. simpl.
  rewrite drop_ge by (rewrite length_replicate; lia). rewrite app_nil_r.
  split; [done|]. rewrite <- (setup_patch_tables_stored fs rows g Hrows), H.
  simpl. rewrite drop_ge by (rewrite length_replicate; lia).
  by rewrite app_nil_r.
Qed.

Lemma setup_patch_tables_Raise fs g e :
  setup_patch_tables fs g = Raise e →
  e = IndexError ∨ (e = OverflowError ∧ ¬ Forall int64_row fs).
Proof.
  unfold setup_patch_tables. intros [H|(t & _ & H)]%bind_Raise; [|done].
  apply patch_loop_Raise in H. by rewrite snd_zip in H by by rewrite length_seq.
Qed.

(** The loop as [setup_patch_tables] runs it. *)
Lemma patch_loop_start fs rows st :
  stored_rows fs rows →
  for_each patch_body (zip (seq 0 (length fs)) fs)
    {| pt_nodes_at_patch := replicate (length fs) (0, 0, 0); pt_corners := st |}
  = st' ← for_each attach_patch (zip (seq 0 (length rows)) rows) st;
    Ok {| pt_nodes_at_patch := rows; pt_corners := st' |}.
Proof.
  intros Hrows. rewrite (patch_loop_stored fs rows 0 _ _ Hrows)
    by (rewrite length_replicate; lia).
  rewrite drop_ge by (rewrite length_replicate; lia). by rewrite app_nil_r.
Qed.

Lemma setup_patch_tables_Ok fs g g' :
  setup_patch_tables fs g = Ok g' →
  stored_rows fs (nodes_at_patch g') ∧ number_of_patches g' = length fs ∧
  number_of_corners g' = length fs ∧
  length (corners_at_node g') = number_of_nodes g ∧
  ∀ k : nat, (k < number_of_nodes g)%nat →
    ∃ row, corners_at_node g' !! k = Some row ∧ corner_row (length fs) row.
Proof.
  intros H. destruct (setup_patch_tables_rows _ _ _ H) as [Hrows _].
  split; [done|]. unfold setup_patch_tables in H. bind_inv H as t Ht.
  rewrite (patch_loop_stored fs _ 0 _ _ Hrows) in Ht
    by (rewrite length_replicate; lia).
  bind_inv Ht as st Hst. injection Ht as <-.
  injection H as <-. simpl. do 2 (split; [done|]).
  pose proof (Forall2_length _ _ _ Hrows) as Hlen.
  apply (patch_loop_inv (number_of_nodes g)) in Hst as (inc & (Hl & _ & Hrows') & Hin).
  2: { eexists. split; [apply corner_slots_init | done]. }
  split; [done|]. intros k Hk. destruct (Hrows' k Hk) as (Hle & Hrow & _).
  eexists. split; [exact Hrow|]. exists (inc k). do 2 (split; [done|]).
  eapply Forall_impl; [apply Hin|]. intros c ([p t] & Hpt & ->). simpl.
  apply list_elem_of_lookup in Hpt as [i Hi].
  apply lookup_zip_with_Some in Hi as (p' & t' & [= <- <-] & Hp & _).
  apply lookup_seq in Hp. lia.
Qed.

Lemma setup_patch_tables_out fs g :
  Forall int64_row fs →
  (∃ t v, t ∈ fs ∧ v ∈ [t.1.1; t.1.2; t.2] ∧
     (v < - Z.of_nat (number_of_nodes g) ∨ Z.of_nat (number_of_nodes g) ≤ v)) →
  setup_patch_tables fs g = Raise IndexError.
Proof.
  intros Hfs%stored_rows_fits (t & v & Ht & Hv & Hout).
  unfold setup_patch_tables. cbv zeta. rewrite (patch_loop_start _ _ _ Hfs).
  rewrite (patch_loop_out (number_of_nodes g) (fun _ => [])); [done | |].
  - apply corner_slots_init.
  - apply list_elem_of_lookup in Ht as [i Hi].
    exists (i, t), v. split; [|done]. apply list_elem_of_lookup. exists i.
    apply lookup_zip_with_Some. exists i, t. split; [done|]. split; [|done].
    apply lookup_seq. split; [done|]. by eapply lookup_lt_Some.
Qed.

End PatchTables.

(** ** sort_corners_ccw *)

(** The invariant rule for a loop over items met once each. *)
Lemma for_each_inv_NoDup {S B} (body : S -> B -> result S)
    (P : list B -> S -> Prop) (l : list B) (s s' : S) :
  NoDup l → P [] s →
  (∀ pre x s1 s2, x ∉ pre → P pre s1 → body s1 x = Ok s2 → P (pre ++ [x]) s2) →
  for_each body l s = Ok s' → P l s'.
Proof.
  intros Hnd H0 Hstep.
  cut (∀ pre s, NoDup (pre ++ l) → P pre s → for_each body l s = Ok s' →
                P (pre ++ l) s').
  { intros H. apply (H [] s); done. }
  clear Hnd. induction l as [|x l IH]; intros pre s1 Hnd HP; simpl.
  - intros [= <-]. by rewrite app_nil_r.
  - intros H. bind_inv H.
    replace (pre ++ x :: l) with ((pre ++ [x]) ++ l) in * by by rewrite <- app_assoc.
    eapply IH; [done| |done]. eapply Hstep; [|done..].
    apply NoDup_app in Hnd as ((_ & Hd & _)%NoDup_app & _).
    intros Hx. apply (Hd x Hx). by left.
Qed.

Lemma getitem_fmap {A B} (f : A -> B) (l : list A) (i : Z) (y : B) :
  np.getitem (f <$> l) i = Ok y ↔ ∃ x, np.getitem l i = Ok x ∧ y = f x.
Proof.
  rewrite getitem_Ok. setoid_rewrite getitem_Ok. rewrite length_fmap. split.
  - intros (k & Hk & Hy). rewrite list_lookup_fmap in Hy.
    destruct (l !! k) as [x|] eqn:E; [|done]. injection Hy as <-. eauto.
  - intros (x & (k & Hk & Hx) & ->). exists k. split; [done|].
    by rewrite list_lookup_fmap, Hx.
Qed.

Lemma take_ids_Ok {A} (a : list A) (ids : list Z) (out : list A) :
  np.take_ids a ids = Ok out ↔ Forall2 (fun i x => np.getitem a i = Ok x) ids out.
Proof. split; [apply map_result_Ok | apply map_result_all]. Qed.

Lemma Forall2_lookup_fmap {A} (d : A) (l : list A) (idx : list nat) (out : list A) :
  Forall2 (fun i c => l !! i = Some c) idx out →
  out = (fun i => default d (l !! i)) <$> idx.
Proof.
  induction 1 as [|i c idx out Hi _ IH]; [done|]. csimpl. by rewrite Hi, IH.
Qed.

Lemma take_fmap_seq {A} (d : A) (l : list A) (n : nat) :
  (n ≤ length l)%nat → take n l = (fun i => default d (l !! i)) <$> seq 0 n.
Proof.
  intros Hn. apply list_eq. intros i. rewrite list_lookup_fmap.
  destruct (decide (i < n)%nat) as [Hi|Hi].
  - rewrite lookup_take_lt, lookup_seq_lt by done. simpl.
    destruct (lookup_lt_is_Some_2 l i) as [x ->]; [lia | done].
  - rewrite lookup_take_ge, lookup_seq_ge by lia. done.
Qed.

Lemma count_nonzero_le (a : list Z) : (np.count_nonzero a ≤ length a)%nat.
Proof. unfold np.count_nonzero. apply length_filter. Qed.

Section Sort.
Context {beyond_int64 : RowBeyondInt64}.
Context {F : Type} `{!Numeric F, !CartesianToSpherical F, !RotateZY F}.
Implicit Types g : Graph F.


Lemma phi_of_node_Ok g phis g1 :
  cache_ok g → phi_of_node g = Ok (phis, g1) →
  phis = (fun s => s.1.2) <$> node_sph g ∧ cache_ok g1 ∧
  same_tables g g1 ∧ corners_at_node g1 = corners_at_node g.
Proof.
  intros [Hp Ht] H. unfold phi_of_node, memoized in H.
  destruct (_phi_of_node g) as [v|] eqn:E.
  - injection H as <- <-. destruct Hp as [?|[= ->]]; [done|].
    repeat split; try done. unfold cache_ok. rewrite E. auto.
  - simpl in H. injection H as <- <-. split; [reflexivity|].
    split; [split; right; reflexivity|]. split; [repeat split | reflexivity].
Qed.

Lemma theta_of_node_Ok g thetas g1 :
  cache_ok g → theta_of_node g = Ok (thetas, g1) →
  thetas = (fun s => s.2) <$> node_sph g ∧ cache_ok g1 ∧
  same_tables g g1 ∧ corners_at_node g1 = corners_at_node g.
Proof.
  intros [Hp Ht] H. unfold theta_of_node, memoized in H.
  destruct (_theta_of_node g) as [v|] eqn:E.
  - injection H as <- <-. destruct Ht as [?|[= ->]]; [done|].
    repeat split; try done. unfold cache_ok. rewrite E. auto.
  - simpl in H. injection H as <- <-. split; [reflexivity|].
    split; [split; right; reflexivity|]. split; [repeat split | reflexivity].
Qed.

Lemma corner_angles g (ids : list Z) cx cy cz phi theta :
  np.take_ids (x_of_corner g) ids = Ok cx →
  np.take_ids (y_of_corner g) ids = Ok cy →
  np.take_ids (z_of_corner g) ids = Ok cz →
  Forall2 (fun c a => ∃ q, np.getitem (coords_of_corner g) c = Ok q ∧
                           a = corner_angle phi theta q)
    ids (zip_with (fun x yz => corner_angle phi theta (x, yz.1, yz.2))
           cx (zip cy cz)).
Proof.
  rewrite !take_ids_Ok. intros Hx. revert cy cz.
  induction Hx as [|c x ids cx Hc _ IH]; intros cy cz Hy Hz.
  - inversion Hy. constructor.
  - inversion Hy as [|? y ? cy' Hcy Hy']; subst.
    inversion Hz as [|? z ? cz' Hcz Hz']; subst. simpl.
    constructor; [|by apply IH].
    apply getitem_fmap in Hc as (q & Hq & ->).
    apply getitem_fmap in Hcy as (q' & Hq' & ->).
    apply getitem_fmap in Hcz as (q'' & Hq'' & ->).
    assert (q' = q) as -> by congruence. assert (q'' = q) as -> by congruence.
    exists q. split; [done|]. by destruct q as [[? ?] ?].
Qed.


Lemma sorted_angles (A : Z -> F -> Prop) (row : list Z) (nc : nat)
    (ang : list F) (idx : list nat) (sorted : list Z) (keys : list F) :
  Forall2 A (take nc row) ang →
  Forall (fun i => (i < nc)%nat) idx →
  Forall2 (fun i c => row !! i = Some c) idx sorted →
  Forall2 (fun i k => ang !! i = Some k) idx keys →
  Forall2 A sorted keys.
Proof.
  intros HA Hlt Hs. revert keys.
  induction Hs as [|i c idx sorted Hi _ IH]; intros keys Hk.
  - inversion Hk. constructor.
  - inversion Hk as [|? k ? keys' Hik Hk']; subst.
    inversion_clear Hlt as [|? ? Hi' Hlt']. constructor; [|by apply IH].
    rewrite <- (lookup_take_lt row nc i) in Hi by done.
    by eapply Forall2_lookup_lr.
Qed.

Lemma sort_corners_at_Ok g (node : nat) g' :
  (∀ a, is_argsort flt a (argsort a)) →
  cache_ok g → sort_corners_at g node = Ok g' →
  ∃ row sorted angs,
    corners_at_node g !! node = Some row ∧
    corners_at_node g'
    = <[node := sorted ++ drop (np.count_nonzero ((fun c => c + 1) <$> row)) row]>
        (corners_at_node g) ∧
    length sorted = np.count_nonzero ((fun c => c + 1) <$> row) ∧
    Permutation sorted (take (np.count_nonzero ((fun c => c + 1) <$> row)) row) ∧
    Forall2 (angle_of g node) sorted angs ∧ nondecreasing flt angs ∧
    same_tables g g' ∧ cache_ok g'.
Proof.
  intros Hargsort Hcache H. unfold sort_corners_at in H.
  bind_inv H as row Hrow. apply getitem_nat_Ok in Hrow.
  set (nc := np.count_nonzero ((fun c => c + 1) <$> row)) in *.
  assert (nc ≤ length row)%nat as Hnc.
  { unfold nc. etrans; [apply count_nonzero_le|]. by rewrite length_fmap. }
  bind_inv H as cx Hcx. bind_inv H as cy Hcy. bind_inv H as cz Hcz.
  bind_inv H as [phis g1] Hphi. bind_inv H as phi Hphin.
  bind_inv H as [thetas g2] Hth. bind_inv H as theta Hthn.
  bind_inv H as sorted Hsorted.
  destruct (phi_of_node_Ok _ _ _ Hcache Hphi) as (-> & Hc1 & Hf1 & Hcan1).
  destruct (theta_of_node_Ok _ _ _ Hc1 Hth) as (-> & Hc2 & Hf2 & Hcan2).
  pose proof (same_tables_trans _ _ _ Hf1 Hf2) as Hf12.
  assert (coords_of_node g1 = coords_of_node g) as Hcn1 by apply Hf1.
  assert (coords_of_node g2 = coords_of_node g) as Hcn2 by apply Hf12.
  assert (node_sph g1 = node_sph g) as Hs1 by (unfold node_sph; by rewrite Hcn1).
  rewrite Hs1 in Hthn.
  apply getitem_nat_Ok in Hphin, Hthn.
  rewrite list_lookup_fmap in Hphin, Hthn. unfold node_sph in Hphin, Hthn.
  rewrite list_lookup_fmap in Hphin, Hthn.
  destruct (coords_of_node g !! node) as [p|] eqn:Ep; [|done].
  simpl in Hphin, Hthn. injection Hphin as <-. injection Hthn as <-.
  pose proof (corner_angles g (take nc row) cx cy cz
    (cartesian_to_spherical p.1.1 p.1.2 p.2).1.2
    (cartesian_to_spherical p.1.1 p.1.2 p.2).2 Hcx Hcy Hcz) as Hang.
  set (ang := zip_with _ cx (zip cy cz)) in *.
  destruct (Hargsort ang) as (Hperm & keys & Hkeys & Hnd).
  assert (length ang = nc) as Hlen.
  { apply Forall2_length in Hang. rewrite <- Hang, length_take. lia. }
  rewrite Hlen in Hperm.
  assert (Forall (fun i => (i < nc)%nat) (argsort ang)) as Hlt.
  { apply Forall_forall. intros i Hi. rewrite Hperm in Hi.
    apply elem_of_seq in Hi. lia. }
  apply take_ids_Ok in Hsorted. apply Forall2_fmap_l in Hsorted.
  assert (Forall2 (fun (i : nat) c => row !! i = Some c) (argsort ang) sorted) as Hs.
  { eapply Forall2_impl; [exact Hsorted|]. intros i c. apply getitem_nat_Ok. }
  assert (length sorted = nc) as Hls.
  { apply Forall2_length in Hs. rewrite <- Hs.
    apply Permutation_length in Hperm. by rewrite Hperm, length_seq. }
  rewrite bool_decide_eq_true_2 in H by done.
  bind_inv H as c Hset. injection H as <-.
  apply setitem_Ok in Hset as (k & [Hk [Hk'|Hk']]%index_Ok & ->); [|lia].
  assert (k = node) as -> by lia. rewrite Hcan2, Hcan1.
  exists row, sorted, keys. split; [done|]. split; [done|]. split; [done|].
  split; [|split; [|split; [done|split]]].
  - rewrite (Forall2_lookup_fmap 0 _ _ _ Hs), (take_fmap_seq 0) by done.
    by apply fmap_Permutation.
  - eapply (sorted_angles _ row nc ang); [|done..].
    eapply Forall2_impl; [exact Hang|]. intros c a (q & Hq & ->).
    by exists p, q.
  - eapply same_tables_trans; [exact Hf12|]. repeat split.
  - destruct Hc2 as [Hp Ht]. split; [exact Hp | exact Ht].
Qed.



Lemma angle_of_same g g1 node c a :
  same_tables g g1 → angle_of g1 node c a → angle_of g node c a.
Proof.
  intros Hf (p & q & Hp & Hq & ->).
  assert (coords_of_node g1 = coords_of_node g) as E1 by apply Hf.
  assert (coords_of_corner g1 = coords_of_corner g) as E2 by apply Hf.
  rewrite E1 in Hp. rewrite E2 in Hq. by exists p, q.
Qed.

Lemma sort_corners_ccw_Ok g g' :
  (∀ a, is_argsort flt a (argsort a)) →
  cache_ok g → sort_corners_ccw g = Ok g' →
  same_tables g g' ∧ cache_ok g' ∧
  length (corners_at_node g') = length (corners_at_node g) ∧
  ∀ node : nat, (node < number_of_nodes g)%nat →
    sorted_at g (corners_at_node g') node.
Proof.
  intros Hargsort Hcache H. unfold sort_corners_ccw in H.
  apply (for_each_inv_NoDup _ (fun pre gc =>
    same_tables g gc ∧ cache_ok gc ∧
    length (corners_at_node gc) = length (corners_at_node g) ∧
    (∀ node, node ∉ pre → corners_at_node gc !! node = corners_at_node g !! node) ∧
    (∀ node, node ∈ pre → sorted_at g (corners_at_node gc) node))) in H.
  - destruct H as (Hf & Hc & Hl & _ & Hs). do 3 (split; [done|]).
    intros node Hn. apply Hs, elem_of_seq. lia.
  - apply NoDup_seq.
  - split; [apply same_tables_refl|]. do 3 (split; [done|]).
    intros node Hn. inversion Hn.
  - intros pre x g1 g2 Hx (Hf & Hc & Hl & Hout & Hin) Hb.
    destruct (sort_corners_at_Ok _ _ _ Hargsort Hc Hb)
      as (row & sorted & angs & Hrow & Hcan & Hls & Hperm & Hang & Hnd & Hf' & Hc').
    split; [by eapply same_tables_trans|]. split; [done|].
    split; [by rewrite Hcan, length_insert|]. split.
    + intros node [Hn1 Hn2]%not_elem_of_app.
      rewrite Hcan, list_lookup_insert_ne; [by apply Hout|].
      intros ->. apply Hn2. by left.
    + intros node [Hn| ->%list_elem_of_singleton]%elem_of_app.
      * destruct (Hin node Hn) as (r & r' & a & Hr & Hr' & Hrest).
        exists r, r', a. split; [done|]. split; [|done].
        rewrite Hcan, list_lookup_insert_ne; [done|]. by intros ->.
      * rewrite Hout in Hrow by done.
        exists row, (sorted ++ drop (np.count_nonzero ((fun c => c + 1) <$> row)) row), angs.
        split; [done|]. split.
        { rewrite Hcan. apply list_lookup_insert_eq. rewrite Hl.
          by eapply lookup_lt_Some. }
        simpl. rewrite take_app_length' by done.
        rewrite drop_app_length' by done. do 2 (split; [done|]).
        split; [|done]. eapply Forall2_impl; [exact Hang|].
        intros c a. by apply angle_of_same.
Qed.

(** The angle of a corner in the frame of a node is one. *)
Lemma angle_of_fun g node c a a' :
  angle_of g node c a → angle_of g node c a' → a = a'.
Proof. intros (p & q & Hp & Hq & ->) (p' & q' & Hp' & Hq' & ->). congruence. Qed.

Lemma distinct_increasing (l : list F) :
  distinct_keys flt l → nondecreasing flt l → increasing flt l.
Proof.
  intros Hd Hn i x y Hx Hy.
  destruct (Hd i (S i) x y) as [H|H]; [lia | done | done | done |].
  by rewrite (Hn i x y Hx Hy) in H.
Qed.

Lemma increasing_lookup (l : list F) :
  (∀ x y z, flt x y = true → flt y z = true → flt x z = true) →
  increasing flt l →
  ∀ (i j : nat) x y, (i < j)%nat → l !! i = Some x → l !! j = Some y →
    flt x y = true.
Proof.
  intros Htr Hinc i j. induction j as [|j IH]; intros x y Hij Hx Hy; [lia|].
  destruct (decide (i = j)) as [->|Hne]; [by eapply Hinc|].
  destruct (lookup_lt_is_Some_2 l j) as [z Hz].
  { apply lookup_lt_Some in Hy. lia. }
  eapply Htr; [apply (IH x z); [lia|done..] | by eapply Hinc].
Qed.

Lemma distinct_keys_NoDup (l : list F) :
  (∀ x, flt x x = false) → distinct_keys flt l → NoDup l.
Proof.
  intros Hirr Hd. apply NoDup_alt. intros i j x Hi Hj.
  destruct (decide (i = j)) as [|Hne]; [done|].
  destruct (Hd i j x x Hne Hi Hj) as [H|H]; by rewrite Hirr in H.
Qed.

Lemma distinct_keys_corners g node (l : list Z) (ks : list F) :
  (∀ x, flt x x = false) →
  Forall2 (angle_of g node) l ks → distinct_keys flt ks → NoDup l.
Proof.
  intros Hirr Hl Hd. apply NoDup_alt. intros i j c Hi Hj.
  destruct (decide (i = j)) as [|Hne]; [done|].
  destruct (Forall2_lookup_l _ _ _ _ _ Hl Hi) as (x & Hx & Hcx).
  destruct (Forall2_lookup_l _ _ _ _ _ Hl Hj) as (y & Hy & Hcy).
  rewrite (angle_of_fun _ _ _ _ _ Hcy Hcx) in Hy.
  destruct (Hd i j x x Hne Hx Hy) as [H|H]; by rewrite Hirr in H.
Qed.

(** The corners of a node, of which no two have the same angle, have one
    arrangement only along which the angles never decrease. *)
Lemma sorted_row_unique g node (l l' : list Z) (ks ks' : list F) :
  strict_order flt → l' ≡ₚ l →
  Forall2 (angle_of g node) l ks → Forall2 (angle_of g node) l' ks' →
  distinct_keys flt ks → nondecreasing flt ks → nondecreasing flt ks' →
  l' = l.
Proof.
  intros [Hirr Htr] Hp Hl Hl' Hd Hn Hn'.
  pose proof (distinct_keys_corners _ _ _ _ Hirr Hl Hd) as Hnd.
  assert (distinct_keys flt ks') as Hd'.
  { intros i j x y Hij Hx Hy.
    destruct (Forall2_lookup_r _ _ _ _ _ Hl' Hx) as (ci & Hci & Hkx).
    destruct (Forall2_lookup_r _ _ _ _ _ Hl' Hy) as (cj & Hcj & Hky).
    assert (ci ∈ l) as [i0 Hi0]%list_elem_of_lookup
      by (rewrite <- Hp; by eapply list_elem_of_lookup_2).
    assert (cj ∈ l) as [j0 Hj0]%list_elem_of_lookup
      by (rewrite <- Hp; by eapply list_elem_of_lookup_2).
    destruct (Forall2_lookup_l _ _ _ _ _ Hl Hi0) as (x0 & Hx0 & Hkx0).
    destruct (Forall2_lookup_l _ _ _ _ _ Hl Hj0) as (y0 & Hy0 & Hky0).
    rewrite (angle_of_fun _ _ _ _ _ Hkx0 Hkx) in Hx0.
    rewrite (angle_of_fun _ _ _ _ _ Hky0 Hky) in Hy0.
    destruct (decide (i0 = j0)) as [->|Hne]; [|by eapply (Hd i0 j0)].
    exfalso. assert (ci = cj) as -> by congruence.
    rewrite <- Hp in Hnd. apply Hij. by eapply NoDup_lookup. }
  pose proof (increasing_lookup _ Htr (distinct_increasing _ Hd Hn)) as Hs.
  pose proof (increasing_lookup _ Htr (distinct_increasing _ Hd' Hn')) as Hs'.
  clear Hd Hd' Hn Hn' Hnd.
  revert l' ks ks' Hp Hl Hl' Hs Hs'.
  induction l as [|c l IH]; intros l' ks ks' Hp Hl Hl' Hs Hs'.
  { by apply Permutation_nil_r in Hp. }
  destruct l' as [|c' l']; [by apply Permutation_nil_cons in Hp|].
  apply Forall2_cons_inv_l in Hl as (a & ks1 & Ha & Hl & ->).
  apply Forall2_cons_inv_l in Hl' as (a' & ks1' & Ha' & Hl' & ->).
  assert (c' = c) as ->.
  { destruct (decide (c' = c)) as [|Hne]; [done|]. exfalso.
    assert (c ∈ l') as [j Hj]%list_elem_of_lookup.
    { assert (c ∈ c' :: l') as Hin by (rewrite Hp; by left).
      apply elem_of_cons in Hin as [?|?]; [congruence | done]. }
    assert (c' ∈ l) as [i Hi]%list_elem_of_lookup.
    { assert (c' ∈ c :: l) as Hin by (rewrite <- Hp; by left).
      apply elem_of_cons in Hin as [?|?]; [congruence | done]. }
    destruct (Forall2_lookup_l _ _ _ _ _ Hl' Hj) as (b & Hb & Hkb).
    destruct (Forall2_lookup_l _ _ _ _ _ Hl Hi) as (b' & Hb' & Hkb').
    rewrite (angle_of_fun _ _ _ _ _ Hkb Ha) in Hb.
    rewrite (angle_of_fun _ _ _ _ _ Hkb' Ha') in Hb'.
    pose proof (Hs' 0%nat (S j) a' a ltac:(lia) eq_refl Hb) as H1.
    pose proof (Hs 0%nat (S i) a a' ltac:(lia) eq_refl Hb') as H2.
    pose proof (Htr _ _ _ H2 H1) as H3. by rewrite (Hirr a) in H3. }
  f_equal. apply (IH l' ks1 ks1'); [by eapply Permutation_cons_inv | done..| |].
  - intros i j x y Hij Hx Hy. apply (Hs (S i) (S j)); [lia | done..].
  - intros i j x y Hij Hx Hy. apply (Hs' (S i) (S j)); [lia | done..].
Qed.


End Sort.

(** ** The constructor *)

Lemma getitem_elem_of {A} (a : list A) (i : Z) (x : A) :
  np.getitem a i = Ok x → x ∈ a.
Proof. intros (k & _ & Hk)%getitem_Ok. by eapply list_elem_of_lookup_2. Qed.

Section Init.
Context {beyond_int64 : RowBeyondInt64}.
Context {F : Type} `{!Numeric F, !ArcLength F, !CartesianToSpherical F,
                     !RotateZY F, !AreaOfSphertri F}.
Implicit Types g : Graph F.

Lemma sort_corners_at_entries (P : Z -> Prop) g (node : nat) g' :
  sort_corners_at g node = Ok g' →
  Forall (Forall P) (corners_at_node g) → Forall (Forall P) (corners_at_node g').
Proof.
  unfold sort_corners_at. intros H Hall.
  bind_inv H as row Hrow. bind_inv H as cx Hcx. bind_inv H as cy Hcy.
  bind_inv H as cz Hcz. bind_inv H as [phi g1] Hphi. bind_inv H as phin Hphin.
  bind_inv H as [theta g2] Hth. bind_inv H as thn Hthn. bind_inv H as sorted Hs.
  apply memoized_spherical_frame in Hphi as [_ H1], Hth as [_ H2].
  assert (Forall P row) as Hr.
  { rewrite Forall_forall in Hall. by eapply Hall, getitem_elem_of. }
  assert (Forall P sorted) as Hsorted.
  { apply take_ids_Ok in Hs. apply Forall_forall. intros c Hc.
    apply list_elem_of_lookup in Hc as [j Hj].
    destruct (Forall2_lookup_r _ _ _ _ _ Hs Hj) as (i & _ & Hi).
    rewrite Forall_forall in Hr. by eapply Hr, getitem_elem_of. }
  repeat case_bool_decide; try done; bind_inv H as c Hc; injection H as <-;
    simpl; apply setitem_Ok in Hc as (k & _ & ->); rewrite H2, H1;
    apply Forall_insert; try done; apply Forall_app; split;
    try (by apply Forall_drop); try done.
  apply Forall_forall. intros x (y & Hy & Hx)%list_elem_of_In%in_flat_map.
  apply list_elem_of_In, elem_of_replicate in Hx as [-> _].
  rewrite Forall_forall in Hsorted. by apply Hsorted, list_elem_of_In.
Qed.

Lemma init_corner_rows r vs fs g :
  init r vs fs = Ok g →
  Forall (Forall (fun c => -1 ≤ c)) (corners_at_node g).
Proof.
  intros (g2 & g3 & g4 & g5 & g6 & H2 & H3 & H4 & H5 & H6 & H)%init_Ok.
  apply setup_patch_tables_Ok in H3 as (_ & _ & _ & Hl & Hrows).
  assert (Forall (Forall (fun c => -1 ≤ c)) (corners_at_node g3)) as H3.
  { apply Forall_forall. intros row [k Hk]%list_elem_of_lookup.
    destruct (Hrows k) as (row' & Hr & valid & -> & _ & Hv).
    { rewrite <- Hl. by eapply lookup_lt_Some. }
    assert (row = valid ++ replicate (6 - length valid) (-1)) as -> by congruence.
    apply Forall_app. split.
    - eapply Forall_impl; [exact Hv|]. simpl. lia.
    - apply Forall_forall. intros c [-> _]%elem_of_replicate. lia. }
  assert (Forall (Forall (fun c => -1 ≤ c)) (corners_at_node g5)) as H5'.
  { unfold sort_corners_ccw in H5.
    eapply (for_each_inv _ (fun _ gc => Forall (Forall (fun c => -1 ≤ c))
                                          (corners_at_node gc))); [| |exact H5].
    - builder_inv H4. done.
    - intros pre x s1 s2 Hs Hb. by eapply sort_corners_at_entries. }
  builder_inv H. builder_inv H6. done.
Qed.

(** C5.  The area [setup_cells] stores for a cell is [ntri] times the
    area of the spherical triangle on the node and the first two corners of
    its row of [corners_at_node], with [ntri] 5 when a slot of the row holds
    the sentinel and 6 otherwise. *)
Theorem cell_areas r vs fs g :
  init r vs fs = Ok g →
  ∀ cell : nat, (cell < number_of_nodes g)%nat →
    ∃ p0 row c0 c1 p1 p2,
      coords_of_node g !! cell = Some p0 ∧
      corners_at_node g !! cell = Some row ∧
      row !! 0%nat = Some c0 ∧ row !! 1%nat = Some c1 ∧
      np.getitem (coords_of_corner g) c0 = Ok p1 ∧
      np.getitem (coords_of_corner g) c1 = Ok p2 ∧
      area_of_cell g !! cell
      = Some (fmul (of_int (if bool_decide (-1 ∈ row) then 5 else 6))
                (area_of_sphertri p0 p1 p2 (radius g))).
Proof.
  intros H cell Hcell. pose proof (init_corner_rows _ _ _ _ H) as Hrows.
  destruct (init_Ok _ _ _ _ H) as (g2 & g3 & g4 & g5 & g6 & _ & _ & _ & _ & _ & H6).
  destruct (setup_cells_areas _ _ H6) as [_ Ha].
  assert (number_of_nodes g = number_of_nodes g6 ∧
          coords_of_node g = coords_of_node g6 ∧
          corners_at_node g = corners_at_node g6 ∧
          coords_of_corner g = coords_of_corner g6 ∧ radius g = radius g6)
    as (En & Ecn & Ecan & Ecc & Er).
  { clear -H6. builder_inv H6. done. }
  rewrite En in Hcell. destruct (Ha cell Hcell) as (v & Hv & Hcv).
  destruct Hcv as (p0 & row & c0 & c1 & p1 & p2 & m & Hp0 & Hrow & Hc0 & Hc1
                   & Hp1 & Hp2 & Hm & ->).
  rewrite Ecn, Ecan, Ecc, Er. exists p0, row, c0, c1, p1, p2.
  do 6 (split; [done|]). rewrite Hv. do 3 f_equal. apply ntri_spec; [|done].
  rewrite Ecan in Hrows. rewrite Forall_forall in Hrows.
  by eapply Hrows, list_elem_of_lookup_2.
Qed.

End Init.

(** ** The reference argsort *)

Section Argsort.
Context {beyond_int64 : RowBeyondInt64}.
Context {F : Type} (lt : F -> F -> bool).
Hypothesis lt_asym : ∀ x y, lt x y = true → lt y x = false.

Lemma ascending_nondecreasing (l : list F) : ascending lt l → nondecreasing lt l.
Proof.
  induction l as [|x l IH]; intros H i a b Ha Hb; [done|].
  destruct l as [|y l].
  - destruct i; simpl in *; done.
  - destruct H as [Hxy H]. destruct i as [|i]; simpl in *.
    + by simplify_eq.
    + by eapply (IH H i).
Qed.

Lemma insert_key_perm (x : F * nat) (l : list (F * nat)) :
  insert_key lt x l ≡ₚ x :: l.
Proof.
  induction l as [|y l IH]; simpl; [done|].
  destruct (lt x.1 y.1); [done|]. rewrite IH. apply Permutation_swap.
Qed.

Lemma insert_key_ascending (x : F * nat) (l : list (F * nat)) :
  ascending lt l.*1 → ascending lt (insert_key lt x l).*1.
Proof.
  induction l as [|y l IH]; [done|]. intros H. simpl.
  destruct (lt x.1 y.1) eqn:E.
  - split; [by apply lt_asym | done].
  - destruct l as [|z l]; [done|].
    destruct H as [Hzy H]. specialize (IH H). simpl in IH |- *.
    destruct (lt x.1 z.1); by split.
Qed.

Lemma insertion_argsort_spec (a : list F) :
  is_argsort lt a (insertion_argsort lt a).
Proof.
  unfold insertion_argsort.
  set (ps := zip a (seq 0 (length a))).
  assert (foldl (fun acc x => insert_key lt x acc) [] ps ≡ₚ ps
          ∧ ascending lt (foldl (fun acc x => insert_key lt x acc) [] ps).*1)
    as [Hperm Hasc].
  { apply (foldl_inv _ (fun pre acc => acc ≡ₚ pre ∧ ascending lt acc.*1)).
    - done.
    - intros pre x acc [Hp Ha]. split; [|by apply insert_key_ascending].
      rewrite insert_key_perm, Hp. by rewrite Permutation_cons_append. }
  set (out := foldl _ [] ps) in *. split.
  - rewrite Hperm. unfold ps. rewrite snd_zip; [done|]. by rewrite length_seq.
  - exists out.*1. split; [|by apply ascending_nondecreasing].
    assert (Forall (fun p => a !! p.2 = Some p.1) out) as Hall.
    { rewrite Hperm. apply Forall_forall. intros [k i] [j Hj]%list_elem_of_lookup.
      apply lookup_zip_with_Some in Hj as (k' & i' & [= <- <-] & Hk & Hi).
      apply lookup_seq in Hi as [-> _]. done. }
    clear -Hall. induction Hall as [|p out Hp _ IH]; constructor; done.
Qed.

End Argsort.

Lemma Zltb_asym (x y : Z) : (x <? y) = true → (y <? x) = false.
Proof. lia. Qed.

Lemma Rltb_asym (x y : R) : Rltb x y = true → Rltb y x = false.
Proof.
  unfold Rltb. destruct (Rlt_dec x y), (Rlt_dec y x); try done. lra.
Qed.

(** ** setup_faces *)

Lemma register_edge_inv regs d (i : Z) (e : Z * Z) d' :
  dict_inv regs d → register_edge i d e = Ok d' →
  dict_inv (regs ++ [(i, edge_key e)]) d'.
Proof.
  intros Hinv H k. unfold register_edge in H. fold (edge_key e) in H.
  destruct (Hinv (edge_key e)) as [Hlen Hd].
  rewrite filter_app, fmap_app, length_app.
  destruct (decide (edge_key e = k)) as [<-|Hne].
  - rewrite (filter_cons_True _ (i, edge_key e)) by done. simpl.
    rewrite Hd in H.
    destruct (filter (fun r => r.2 = edge_key e) regs) as [|[p1 k1] [|[p2 k2] [|? ?]]];
      simpl in *; try done; try lia.
    + injection H as <-. split; [lia|]. by rewrite lookup_insert_eq.
    + injection H as <-. split; [lia|]. by rewrite lookup_insert_eq.
  - rewrite (filter_cons_False _ (i, edge_key e)) by (simpl; congruence).
    simpl. rewrite app_nil_r, Nat.add_0_r. destruct (Hinv k) as [Hlk Hdk].
    split; [done|]. rewrite <- Hdk.
    destruct (d !! edge_key e) as [[p1|? ?]|]; try done;
      injection H as <-; by rewrite lookup_insert_ne.
Qed.

Lemma register_edges_inv regs d (i : Z) (es : list (Z * Z)) d' :
  dict_inv regs d → for_each (register_edge i) es d = Ok d' →
  dict_inv (regs ++ ((fun e => (i, edge_key e)) <$> es)) d'.
Proof.
  intros Hinv H.
  apply (for_each_inv _ (fun pre d1 =>
           dict_inv (regs ++ ((fun e => (i, edge_key e)) <$> pre)) d1)) in H.
  - done.
  - by rewrite app_nil_r.
  - intros pre e d1 d2 H1 H2. rewrite fmap_app, app_assoc.
    by eapply register_edge_inv.
Qed.

Section Faces.
Context {beyond_int64 : RowBeyondInt64}.
Context {F : Type} `{!Numeric F, !ArcLength F}.
Implicit Types g : Graph F.


Lemma patches_at_node_pair_Ok g d :
  patches_at_node_pair g = Ok d →
  dict_inv (registrations g (seq 0 (number_of_patches g))) d.
Proof.
  unfold patches_at_node_pair. intros H.
  apply (for_each_inv _ (fun pre d1 => dict_inv (registrations g pre) d1)) in H.
  - done.
  - intros k. split; [simpl; lia | done].
  - intros pre i d1 d2 H1 H2. bind_inv H2 as t Ht.
    apply getitem_nat_Ok in Ht. unfold registrations.
    rewrite bind_app. simpl. rewrite Ht, app_nil_r.
    by eapply register_edges_inv.
Qed.


Lemma edge_key_pair (e e' : Z * Z) :
  edge_key e = edge_key e' ↔ same_pair e e'.
Proof.
  unfold edge_key, same_pair. destruct e as [a b], e' as [a' b']. simpl. split.
  - intros [= H1 H2]. lia.
  - intros [[-> ->]|[-> ->]]; [done|]. by rewrite Z.min_comm, Z.max_comm.
Qed.

(** Two different nodes of a triangle are the ends of one of its edges. *)
Lemma patch_edge_iff (t : Z * Z * Z) (a b : Z) :
  a ≠ b →
  edge_key (a, b) ∈ edge_key <$> patch_edges t ↔
  a ∈ [t.1.1; t.1.2; t.2] ∧ b ∈ [t.1.1; t.1.2; t.2].
Proof.
  intros Hab. destruct t as [[x y] z].
  change (edge_key <$> patch_edges (x, y, z))
    with [edge_key (z, x); edge_key (x, y); edge_key (y, z)].
  simpl. split.
  - intros He. set_unfold.
    destruct He as [H|[H|[H|[]]]]; apply edge_key_pair in H;
      unfold same_pair in H; simpl in H; lia.
  - intros [Ha Hb]. set_unfold.
    assert (same_pair (a, b) (z, x) ∨ same_pair (a, b) (x, y)
            ∨ same_pair (a, b) (y, z)) as Hs.
    { unfold same_pair. simpl. lia. }
    destruct Hs as [Hs|[Hs|Hs]]; apply edge_key_pair in Hs; auto.
Qed.

Lemma registrations_elem g (ps : list nat) (p : Z) (k : Z * Z) :
  (p, k) ∈ registrations g ps ↔
  ∃ (i : nat) t, i ∈ ps ∧ p = Z.of_nat i ∧ nodes_at_patch g !! i = Some t ∧
                 k ∈ edge_key <$> patch_edges t.
Proof.
  unfold registrations. rewrite list_elem_of_bind. split.
  - intros (i & Hin & Hi). destruct (nodes_at_patch g !! i) as [t|] eqn:E.
    + apply list_elem_of_fmap in Hin as (e & [= -> ->] & He).
      exists i, t. repeat split; try done. apply list_elem_of_fmap. eauto.
    + inversion Hin.
  - intros (i & t & Hi & -> & Ht & (e & -> & He)%list_elem_of_fmap).
    exists i. split; [|done]. rewrite Ht. apply list_elem_of_fmap. eauto.
Qed.

Lemma dict_two_patches g d (a b : Z) (lo hi : nat) c0 c1 :
  dict_inv (registrations g (seq 0 (number_of_patches g))) d →
  between g a b lo hi →
  d !! edge_key (a, b) = Some (Two c0 c1) →
  c0 = Z.of_nat lo ∧ c1 = Z.of_nat hi.
Proof.
  intros Hinv (Hab & Hlt & Hbet) Hd.
  destruct (Hinv (edge_key (a, b))) as [_ Hv]. rewrite Hd in Hv.
  set (owners := (filter (fun r => r.2 = edge_key (a, b))
                    (registrations g (seq 0 (number_of_patches g)))).*1) in *.
  assert (∀ p, p ∈ owners ↔
               ∃ i : nat, p = Z.of_nat i ∧ (i < number_of_patches g)%nat ∧
                          patch_has g a b i) as Hown.
  { intros p. unfold owners. rewrite list_elem_of_fmap. split.
    - intros ([p' k] & -> & [Hk Hr]%list_elem_of_filter). simpl in Hk. subst k.
      apply registrations_elem in Hr as (i & t & Hi & -> & Ht & He).
      apply elem_of_seq in Hi. exists i. do 2 (split; [done || lia|]).
      exists t. split; [done|]. by apply patch_edge_iff.
    - intros (i & -> & Hi & t & Ht & Hv').
      exists (Z.of_nat i, edge_key (a, b)). split; [done|].
      apply list_elem_of_filter. split; [done|].
      apply registrations_elem. exists i, t. repeat split; try done.
      + apply elem_of_seq. lia.
      + by apply patch_edge_iff. }
  assert (Z.of_nat lo ∈ owners) as Hlo.
  { apply Hown. exists lo. do 2 (split; [done || lia|]). apply Hbet; [lia | auto]. }
  assert (Z.of_nat hi ∈ owners) as Hhi.
  { apply Hown. exists hi. do 2 (split; [done || lia|]). apply Hbet; [lia | auto]. }
  destruct owners as [|i [|j [|? ?]]]; simpl in Hv; try done.
  injection Hv as -> ->. set_unfold. lia.
Qed.

(** What one pass of the loop of [setup_faces] stores for [face]. *)
Lemma face_body_Ok g d st (face : nat) st' :
  face_body g d st face = Ok st' →
  ∃ link cnr0 cnr1 c0 c1,
    nodes_at_link g !! face = Some link ∧
    d !! edge_key link = Some (Two cnr0 cnr1) ∧
    np.getitem (coords_of_corner g) cnr0 = Ok c0 ∧
    np.getitem (coords_of_corner g) cnr1 = Ok c1 ∧
    (face < length st.1)%nat ∧ (face < length st.2)%nat ∧
    st' = (<[face := (cnr0, cnr1)]> st.1,
           <[face := fmul (radius g) (arc_length c0 c1 (radius g))]> st.2).
Proof.
  unfold face_body. intros H. bind_inv H as link Hl.
  apply getitem_nat_Ok in Hl. fold (edge_key link) in H.
  destruct (d !! edge_key link) as [[?|cnr0 cnr1]|] eqn:Ed; try done.
  bind_inv H as caf Hcaf. bind_inv H as c0 Hc0. bind_inv H as c1 Hc1.
  bind_inv H as lof Hlof. injection H as <-.
  apply setitem_Ok in Hcaf as (k & [Hk [Hk'|Hk']]%index_Ok & ->); [|lia].
  assert (k = face) as -> by lia.
  apply setitem_Ok in Hlof as (k & [Hk2 [Hk2'|Hk2']]%index_Ok & ->); [|lia].
  assert (k = face) as -> by lia.
  by exists link, cnr0, cnr1, c0, c1.
Qed.

(** For a link that lies between exactly two patches, [setup_faces] stores
    the lower and the higher of the two as the corners of the face, and as
    its length the radius times the arc length between the coordinates of
    these corners, whatever the numbers and [arc_length] are. *)
Lemma setup_faces_between g g' :
  setup_faces g = Ok g' →
  number_of_faces g' = number_of_links g ∧
  ∀ (face : nat) link (lo hi : nat),
    (face < number_of_links g)%nat →
    nodes_at_link g !! face = Some link →
    between g link.1 link.2 lo hi →
    corners_at_face g' !! face = Some (Z.of_nat lo, Z.of_nat hi) ∧
    ∃ c0 c1, coords_of_corner g !! lo = Some c0 ∧
             coords_of_corner g !! hi = Some c1 ∧
             length_of_face g' !! face
             = Some (fmul (radius g) (arc_length c0 c1 (radius g))).
Proof.
  unfold setup_faces. intros H. bind_inv H as d Hd. bind_inv H as st Hst.
  injection H as <-. simpl. split; [done|].
  apply patches_at_node_pair_Ok in Hd.
  set (nf := number_of_links g) in *.
  apply (for_each_inv _ (fun pre s =>
    length s.1 = nf ∧ length s.2 = nf ∧
    ∀ face, face ∈ pre →
      ∃ link cnr0 cnr1 c0 c1,
        nodes_at_link g !! face = Some link ∧
        d !! edge_key link = Some (Two cnr0 cnr1) ∧
        np.getitem (coords_of_corner g) cnr0 = Ok c0 ∧
        np.getitem (coords_of_corner g) cnr1 = Ok c1 ∧
        s.1 !! face = Some (cnr0, cnr1) ∧
        s.2 !! face = Some (fmul (radius g) (arc_length c0 c1 (radius g)))))
    in Hst.
  - destruct Hst as (_ & _ & Hst). intros face link lo hi Hf Hl Hb.
    destruct (Hst face) as (link' & cnr0 & cnr1 & c0 & c1 & Hl' & Hk & Hc0 & Hc1 & H1 & H2).
    { apply elem_of_seq. lia. }
    assert (link' = link) as -> by congruence.
    assert (edge_key link = edge_key (link.1, link.2)) as E by by destruct link.
    rewrite E in Hk.
    destruct (dict_two_patches _ _ _ _ _ _ _ _ Hd Hb Hk) as [-> ->].
    split; [done|]. apply getitem_nat_Ok in Hc0, Hc1. by exists c0, c1.
  - simpl. rewrite !length_replicate. do 2 (split; [done|]).
    intros face Hf. inversion Hf.
  - intros pre x s1 s2 (Hl1 & Hl2 & IH) Hb.
    apply face_body_Ok in Hb
      as (link & cnr0 & cnr1 & c0 & c1 & Hl & Hk & Hc0 & Hc1 & Hx1 & Hx2 & ->).
    simpl. rewrite !length_insert. do 2 (split; [done|]).
    intros face [Hf| ->%list_elem_of_singleton]%elem_of_app.
    + destruct (decide (face = x)) as [->|Hne].
      * exists link, cnr0, cnr1, c0, c1.
        by rewrite !list_lookup_insert_eq by done.
      * rewrite !list_lookup_insert_ne by done. auto.
    + exists link, cnr0, cnr1, c0, c1.
      by rewrite !list_lookup_insert_eq by done.
Qed.

End Faces.

(** ** The pyramid *)

Section PyramidRuns.
Context {beyond_int64 : RowBeyondInt64}.
Context {F : Type} `{!Numeric F, !ArcLength F}.
Variables (r : F) (p0 p1 p2 p3 p4 : vec3 F).

Lemma pyramid_links_run :
  setup_links pyramid_faces (setup_nodes [p0; p1; p2; p3; p4] (new_graph r))
  = Ok (pyramid_links r p0 p1 p2 p3 p4).
Proof. vm_compute. reflexivity. Qed.

Lemma pyramid_patches_run :
  setup_patch_tables pyramid_faces (pyramid_links r p0 p1 p2 p3 p4)
  = Ok (pyramid_patches r p0 p1 p2 p3 p4).
Proof. vm_compute. reflexivity. Qed.

Lemma pyramid_corners_run :
  set_coords_of_corner (pyramid_patches r p0 p1 p2 p3 p4)
  = Ok (pyramid_corners r p0 p1 p2 p3 p4).
Proof. vm_compute. reflexivity. Qed.

Lemma pyramid_faces_run :
  setup_faces (pyramid_corners r p0 p1 p2 p3 p4)
  = Ok (pyramid_faces_built r p0 p1 p2 p3 p4).
Proof. vm_compute. reflexivity. Qed.


Lemma pyramid_link_2 :
  nodes_at_link (pyramid_corners r p0 p1 p2 p3 p4) !! 2%nat = Some (2, 0).
Proof. reflexivity. Qed.

Lemma pyramid_corner_0 :
  coords_of_corner (pyramid_corners r p0 p1 p2 p3 p4) !! 0%nat
  = Some (corner_of_patch r p0 p1 p2).
Proof. reflexivity. Qed.

Lemma pyramid_corner_1 :
  coords_of_corner (pyramid_corners r p0 p1 p2 p3 p4) !! 1%nat
  = Some (corner_of_patch r p0 p2 p3).
Proof. reflexivity. Qed.

Lemma pyramid_between_apex :
  between (pyramid_corners r p0 p1 p2 p3 p4) 2 0 0 1.
Proof.
  split; [done|]. split; [simpl; lia|]. simpl. intros i Hi. unfold patch_has.
  simpl. split.
  - intros (t & Ht & Ha & Hb).
    do 6 (destruct i as [|i]; [injection Ht as <-; set_unfold; simpl in *; lia|]).
    lia.
  - intros [-> | ->]; eexists; (split; [reflexivity|]); set_unfold; simpl; lia.
Qed.

End PyramidRuns.

(** ** set_coords_of_corner *)

Section Corners.
Context {beyond_int64 : RowBeyondInt64}.
Context {F : Type} `{!Numeric F}.
Implicit Types g : Graph F.

Lemma set_coords_of_corner_Ok g g' :
  set_coords_of_corner g = Ok g' →
  ∀ (k : nat) t, nodes_at_patch g !! k = Some t →
    ∃ p0 p1 p2,
      np.getitem (coords_of_node g) t.1.1 = Ok p0 ∧
      np.getitem (coords_of_node g) t.1.2 = Ok p1 ∧
      np.getitem (coords_of_node g) t.2 = Ok p2 ∧
      coords_of_corner g' !! k = Some (corner_of_patch (radius g) p0 p1 p2).
Proof.
  unfold set_coords_of_corner. intros H.
  bind_inv H as l0 H0. bind_inv H as l1 H1. bind_inv H as l2 H2.
  injection H as <-. simpl. intros k t Ht.
  apply take_ids_Ok in H0, H1, H2.
  apply Forall2_fmap_l in H0, H1, H2.
  destruct (Forall2_lookup_l _ _ _ _ _ H0 Ht) as (p0 & Hk0 & Hp0).
  destruct (Forall2_lookup_l _ _ _ _ _ H1 Ht) as (p1 & Hk1 & Hp1).
  destruct (Forall2_lookup_l _ _ _ _ _ H2 Ht) as (p2 & Hk2 & Hp2).
  exists p0, p1, p2. do 3 (split; [done|]).
  rewrite lookup_zip_with, Hk0. simpl.
  rewrite lookup_zip_with, Hk1. simpl. by rewrite Hk2.
Qed.

End Corners.

(** ** Corners over the real numbers *)

Section Reals.
Context {beyond_int64 : RowBeyondInt64}.
Local Open Scope R_scope.

Lemma veclen_R (c : vec3 R) :
  veclen c = sqrt (c.1.1 * c.1.1 + c.1.2 * c.1.2 + c.2 * c.2).
Proof. reflexivity. Qed.

Lemma veclen_pos (c : vec3 R) : c ≠ (0, 0, 0) → 0 < veclen c.
Proof.
  destruct c as [[x y] z]. intros Hc. rewrite veclen_R. simpl.
  apply sqrt_lt_R0.
  destruct (Req_dec x 0) as [->|Hx]; [|nra].
  destruct (Req_dec y 0) as [->|Hy]; [|nra].
  destruct (Req_dec z 0) as [->|Hz]; [done | nra].
Qed.

(** The corner of a patch is the radius times the unit normal. *)
Lemma corner_of_patch_R (r : R) (p0 p1 p2 : vec3 R) :
  let n := cross (vsub p1 p0) (vsub p2 p0) in
  corner_of_patch r p0 p1 p2
  = (r * (n.1.1 / veclen n), r * (n.1.2 / veclen n), r * (n.2 / veclen n)).
Proof.
  unfold corner_of_patch. cbv zeta.
  set (n := cross (vsub p1 p0) (vsub p2 p0)). set (l := veclen n).
  cbn. unfold Rdiv. f_equal; [f_equal|]; ring.
Qed.

Lemma scaled_norm (r : R) (n : vec3 R) :
  0 <= r → n ≠ (0, 0, 0) →
  veclen (r * (n.1.1 / veclen n), r * (n.1.2 / veclen n), r * (n.2 / veclen n))
  = r.
Proof.
  intros Hr Hn. pose proof (veclen_pos n Hn) as Hl.
  assert (veclen n * veclen n = n.1.1 * n.1.1 + n.1.2 * n.1.2 + n.2 * n.2) as Hsq.
  { rewrite veclen_R. apply sqrt_sqrt. nra. }
  remember (veclen n) as l eqn:El. clear El.
  destruct n as [[x y] z]. simpl in Hsq. rewrite veclen_R. simpl.
  replace (_ + _ + _) with (r * r).
  - by apply sqrt_square.
  - transitivity (r * r * (x * x + y * y + z * z) / (l * l)).
    + rewrite <- Hsq. field. lra.
    + field. lra.
Qed.

Lemma corner_norm (r : R) (p0 p1 p2 : vec3 R) :
  0 <= r → cross (vsub p1 p0) (vsub p2 p0) ≠ (0, 0, 0) →
  veclen (corner_of_patch r p0 p1 p2) = r.
Proof.
  intros Hr Hn. rewrite corner_of_patch_R. by apply scaled_norm.
Qed.

(** C9.  The corner of a patch is the radius times the normalised cross
    product of two sides of the patch, and it lies on the sphere of that
    radius. *)
Theorem corners_on_sphere (g g' : Graph R) (k : nat) (t : Z * Z * Z)
    (p0 p1 p2 : vec3 R) :
  set_coords_of_corner g = Ok g' →
  nodes_at_patch g !! k = Some t →
  np.getitem (coords_of_node g) t.1.1 = Ok p0 →
  np.getitem (coords_of_node g) t.1.2 = Ok p1 →
  np.getitem (coords_of_node g) t.2 = Ok p2 →
  let n := cross (vsub p1 p0) (vsub p2 p0) in
  ∃ c, coords_of_corner g' !! k = Some c ∧
       c = (radius g * (n.1.1 / veclen n), radius g * (n.1.2 / veclen n),
            radius g * (n.2 / veclen n)) ∧
       (0 <= radius g → n ≠ (0, 0, 0) → veclen c = radius g).
Proof.
  intros H Ht H0 H1 H2 n.
  destruct (set_coords_of_corner_Ok _ _ H k t Ht) as (q0 & q1 & q2 & E0 & E1 & E2 & Hc).
  assert (q0 = p0) as -> by congruence. assert (q1 = p1) as -> by congruence.
  assert (q2 = p2) as -> by congruence.
  eexists. split; [exact Hc|]. split; [apply corner_of_patch_R|].
  apply corner_norm.
Qed.


(** The square of the length of a vector. *)
Lemma veclen_dot (r : R) (p : vec3 R) : veclen p = r → dot p p = r * r.
Proof.
  intros <-. rewrite veclen_R. unfold dot. rewrite sqrt_sqrt; [done|]. nra.
Qed.

(** Two different points of a sphere about the origin. *)
Lemma dot_sphere (r : R) (p q : vec3 R) :
  dot p p = r * r → dot q q = r * r → p ≠ q → dot p q < r * r.
Proof.
  destruct p as [[x y] z], q as [[x' y'] z']. unfold dot. simpl.
  intros Hp Hq Hne.
  assert (∀ a b : R, 0 <= (a - b) * (a - b)) as Hsq
    by (intros; apply Rle_0_sqr).
  assert (∀ a b : R, a ≠ b → 0 < (a - b) * (a - b)) as Hpos.
  { intros a b Hab. destruct (Rtotal_order a b) as [?|[?|?]]; [|done|].
    - replace ((a - b) * (a - b)) with ((b - a) * (b - a)) by ring.
      apply Rmult_lt_0_compat; lra.
    - apply Rmult_lt_0_compat; lra. }
  pose proof (Hsq x x'). pose proof (Hsq y y'). pose proof (Hsq z z').
  destruct (Req_dec x x') as [->|Hx]; [|pose proof (Hpos x x' Hx); lra].
  destruct (Req_dec y y') as [->|Hy]; [|pose proof (Hpos y y' Hy); lra].
  destruct (Req_dec z z') as [->|Hz]; [done | pose proof (Hpos z z' Hz); lra].
Qed.

Lemma acos_pos (x : R) : x < 1 → 0 < acos x.
Proof.
  intros Hx. destruct (Rle_dec x (-1)) as [Hle|Hgt].
  - unfold acos. destruct (Rle_dec x (-1)); [apply PI_RGT_0 | done].
  - apply acos_bound_lt. lra.
Qed.

(** With [arc_length] the angle at the centre, the radius times the arc
    length between two different points of the sphere is positive. *)
Lemma face_length_positive (r : R) (p q : vec3 R) :
  0 < r → veclen p = r → veclen q = r → p ≠ q → 0 < r * arc_length p q r.
Proof.
  intros Hr Hp%veclen_dot Hq%veclen_dot Hne.
  apply Rmult_lt_0_compat; [done|].
  unfold arc_length, R_arc_length. apply acos_pos.
  pose proof (dot_sphere r p q Hp Hq Hne) as Hlt.
  assert (0 < r * r) as Hrr by nra.
  replace 1 with (r * r / (r * r)) by (field; lra).
  unfold Rdiv. apply Rmult_lt_compat_r; [by apply Rinv_0_lt_compat | done].
Qed.


End Reals.

(** ** The range of the angles over the real numbers *)

Section Angles.
Context {beyond_int64 : RowBeyondInt64}.
Local Open Scope R_scope.

Lemma Ratan2_range (y x : R) : - PI < Ratan2 y x <= PI.
Proof.
  pose proof PI_RGT_0 as Hpi. unfold Ratan2.
  destruct (Rlt_dec 0 x) as [Hx|Hx].
  { pose proof (atan_bound (y / x)). lra. }
  destruct (Rlt_dec x 0) as [Hx'|Hx'].
  - destruct (Rlt_dec y 0) as [Hy|Hy].
    + assert (0 < y / x) as Hq.
      { replace (y / x) with ((- y) / (- x)) by (field; lra).
        apply Rdiv_lt_0_compat; lra. }
      pose proof (atan_increasing _ _ Hq) as Hi. rewrite atan_0 in Hi.
      pose proof (atan_bound (y / x)). lra.
    + assert (y / x <= 0) as Hq.
      { replace (y / x) with (- (y / (- x))) by (field; lra).
        assert (0 <= y / - x); [|lra].
        apply Rle_mult_inv_pos; lra. }
      pose proof (atan_bound (y / x)).
      destruct Hq as [Hq| ->].
      * pose proof (atan_increasing _ _ Hq) as Hi. rewrite atan_0 in Hi. lra.
      * rewrite atan_0. lra.
  - destruct (Rlt_dec 0 y); [lra|]. destruct (Rlt_dec y 0); lra.
Qed.

(** Whatever the rotation, a corner's angle lies in [0, 2 pi). *)
Lemma corner_angle_range `{!RotateZY R} (phi theta : R) (c : vec3 R) :
  0 <= corner_angle phi theta c < 2 * PI.
Proof.
  unfold corner_angle. cbv zeta.
  set (rc := rotate_zy c.1.1 c.1.2 c.2 (fneg phi) (fneg theta)).
  change (arctan2 rc.1.2 rc.1.1) with (Ratan2 rc.1.2 rc.1.1).
  pose proof (Ratan2_range rc.1.2 rc.1.1) as Hr. pose proof PI_RGT_0.
  change (flt (Ratan2 rc.1.2 rc.1.1) f0) with (Rltb (Ratan2 rc.1.2 rc.1.1) 0).
  unfold Rltb. destruct (Rlt_dec _ 0).
  - change (fadd ?a two_pi) with (a + 2 * PI). lra.
  - lra.
Qed.

End Angles.

(** ** The builders on concrete meshes *)

Lemma pyramid_init : init 1000 pyramid_grid pyramid_faces = Ok pyramid_mesh.
Proof. vm_compute. reflexivity. Qed.

Lemma dual_index_space_witness :
  init 1000 pyramid_grid pyramid_faces = Ok pyramid_mesh ∧
  number_of_faces pyramid_mesh = number_of_links pyramid_mesh ∧
  number_of_cells pyramid_mesh = number_of_nodes pyramid_mesh ∧
  number_of_corners pyramid_mesh = number_of_patches pyramid_mesh.
Proof.
  split; [exact pyramid_init|].
  pose proof (dual_index_space 1000 pyramid_grid pyramid_faces pyramid_mesh
                pyramid_init) as (H1 & H2 & H3 & _).
  auto.
Defined.

Lemma area_of_patch_raises_witness :
  init 1000 pyramid_grid pyramid_faces = Ok pyramid_mesh ∧
  area_of_patch pyramid_mesh = Raise TypeError.
Proof.
  split; [exact pyramid_init|].
  exact (area_of_patch_raises 1000 pyramid_grid pyramid_faces pyramid_mesh
           pyramid_init).
Defined.

(** ** The docstrings *)

Lemma icosahedron_init :
  init 1000 icosahedron_grid icosahedron_faces = Ok icosahedron_mesh.
Proof. vm_compute. reflexivity. Qed.

(** The index tables shown in the docstrings of the module. *)
Example docstring_tables :
  number_of_nodes icosahedron_mesh = 12%nat ∧
  number_of_links icosahedron_mesh = 30%nat ∧
  number_of_corners icosahedron_mesh = 20%nat ∧
  number_of_patches icosahedron_mesh = 20%nat ∧
  nodes_at_link icosahedron_mesh !! 0%nat = Some (0, 11) ∧
  links_at_node icosahedron_mesh !! 0%nat = Some [0; 2; 4; 6; 8; -1] ∧
  nodes_at_patch icosahedron_mesh !! 0%nat = Some (0, 11, 5) ∧
  corners_at_face icosahedron_mesh !! 0%nat = Some (0, 4) ∧
  faces_at_cell icosahedron_mesh !! 0%nat = Some [0; 2; 4; 6; 8; -1].
Proof. repeat split. Qed.

(** Every node of the icosahedron has five links. *)
Example icosahedron_degrees :
  Forall (fun row => length (filter (fun x => x ≠ -1) row) = 5%nat)
    (links_at_node icosahedron_mesh).
Proof. repeat constructor. Qed.

(** ** The theorems on the pyramid *)

Lemma Zltb_distinct (l : list Z) : NoDup l → distinct_keys Z.ltb l.
Proof.
  intros Hnd i j x y Hij Hx Hy.
  assert (x ≠ y) as Hne.
  { intros ->. apply Hij. by eapply NoDup_lookup. }
  lia.
Qed.

Lemma pyramid_sort_run : sort_corners_ccw pyramid_unsorted = Ok pyramid_sorted.
Proof. vm_compute. reflexivity. Qed.

Lemma taxicab_argsort (a : list Z) : is_argsort flt a (argsort a).
Proof. apply insertion_argsort_spec, Zltb_asym. Qed.


Lemma pyramid_fits :
  Forall (fun '(a, b, c) => fits32 a ∧ fits32 b ∧ fits32 c) pyramid_faces.
Proof. repeat constructor; unfold fits32; lia. Qed.

Lemma one_link_per_pair_witness :
  Forall (fun '(a, b, c) => fits32 a ∧ fits32 b ∧ fits32 c) pyramid_faces ∧
  setup_links pyramid_faces (setup_nodes pyramid_grid (new_graph 1000))
  = Ok (pyramid_links 1000 (0, 0, 1) (1, 0, 0) (0, 1, 0) (-1, 0, 0) (0, -1, 0)) ∧
  number_of_links
    (pyramid_links 1000 (0, 0, 1) (1, 0, 0) (0, 1, 0) (-1, 0, 0) (0, -1, 0))
  = 9%nat.
Proof.
  split; [exact pyramid_fits|]. split; [apply pyramid_links_run|].
  destruct (one_link_per_pair pyramid_faces pyramid_fits) as (_ & _ & _ & H).
  destruct (H _ _ (pyramid_links_run 1000 (0, 0, 1) (1, 0, 0) (0, 1, 0)
                     (-1, 0, 0) (0, -1, 0))) as (_ & Hn & _).
  exact Hn.
Defined.

Lemma incident_links_witness :
  setup_links pyramid_faces (setup_nodes pyramid_grid (new_graph 1000))
  = Ok (pyramid_links 1000 (0, 0, 1) (1, 0, 0) (0, 1, 0) (-1, 0, 0) (0, -1, 0)) ∧
  sum_list (degree 5 [(0, 1); (1, 2); (2, 0); (2, 3); (3, 0); (3, 4); (4, 0);
                      (4, 1); (1, 3)] <$> seq 0 5) = 18%nat.
Proof.
  split; [apply pyramid_links_run|].
  destruct (incident_links pyramid_faces _ _
              (pyramid_links_run 1000 (0, 0, 1) (1, 0, 0) (0, 1, 0) (-1, 0, 0)
                 (0, -1, 0))) as (_ & _ & H).
  exact H.
Defined.

Lemma link_dirs_padding_witness :
  setup_links pyramid_faces (setup_nodes pyramid_grid (new_graph 1000))
  = Ok (pyramid_links 1000 (0, 0, 1) (1, 0, 0) (0, 1, 0) (-1, 0, 0) (0, -1, 0)) ∧
  ∃ dirs,
    link_dirs_at_node
      (pyramid_links 1000 (0, 0, 1) (1, 0, 0) (0, 1, 0) (-1, 0, 0) (0, -1, 0))
      !! 2%nat = Some dirs ∧
    length (filter (fun d => d ≠ 0) dirs) = 3%nat ∧
    length (filter (fun d => d ≠ -1) dirs) = 4%nat.
Proof.
  split; [apply pyramid_links_run|].
  destruct (link_dirs_padding pyramid_faces _ _
              (pyramid_links_run 1000 (0, 0, 1) (1, 0, 0) (0, 1, 0) (-1, 0, 0)
                 (0, -1, 0)) 2%nat)
    as (row & dirs & _ & Hd & _ & _ & _ & H0 & H1); [simpl; lia|].
  exists dirs. split; [exact Hd|]. split; [exact H0 | exact H1].
Defined.

Lemma cell_areas_witness :
  init 1000 pyramid_grid pyramid_faces = Ok pyramid_mesh ∧
  ∃ a, area_of_cell pyramid_mesh !! 0%nat = Some a.
Proof.
  split; [exact pyramid_init|].
  destruct (cell_areas 1000 pyramid_grid pyramid_faces pyramid_mesh
              pyramid_init 0%nat) as (? & ? & ? & ? & ? & ? & _ & _ & _ & _ & _ & _ & H).
  - simpl. lia.
  - eexists. exact H.
Defined.

Section RealWitness.
Local Open Scope R_scope.

Lemma corners_on_sphere_witness :
  ∃ c, coords_of_corner
         (pyramid_corners 1 (0, 0, 1) (1, 0, 0) (0, 1, 0) (-1, 0, 0) (0, -1, 0))
         !! 4%nat = Some c ∧ veclen c = 1.
Proof.
  destruct (corners_on_sphere
              (pyramid_patches 1 (0, 0, 1) (1, 0, 0) (0, 1, 0) (-1, 0, 0) (0, -1, 0))
              _ 4%nat (1, 3, 2)%Z (1, 0, 0) (-1, 0, 0) (0, 1, 0)
              (pyramid_corners_run _ _ _ _ _ _))
    as (c & Hc & _ & Hn); try reflexivity.
  exists c. split; [exact Hc|]. apply Hn.
  - simpl. lra.
  - intros [= _ _ H]. cbn in H. lra.
Defined.


End RealWitness.

(** * When the builders return

    The theorems above say what a builder leaves when it returns.  The ones
    below say when it returns, and which exception it raises when it does
    not. *)

(** ** Loops *)

(** The rule of a loop that may raise: [P] relates the items visited to
    the state, and [Q] holds of the exception of a body that raises. *)
Lemma for_each_cases {S B} (body : S -> B -> result S)
    (P : list B -> S -> Prop) (Q : exn -> Prop) (l : list B) (s : S) :
  P [] s →
  (∀ pre x post s1, l = pre ++ x :: post → P pre s1 →
     match body s1 x with Ok s2 => P (pre ++ [x]) s2 | Raise e => Q e end) →
  match for_each body l s with Ok s' => P l s' | Raise e => Q e end.
Proof.
  intros H0 Hstep.
  cut (∀ post pre s1, l = pre ++ post → P pre s1 →
         match for_each body post s1 with Ok s' => P l s' | Raise e => Q e end).
  { intros H. by apply (H l [] s). }
  induction post as [|x post IH]; intros pre s1 El HP; simpl.
  - by rewrite El, app_nil_r.
  - specialize (Hstep pre x post s1 El HP).
    destruct (body s1 x) as [s2|e]; simpl; [|done].
    apply (IH (pre ++ [x])); [|done]. by rewrite <- app_assoc.
Qed.

(** A loop whose body returns whenever the invariant holds returns. *)
Lemma for_each_total {S B} (body : S -> B -> result S)
    (P : list B -> S -> Prop) (l : list B) (s : S) :
  P [] s →
  (∀ pre x post s1, l = pre ++ x :: post → P pre s1 →
     ∃ s2, body s1 x = Ok s2 ∧ P (pre ++ [x]) s2) →
  ∃ s', for_each body l s = Ok s' ∧ P l s'.
Proof.
  intros H0 Hstep.
  pose proof (for_each_cases body P (fun _ => False) l s H0) as H.
  destruct (for_each body l s) as [s'|e].
  - exists s'. split; [done|]. apply H. intros pre x post s1 El HP.
    destruct (Hstep pre x post s1 El HP) as (s2 & -> & HP2). done.
  - exfalso. apply H. intros pre x post s1 El HP.
    destruct (Hstep pre x post s1 El HP) as (s2 & -> & HP2). done.
Qed.

Lemma seq_item (n : nat) (pre : list nat) (x : nat) (post : list nat) :
  seq 0 n = pre ++ x :: post → (x < n)%nat.
Proof.
  intros El. assert (x ∈ seq 0 n) as Hin.
  { rewrite El. apply elem_of_app. right. by left. }
  apply elem_of_seq in Hin. lia.
Qed.

(** ** Indices *)

Lemma valid_index_Ok (n : nat) (v : Z) :
  valid_index n v ↔ ∃ k, np.index n v = Ok k.
Proof.
  unfold valid_index. split.
  - intros H. destruct (decide (0 ≤ v)).
    + exists (Z.to_nat v). apply index_Ok. lia.
    + exists (Z.to_nat (v + Z.of_nat n)). apply index_Ok. lia.
  - intros [k [? ?]%index_Ok]. lia.
Qed.

Lemma getitem_valid {A} (a : list A) (i : Z) :
  valid_index (length a) i → ∃ x, np.getitem a i = Ok x.
Proof.
  intros [k Hk]%valid_index_Ok.
  destruct (lookup_lt_is_Some_2 a k) as [x Hx].
  { by apply index_Ok in Hk as [? _]. }
  exists x. apply getitem_Ok. eauto.
Qed.

Lemma take_ids_total {A} (a : list A) (ids : list Z) :
  Forall (valid_index (length a)) ids →
  ∃ out, np.take_ids a ids = Ok out ∧ length out = length ids.
Proof.
  induction 1 as [|i ids [x Hx]%getitem_valid _ (out & IH & Hlen)].
  - by exists [].
  - exists (x :: out). split; [|simpl; by rewrite Hlen].
    unfold np.take_ids in *. simpl. rewrite Hx, ret_bind; cbv beta.
    by rewrite IH.
Qed.

Lemma take_ids_valid {A} (a : list A) (ids : list Z) (out : list A) :
  np.take_ids a ids = Ok out → Forall (valid_index (length a)) ids.
Proof.
  intros H%take_ids_Ok. induction H as [|i x ids out Hi _ IH]; constructor; [|done].
  apply getitem_Ok in Hi as (k & Hk & _). apply valid_index_Ok. eauto.
Qed.

Lemma take_ids_Raise {A} (a : list A) (ids : list Z) e :
  np.take_ids a ids = Raise e → e = IndexError.
Proof.
  unfold np.take_ids. induction ids as [|i ids IH]; simpl; [done|].
  intros [H|(x & _ & [H|(ys & _ & H)]%bind_Raise)]%bind_Raise.
  - by eapply getitem_Raise.
  - by apply IH.
  - done.
Qed.

(** ** setup_links returns *)

Lemma attach_link_total n inc (v i dir : Z) lan dirs ix kv :
  node_slots n inc lan dirs ix → np.index n v = Ok kv →
  (length (inc kv) < 6)%nat →
  ∃ out, attach_link v i dir lan dirs ix = Ok out.
Proof.
  intros (Hl & Hd & Hx & Hrows) Hkv Hlt.
  assert (kv < n)%nat as Hn by by apply index_Ok in Hkv as [? _].
  destruct (Hrows kv Hn) as (_ & Hrow & Hdrow & Hc).
  unfold attach_link.
  assert (np.getitem ix v = Ok (Z.of_nat (length (inc kv)))) as Hget.
  { apply getitem_Ok. exists kv. by rewrite Hx. }
  rewrite Hget, ret_bind; cbv beta.
  assert (∃ lan', np.setitem2 lan v (Z.of_nat (length (inc kv))) i = Ok lan')
    as [lan' ->].
  { eexists. apply setitem2_Ok. eexists kv, _, (length (inc kv)).
    rewrite Hl. split; [done|]. split; [exact Hrow|]. split; [|done].
    apply index_nat. rewrite length_app, length_fmap, length_replicate. lia. }
  rewrite !ret_bind; cbv beta.
  assert (∃ dirs', np.setitem2 dirs v (Z.of_nat (length (inc kv))) dir = Ok dirs')
    as [dirs' ->].
  { eexists. apply setitem2_Ok. eexists kv, _, (length (inc kv)).
    rewrite Hd. split; [done|]. split; [exact Hdrow|]. split; [|done].
    apply index_nat. rewrite length_app, length_fmap, length_replicate. lia. }
  rewrite !ret_bind; cbv beta.
  assert (∃ ix', np.setitem ix v (Z.of_nat (length (inc kv)) + 1) = Ok ix')
    as [ix' ->].
  { eexists. apply setitem_Ok. exists kv. by rewrite Hx. }
  rewrite ret_bind; cbv beta. eauto.
Qed.

Lemma degree_prefix n (pre post : list (Z * Z)) k :
  (degree n pre k ≤ degree n (pre ++ post) k)%nat.
Proof.
  unfold degree, incidences. rewrite imap_app, join_app, length_app. lia.
Qed.

Section LinksReturn.
Context {beyond_int64 : RowBeyondInt64}.
Context {F : Type} `{!Numeric F, !ArcLength F}.
Implicit Types g : Graph F.

Lemma link_body_total n rows total (r : F) coords pre t link :
  link_loop_inv n rows total r coords pre t →
  length coords = n →
  (length pre < rows)%nat → (length pre < total)%nat →
  valid_index n link.1 → valid_index n link.2 →
  np.is_int64 link.1 → np.is_int64 link.2 →
  (∀ k, (k < n)%nat → (degree n (pre ++ [link]) k ≤ 6)%nat) →
  ∃ t', link_body r coords t link = Ok t'.
Proof.
  intros (Hi & Hslots & Hnal & Hrows & Hlen & Htot & Hlens & Hvalid)
    Hcoords Hr Ht [kt Hkt]%valid_index_Ok [kh Hkh]%valid_index_Ok
    Hfit1 Hfit2 Hdeg.
  assert (kt < n)%nat as Hktn by by apply index_Ok in Hkt as [? _].
  assert (kh < n)%nat as Hkhn by by apply index_Ok in Hkh as [? _].
  unfold link_body. destruct link as [tl hd]. simpl in *. rewrite Hi.
  assert (length (lt_nodes_at_link t) = rows) as Hnl.
  { rewrite Hnal, length_app, length_replicate. lia. }
  destruct (lookup_lt_is_Some_2 (lt_nodes_at_link t) (length pre)) as [row Erow];
    [lia|].
  rewrite (getitem_nat _ _ _ Erow), ret_bind; cbv beta.
  rewrite (as_int64_fits tl Hfit1), ret_bind; cbv beta.
  assert (np.setitem (lt_nodes_at_link t) (Z.of_nat (length pre)) (tl, row.2)
          = Ok (<[length pre := (tl, row.2)]> (lt_nodes_at_link t))) as ->.
  { apply setitem_Ok. exists (length pre). split; [|done]. apply index_nat. lia. }
  rewrite ret_bind; cbv beta.
  pose proof (Hdeg kt Hktn) as Hdt. pose proof (Hdeg kh Hkhn) as Hdh.
  unfold degree in Hdt, Hdh. rewrite incidences_snoc, length_app in Hdt, Hdh.
  unfold link_ends in Hdt, Hdh. simpl in Hdt, Hdh.
  rewrite length_app in Hdt, Hdh.
  rewrite (decide_True _ _ Hkt) in Hdt. rewrite (decide_True _ _ Hkh) in Hdh.
  simpl in Hdt, Hdh.
  destruct (attach_link_total _ _ tl (Z.of_nat (length pre)) (-1) _ _ _ kt
              Hslots Hkt) as [[[lan1 dirs1] ix1] E1]; [lia|].
  rewrite E1, ret_bind; cbv beta iota.
  destruct (attach_link_Ok _ _ _ _ _ _ _ _ _ _ _ Hslots E1) as (kt' & Hkt' & Hs1).
  assert (kt' = kt) as -> by congruence.
  assert (<[length pre := (tl, row.2)]> (lt_nodes_at_link t) !! length pre
          = Some (tl, row.2)) as Erow' by (apply list_lookup_insert_eq; lia).
  rewrite (getitem_nat _ _ _ Erow'), ret_bind; cbv beta.
  rewrite (as_int64_fits hd Hfit2), ret_bind; cbv beta.
  assert (∀ x, np.setitem (<[length pre := (tl, row.2)]> (lt_nodes_at_link t))
            (Z.of_nat (length pre)) x
          = Ok (<[length pre := x]> (<[length pre := (tl, row.2)]> (lt_nodes_at_link t))))
    as Eset.
  { intros x. apply setitem_Ok. exists (length pre). split; [|done].
    apply index_nat. rewrite length_insert. lia. }
  rewrite Eset, ret_bind; cbv beta.
  destruct (attach_link_total _ _ hd (Z.of_nat (length pre)) 1 _ _ _ kh
              Hs1 Hkh) as [[[lan2 dirs2] ix2] E2].
  { simpl. destruct (decide (kh = kt)) as [->|Hne].
    - rewrite length_app. simpl.
      rewrite decide_True in Hdh by done. simpl in Hdh. lia.
    - destruct (decide (np.index n tl = Ok kh)); [congruence|]. simpl in Hdh. lia. }
  rewrite E2, ret_bind; cbv beta iota.
  assert (∃ p, np.getitem coords tl = Ok p) as [p ->].
  { apply getitem_valid, valid_index_Ok. exists kt. by rewrite Hcoords. }
  rewrite ret_bind; cbv beta.
  assert (∃ q, np.getitem coords hd = Ok q) as [q ->].
  { apply getitem_valid, valid_index_Ok. exists kh. by rewrite Hcoords. }
  rewrite ret_bind; cbv beta.
  assert (∀ x, ∃ len, np.setitem (lt_length_of_link t) (Z.of_nat (length pre)) x
                      = Ok len) as Elen.
  { intros x. eexists. apply setitem_Ok. exists (length pre). split; [|done].
    apply index_nat. lia. }
  destruct (Elen (fmul r (arc_length p q r))) as [len ->].
  rewrite ret_bind; cbv beta. eauto.
Qed.

Lemma link_loop_init n rows total (r : F) coords :
  link_loop_inv n rows total r coords []
    {| lt_i := 0; lt_nodes_at_link := replicate rows (0, 0);
       lt_links_at_node := np.full2 n 6 (-1);
       lt_link_dirs_at_node := np.full2 n 6 0;
       lt_link_at_node_index := replicate n 0;
       lt_length_of_link := replicate total f0 |}.
Proof.
  unfold link_loop_inv. simpl. split; [done|]. split.
  { unfold node_slots, np.full2. rewrite !length_replicate.
    do 3 (split; [done|]). intros k Hk. simpl.
    rewrite !lookup_replicate_2 by done. split; [lia | done]. }
  rewrite Nat.sub_0_r, length_replicate.
  repeat split; [lia | lia | | constructor].
  intros i l Hil. inversion Hil.
Qed.

Lemma setup_links_total fs g :
  length (coords_of_node g) = number_of_nodes g →
  (length (register_links fs).*2 ≤ 3 * length fs / 2)%nat →
  Forall (fun l => valid_index (number_of_nodes g) l.1 ∧
                   valid_index (number_of_nodes g) l.2) (register_links fs).*2 →
  Forall (fun l => np.is_int64 l.1 ∧ np.is_int64 l.2) (register_links fs).*2 →
  (∀ k, (k < number_of_nodes g)%nat →
        (degree (number_of_nodes g) (register_links fs).*2 k ≤ 6)%nat) →
  ∃ g', setup_links fs g = Ok g'.
Proof.
  intros Hc Hrows Hvalid Hfits Hdeg. unfold setup_links. cbv zeta.
  set (n := number_of_nodes g) in *. set (ls := (register_links fs).*2) in *.
  edestruct (for_each_total (link_body (radius g) (coords_of_node g))
    (link_loop_inv n (3 * length fs / 2) (length (register_links fs))
       (radius g) (coords_of_node g)) ls) as (t & -> & _);
    [apply link_loop_init | | by eexists].
  intros pre x post t1 El Hinv.
  assert (length ls = length pre + S (length post))%nat as Hlen.
  { rewrite El, length_app. done. }
  assert (length (register_links fs) = length ls) as Hll
    by (unfold ls; by rewrite length_fmap).
  rewrite Forall_forall in Hvalid, Hfits.
  destruct (Hvalid x) as [Hv1 Hv2].
  { rewrite El. apply elem_of_app. right. by left. }
  destruct (Hfits x) as [Hf1 Hf2].
  { rewrite El. apply elem_of_app. right. by left. }
  destruct (link_body_total n (3 * length fs / 2) (length (register_links fs))
              (radius g) (coords_of_node g) pre t1 x) as [t2 Ht2];
    try done; try lia.
  - intros k Hk. etrans; [|apply (Hdeg k Hk)].
    rewrite El. replace (pre ++ x :: post) with ((pre ++ [x]) ++ post)
      by by rewrite <- app_assoc.
    apply degree_prefix.
  - exists t2. split; [done|]. by eapply link_body_inv.
Qed.

Lemma setup_links_needs fs g g' :
  setup_links fs g = Ok g' →
  (length (register_links fs).*2 ≤ 3 * length fs / 2)%nat ∧
  Forall (fun l => valid_index (number_of_nodes g) l.1 ∧
                   valid_index (number_of_nodes g) l.2) (register_links fs).*2 ∧
  (∀ k, (k < number_of_nodes g)%nat →
        (degree (number_of_nodes g) (register_links fs).*2 k ≤ 6)%nat).
Proof.
  intros (Hl & _ & _ & t & Hinv & _)%setup_links_Ok. rewrite Hl in Hinv.
  destruct Hinv as (_ & (_ & _ & _ & Hslots) & _ & Hrows & _ & _ & _ & Hvalid).
  split; [done|]. split.
  - eapply Forall_impl; [exact Hvalid|]. intros l (kt & kh & Ht & Hh).
    split; apply valid_index_Ok; eauto.
  - intros k Hk. by destruct (Hslots k Hk) as [? _].
Qed.

Lemma link_body_int64 (r : F) coords t link t' :
  link_body r coords t link = Ok t' → np.is_int64 link.1 ∧ np.is_int64 link.2.
Proof.
  unfold link_body. intros H. bind_inv H as row Hrow. bind_inv H as tl Htl.
  apply as_int64_Ok in Htl as [Hfit1 ->]. bind_inv H as nal1 Hnal1.
  bind_inv H as [[lan1 dirs1] ix1] Ht.
  bind_inv H as row' Hrow'. bind_inv H as hd Hhd.
  by apply as_int64_Ok in Hhd as [Hfit2 _].
Qed.

(** The ends of the links are stored in an array of [int]. *)
Lemma setup_links_int64 fs g g' :
  setup_links fs g = Ok g' →
  Forall (fun l => np.is_int64 l.1 ∧ np.is_int64 l.2) (register_links fs).*2.
Proof.
  unfold setup_links. intros H. bind_inv H as t Ht.
  eapply (for_each_inv _ (fun pre _ =>
    Forall (fun l => np.is_int64 l.1 ∧ np.is_int64 l.2) pre)); [| |exact Ht].
  - constructor.
  - intros pre x s1 s2 Hpre Hb%link_body_int64.
    apply Forall_app. split; [done|]. by constructor.
Qed.

(** The shape of the tables that [setup_links] leaves. *)
Lemma setup_links_rows fs g g' :
  setup_links fs g = Ok g' →
  nodes_at_link g'
  = (register_links fs).*2
    ++ replicate (3 * length fs / 2 - length (register_links fs).*2) (0, 0) ∧
  number_of_links g' = length (register_links fs).*2 ∧
  length (length_of_link g') = number_of_links g' ∧
  length (links_at_node g') = number_of_nodes g ∧
  length (link_dirs_at_node g') = number_of_nodes g.
Proof.
  intros (Hl & Hn & _ & t & Hinv & Hnal & Hlan & Hdirs & Hlol)%setup_links_Ok.
  rewrite Hl in Hinv, Hn.
  destruct Hinv as (_ & (Hl1 & Hl2 & _) & Hrows & Hle & Hlen & _).
  rewrite ?length_fmap in *.
  rewrite Hnal, Hrows, Hlol, Hlan, Hdirs, Hn. done.
Qed.

(** X1.  [setup_links] returns exactly when the triangles give no more
    links than the [int(1.5 * len(ico_faces))] rows of [nodes_at_link], every
    end of a link is an index of a node and fits the 64 bits of the array
    [nodes_at_link] that stores it, and no node has more than the six link
    ends its rows can hold.  It raises [IndexError], or [OverflowError], and
    this only when an end of a link is beyond 64 bits. *)
Theorem setup_links_returns fs g :
  length (coords_of_node g) = number_of_nodes g →
  let n := number_of_nodes g in
  let ls := (register_links fs).*2 in
  ((∃ g', setup_links fs g = Ok g') ↔
   (length ls ≤ 3 * length fs / 2)%nat ∧
   Forall (fun l => valid_index n l.1 ∧ valid_index n l.2) ls ∧
   Forall (fun l => np.is_int64 l.1 ∧ np.is_int64 l.2) ls ∧
   ∀ k, (k < n)%nat → (degree n ls k ≤ 6)%nat) ∧
  ∀ e, setup_links fs g = Raise e →
    e = IndexError ∨
    (e = OverflowError ∧
     ∃ l, l ∈ ls ∧ (¬ np.is_int64 l.1 ∨ ¬ np.is_int64 l.2)).
Proof.
  intros Hc n ls. split; [split|].
  - intros [g' H]. destruct (setup_links_needs _ _ _ H) as (H1 & H2 & H3).
    do 2 (split; [done|]). split; [by eapply setup_links_int64 | done].
  - intros (H1 & H2 & H3 & H4). by apply setup_links_total.
  - intros e. apply setup_links_Raise.
Qed.

(** X2.  [nodes_at_link] keeps the [int(1.5 * len(ico_faces))] rows it
    is created with: the first [number_of_links] rows hold the links, the
    others stay [(0, 0)], and the views [node_at_link_tail] and
    [node_at_link_head] have as many entries; [length_of_link] has one entry
    for each link. *)
Theorem nodes_at_link_rows fs g g' :
  setup_links fs g = Ok g' →
  let ls := (register_links fs).*2 in
  let spare := (3 * length fs / 2 - length ls)%nat in
  nodes_at_link g' = ls ++ replicate spare (0, 0) ∧
  node_at_link_tail g' = ls.*1 ++ replicate spare 0 ∧
  node_at_link_head g' = ls.*2 ++ replicate spare 0 ∧
  length (nodes_at_link g') = (3 * length fs / 2)%nat ∧
  number_of_links g' = length ls ∧
  length (length_of_link g') = number_of_links g'.
Proof.
  intros H. pose proof (setup_links_needs _ _ _ H) as (Hle & _).
  destruct (setup_links_rows _ _ _ H) as (Hnal & Hn & Hlol & _).
  cbv zeta. unfold node_at_link_tail, node_at_link_head.
  rewrite Hnal, !fmap_app, !fmap_replicate, length_app, length_replicate.
  repeat split; try done. lia.
Qed.

End LinksReturn.

(** ** setup_patches_and_corners returns *)

Lemma attach_corner_total n inc (p : Z) st (v : Z) kv :
  corner_slots n inc st.1 st.2 → np.index n v = Ok kv →
  (length (inc kv) < 6)%nat →
  ∃ st', attach_corner p st v = Ok st'.
Proof.
  destruct st as [can ix]. simpl. intros (Hl & Hx & Hrows) Hkv Hlt.
  assert (kv < n)%nat as Hn by by apply index_Ok in Hkv as [? _].
  destruct (Hrows kv Hn) as (_ & Hrow & Hc).
  unfold attach_corner. simpl.
  assert (np.getitem ix v = Ok (Z.of_nat (length (inc kv)))) as Hget.
  { apply getitem_Ok. exists kv. by rewrite Hx. }
  rewrite Hget, ret_bind; cbv beta.
  assert (∃ can', np.setitem2 can v (Z.of_nat (length (inc kv))) p = Ok can')
    as [can' ->].
  { eexists. apply setitem2_Ok. eexists kv, _, (length (inc kv)).
    rewrite Hl. split; [done|]. split; [exact Hrow|]. split; [|done].
    apply index_nat. rewrite length_app, length_replicate. lia. }
  rewrite !ret_bind; cbv beta.
  assert (∃ ix', np.setitem ix v (Z.of_nat (length (inc kv)) + 1) = Ok ix')
    as [ix' ->].
  { eexists. apply setitem_Ok. exists kv. by rewrite Hx. }
  rewrite ret_bind; cbv beta. eauto.
Qed.

Lemma patch_ends_index n k (p : nat) (a b c : Z) ka kb kc :
  np.index n a = Ok ka → np.index n b = Ok kb → np.index n c = Ok kc →
  patch_ends n k p (a, b, c)
  = (if decide (k = ka) then [Z.of_nat p] else []) ++
    (if decide (k = kb) then [Z.of_nat p] else []) ++
    (if decide (k = kc) then [Z.of_nat p] else []).
Proof.
  intros Ha Hb Hc. unfold patch_ends. simpl. rewrite Ha, Hb, Hc, app_nil_r.
  repeat case_decide; simplify_eq; done.
Qed.

(** One patch: its number is appended to the rows of its three nodes. *)
Lemma attach_patch_exact n inc st (p : nat) (t : Z * Z * Z) st' :
  corner_slots n inc st.1 st.2 →
  attach_patch st (p, t) = Ok st' →
  corner_slots n (fun k => inc k ++ patch_ends n k p t) st'.1 st'.2.
Proof.
  destruct t as [[a b] c]. intros Hs H. unfold attach_patch in H. simpl in H.
  bind_inv H as st1 H1. bind_inv H as st2 H2. bind_inv H as st3 H3.
  injection H as <-.
  destruct (attach_corner_Ok _ _ _ _ _ _ Hs H1) as (ka & Ha & Hs1).
  destruct (attach_corner_Ok _ _ _ _ _ _ Hs1 H2) as (kb & Hb & Hs2).
  destruct (attach_corner_Ok _ _ _ _ _ _ Hs2 H3) as (kc & Hc & Hs3).
  eapply corner_slots_ext; [|exact Hs3]. intros k. simpl.
  rewrite (patch_ends_index n k p a b c ka kb kc) by done.
  repeat case_decide; simplify_eq; rewrite <- ?app_assoc, ?app_nil_r; done.
Qed.

Lemma attach_patch_total n inc st (p : nat) (t : Z * Z * Z) :
  corner_slots n inc st.1 st.2 → valid_triangle n t →
  (∀ k, (k < n)%nat → (length (inc k ++ patch_ends n k p t) ≤ 6)%nat) →
  ∃ st', attach_patch st (p, t) = Ok st'.
Proof.
  destruct t as [[a b] c]. unfold valid_triangle. simpl.
  intros Hs ([ka Ha]%valid_index_Ok & [kb Hb]%valid_index_Ok
             & [kc Hc]%valid_index_Ok) Hle.
  assert (ka < n)%nat as Hka by by apply index_Ok in Ha as [? _].
  assert (kb < n)%nat as Hkb by by apply index_Ok in Hb as [? _].
  assert (kc < n)%nat as Hkc by by apply index_Ok in Hc as [? _].
  pose proof (Hle ka Hka) as La. pose proof (Hle kb Hkb) as Lb.
  pose proof (Hle kc Hkc) as Lc.
  rewrite (patch_ends_index n ka p a b c ka kb kc) in La by done.
  rewrite (patch_ends_index n kb p a b c ka kb kc) in Lb by done.
  rewrite (patch_ends_index n kc p a b c ka kb kc) in Lc by done.
  rewrite !length_app in La, Lb, Lc.
  unfold attach_patch. simpl.
  destruct (attach_corner_total n inc (Z.of_nat p) st a ka Hs Ha) as [st1 E1].
  { destruct (decide (ka = ka)); [simpl in La; lia | done]. }
  rewrite E1, ret_bind; cbv beta.
  destruct (attach_corner_Ok _ _ _ _ _ _ Hs E1) as (ka' & Ha' & Hs1).
  assert (ka' = ka) as -> by congruence.
  destruct (attach_corner_total n _ (Z.of_nat p) st1 b kb Hs1 Hb) as [st2 E2].
  { simpl. clear La Lc. destruct (decide (kb = kb)); [|done].
    destruct (decide (kb = ka)); rewrite ?length_app; simpl in *; lia. }
  rewrite E2, ret_bind; cbv beta.
  destruct (attach_corner_Ok _ _ _ _ _ _ Hs1 E2) as (kb' & Hb' & Hs2).
  assert (kb' = kb) as -> by congruence.
  destruct (attach_corner_total n _ (Z.of_nat p) st2 c kc Hs2 Hc) as [st3 E3].
  { simpl. clear La Lb. destruct (decide (kc = kc)); [|done].
    destruct (decide (kc = ka)), (decide (kc = kb));
      rewrite ?length_app; simpl in *; lia. }
  rewrite E3, ret_bind; cbv beta. eauto.
Qed.

Lemma corners_of_node_snoc n fs t k :
  corners_of_node n (fs ++ [t]) k
  = corners_of_node n fs k ++ patch_ends n k (length fs) t.
Proof.
  unfold corners_of_node. rewrite imap_app, join_app. simpl.
  by rewrite app_nil_r, Nat.add_0_r.
Qed.

Lemma corners_of_node_prefix n (pre post : list (Z * Z * Z)) k :
  (length (corners_of_node n pre k) ≤ length (corners_of_node n (pre ++ post) k))%nat.
Proof.
  unfold corners_of_node. rewrite imap_app, join_app, length_app. lia.
Qed.

Lemma corners_of_node_range n fs k :
  Forall (fun c => 0 ≤ c < Z.of_nat (length fs)) (corners_of_node n fs k).
Proof.
  induction fs as [|t fs IH] using rev_ind; [constructor|].
  rewrite corners_of_node_snoc, length_app. apply Forall_app. split.
  - eapply Forall_impl; [exact IH|]. simpl. lia.
  - unfold patch_ends. apply Forall_forall.
    intros c (v & Hc & _)%list_elem_of_bind.
    case_decide; [|inversion Hc]. apply list_elem_of_singleton in Hc as ->.
    simpl. lia.
Qed.

(** The items of [zip (seq 0 (length l)) l] already visited, the one being
    visited and those to come. *)
Lemma zip_seq_prefix {A} (l : list A) (pre : list (nat * A)) x post :
  zip (seq 0 (length l)) l = pre ++ x :: post →
  x.1 = length pre ∧ l = pre.*2 ++ x.2 :: post.*2.
Proof.
  intros E.
  assert (l = pre.*2 ++ x.2 :: post.*2) as El.
  { rewrite <- (snd_zip (seq 0 (length l)) l) at 1 by by rewrite length_seq.
    by rewrite E, fmap_app. }
  split; [|done].
  assert ((zip (seq 0 (length l)) l) !! length pre = Some x) as Hx.
  { rewrite E, lookup_app_r, Nat.sub_diag by lia. done. }
  apply lookup_zip_with_Some in Hx as (i & y & -> & Hi & _).
  apply lookup_seq in Hi. simpl. lia.
Qed.

Lemma patch_step n (pre : list (nat * (Z * Z * Z))) t st1 st2 :
  corner_slots n (corners_of_node n pre.*2) st1.1 st1.2 →
  attach_patch st1 (length pre, t) = Ok st2 →
  corner_slots n (corners_of_node n (pre ++ [(length pre, t)]).*2) st2.1 st2.2.
Proof.
  intros Hs E. eapply corner_slots_ext; [|by eapply attach_patch_exact].
  intros k. cbv beta. rewrite fmap_app. simpl.
  by rewrite corners_of_node_snoc, !length_fmap.
Qed.

(** The patch loop of [setup_patches_and_corners]: what it leaves, or that
    it raised. *)
Lemma patch_loop_cases n fs :
  match for_each attach_patch (zip (seq 0 (length fs)) fs)
          (np.full2 n 6 (-1), replicate n 0) with
  | Ok st =>
      corner_slots n (corners_of_node n fs) st.1 st.2 ∧
      Forall (valid_triangle n) fs
  | Raise e => e = IndexError
  end.
Proof.
  pose proof (for_each_cases attach_patch
    (fun pre st => corner_slots n (corners_of_node n pre.*2) st.1 st.2 ∧
                   Forall (valid_triangle n) pre.*2)
    (fun e => e = IndexError)
    (zip (seq 0 (length fs)) fs) (np.full2 n 6 (-1), replicate n 0)) as Hc.
  cbv beta in Hc. rewrite snd_zip in Hc by by rewrite length_seq.
  apply Hc; clear Hc.
  - split; [apply corner_slots_init | constructor].
  - intros pre [p t] post st1 [Hp _]%zip_seq_prefix [Hs Hv]. simpl in Hp.
    subst p. destruct (attach_patch st1 (length pre, t)) as [st2|e] eqn:E;
      [|by eapply attach_patch_Raise].
    split; [by eapply patch_step|].
    rewrite fmap_app. apply Forall_app. split; [done|]. repeat constructor.
    all: destruct (attach_patch_Ok _ _ _ _ _ _ Hs E)
           as ((ka & kb & kc & Ha & Hb & Hc) & _);
      apply valid_index_Ok; eauto.
Qed.

Lemma patch_loop_total n fs :
  Forall (valid_triangle n) fs →
  (∀ k, (k < n)%nat → (length (corners_of_node n fs k) ≤ 6)%nat) →
  ∃ st', for_each attach_patch (zip (seq 0 (length fs)) fs)
           (np.full2 n 6 (-1), replicate n 0) = Ok st'.
Proof.
  intros Hvalid Hle.
  edestruct (for_each_total attach_patch
               (fun pre st => corner_slots n (corners_of_node n pre.*2) st.1 st.2)
               (zip (seq 0 (length fs)) fs)) as (st' & -> & _);
    [apply corner_slots_init | | by eexists].
  intros pre [p t] post st1 El Hs.
  pose proof El as (Hp & Hfs)%zip_seq_prefix. simpl in Hp, Hfs. subst p.
  rewrite Forall_forall in Hvalid.
  assert (valid_triangle n t) as Ht.
  { apply Hvalid. rewrite Hfs. apply elem_of_app. right. by left. }
  destruct (attach_patch_total n _ st1 (length pre) t Hs Ht) as [st2 E].
  - intros k Hk. etrans; [|apply (Hle k Hk)]. rewrite Hfs.
    replace (pre.*2 ++ t :: post.*2) with ((pre.*2 ++ [t]) ++ post.*2)
      by by rewrite <- app_assoc.
    etrans; [|apply corners_of_node_prefix].
    by rewrite corners_of_node_snoc, length_fmap.
  - exists st2. split; [done|]. by eapply patch_step.
Qed.

Lemma sum_list_fmap_add3 {A} (f g h : A -> nat) (l : list A) :
  sum_list ((fun x => f x + g x + h x)%nat <$> l)
  = (sum_list (f <$> l) + sum_list (g <$> l) + sum_list (h <$> l))%nat.
Proof. induction l as [|x l IH]; csimpl; [done|]. rewrite IH. lia. Qed.

Lemma patch_ends_sum n (p : nat) (t : Z * Z * Z) :
  valid_triangle n t →
  sum_list ((fun k => length (patch_ends n k p t)) <$> seq 0 n) = 3%nat.
Proof.
  destruct t as [[a b] c].
  intros ([ka Ha]%valid_index_Ok & [kb Hb]%valid_index_Ok & [kc Hc]%valid_index_Ok).
  simpl in *.
  rewrite (list_fmap_ext _
    (fun k => (if decide (k = ka) then 1 else 0)
              + (if decide (k = kb) then 1 else 0)
              + (if decide (k = kc) then 1 else 0))%nat).
  2: { intros _ k _. rewrite (patch_ends_index n k p a b c ka kb kc) by done.
       rewrite !length_app. by repeat case_decide. }
  rewrite sum_list_fmap_add3.
  rewrite (sum_indicator _ ka), (sum_indicator _ kb), (sum_indicator _ kc) by done.
  apply index_Ok in Ha as [? _], Hb as [? _], Hc as [? _].
  repeat case_decide; lia.
Qed.

(** Every patch is a corner of three node slots. *)
Lemma corner_count_sum n (fs : list (Z * Z * Z)) :
  Forall (valid_triangle n) fs →
  sum_list ((fun k => length (corners_of_node n fs k)) <$> seq 0 n)
  = (3 * length fs)%nat.
Proof.
  induction fs as [|t fs IH] using rev_ind; intros H.
  - induction (seq 0 n) as [|k l IHl]; [done|]. csimpl in *. exact IHl.
  - apply Forall_app in H as [H1 H2]. inversion_clear H2 as [|? ? Ht _].
    rewrite (list_fmap_ext _
      (fun k => length (corners_of_node n fs k)
                + length (patch_ends n k (length fs) t))%nat).
    2: { intros _ k _. by rewrite corners_of_node_snoc, length_app. }
    rewrite sum_list_fmap_add, IH, patch_ends_sum by done.
    rewrite length_app. simpl. lia.
Qed.

Lemma corner_row_count np (valid : list Z) (c : nat) :
  Forall (fun c => 0 ≤ c < Z.of_nat np) valid →
  np.count_nonzero ((fun c => c + 1) <$> (valid ++ replicate c (-1)))
  = length valid.
Proof.
  intros Hv. unfold np.count_nonzero. rewrite fmap_app, filter_app, length_app.
  assert (filter (fun x => x ≠ 0) ((fun c => c + 1) <$> replicate c (-1)) = []) as ->.
  { induction c as [|c IH]; [done|]. csimpl. by rewrite filter_cons_False by lia. }
  simpl. rewrite Nat.add_0_r.
  induction Hv as [|x l Hx _ IH]; [done|]. csimpl.
  rewrite filter_cons_True by lia. simpl. by rewrite IH.
Qed.

Lemma corner_row_perm np (valid sorted : list Z) :
  sorted ≡ₚ valid → (length valid ≤ 6)%nat →
  Forall (fun c => 0 ≤ c < Z.of_nat np) valid →
  corner_row np (sorted ++ replicate (6 - length valid) (-1)).
Proof.
  intros Hp Hle Hv. exists sorted.
  rewrite (Permutation_length Hp). do 2 (split; [done|]). by rewrite Hp.
Qed.

Lemma corner_row_entry np (row : list Z) (s : nat) :
  corner_row np row → (0 < np)%nat → (s < 6)%nat →
  ∃ c, row !! s = Some c ∧ valid_index np c.
Proof.
  intros (valid & -> & Hle & Hv) Hnp Hs. unfold valid_index.
  destruct (decide (s < length valid)%nat) as [Hlt|Hge].
  - destruct (lookup_lt_is_Some_2 valid s Hlt) as [c Hc]. exists c.
    rewrite lookup_app_l by done. split; [done|].
    rewrite Forall_forall in Hv.
    assert (0 ≤ c < Z.of_nat np) by by eapply Hv, list_elem_of_lookup_2. lia.
  - exists (-1). rewrite lookup_app_r by lia.
    rewrite lookup_replicate_2 by lia. split; [done|lia].
Qed.

Section PatchTables2.
Context {beyond_int64 : RowBeyondInt64}.
Context {F : Type}.
Implicit Types g : Graph F.

(** The tables after the patch loop, [nodes_at_patch] holding the rows
    stored for the triangles. *)
Lemma setup_patch_tables_exact fs g g' :
  setup_patch_tables fs g = Ok g' →
  Forall (valid_triangle (number_of_nodes g)) (nodes_at_patch g') ∧
  stored_rows fs (nodes_at_patch g') ∧ number_of_patches g' = length fs ∧
  number_of_corners g' = length fs ∧
  length (corners_at_node g') = number_of_nodes g ∧
  ∀ k, (k < number_of_nodes g)%nat →
    (length (corners_of_node (number_of_nodes g) (nodes_at_patch g') k) ≤ 6)%nat ∧
    corners_at_node g' !! k
    = Some (corners_of_node (number_of_nodes g) (nodes_at_patch g') k
            ++ replicate
                 (6 - length (corners_of_node (number_of_nodes g)
                                (nodes_at_patch g') k)) (-1)).
Proof.
  intros H. destruct (setup_patch_tables_rows _ _ _ H) as [Hrows _].
  unfold setup_patch_tables in H. cbv zeta in H.
  rewrite (patch_loop_start _ _ _ Hrows) in H.
  bind_inv H as t Ht. bind_inv Ht as st Hst. injection Ht as <-.
  injection H as <-. simpl in *.
  pose proof (patch_loop_cases (number_of_nodes g) (nodes_at_patch g')) as Hc.
  revert Hrows Hst Hc. generalize (nodes_at_patch g'). intros rows Hrows Hst Hc.
  rewrite Hst in Hc. destruct Hc as [(Hl & _ & Hrows') Hv].
  do 5 (split; [done|]). intros k Hk. by destruct (Hrows' k Hk) as (? & ? & _).
Qed.

(** On triangles of 64 bits [nodes_at_patch] holds the triangles. *)
Lemma setup_patch_tables_exact_fits fs g g' :
  Forall int64_row fs →
  setup_patch_tables fs g = Ok g' →
  Forall (valid_triangle (number_of_nodes g)) fs ∧
  nodes_at_patch g' = fs ∧ number_of_patches g' = length fs ∧
  number_of_corners g' = length fs ∧
  length (corners_at_node g') = number_of_nodes g ∧
  ∀ k, (k < number_of_nodes g)%nat →
    (length (corners_of_node (number_of_nodes g) fs k) ≤ 6)%nat ∧
    corners_at_node g' !! k
    = Some (corners_of_node (number_of_nodes g) fs k
            ++ replicate (6 - length (corners_of_node (number_of_nodes g) fs k))
                 (-1)).
Proof.
  intros Hfs H.
  destruct (setup_patch_tables_exact _ _ _ H) as (Hv & Hrows & Hrest).
  apply stored_rows_eq in Hrows; [|done]. by rewrite Hrows in *.
Qed.

Lemma setup_patch_tables_total fs g :
  Forall int64_row fs →
  Forall (valid_triangle (number_of_nodes g)) fs →
  (∀ k, (k < number_of_nodes g)%nat →
        (length (corners_of_node (number_of_nodes g) fs k) ≤ 6)%nat) →
  ∃ g', setup_patch_tables fs g = Ok g'.
Proof.
  intros Hfs%stored_rows_fits Hv Hle. unfold setup_patch_tables. cbv zeta.
  rewrite (patch_loop_start _ _ _ Hfs).
  destruct (patch_loop_total _ fs Hv Hle) as [st ->]. by eexists.
Qed.

End PatchTables2.

Section CornersReturn.
Context {beyond_int64 : RowBeyondInt64}.
Context {F : Type} `{!Numeric F}.
Implicit Types g : Graph F.

Lemma set_coords_of_corner_total g :
  Forall (valid_triangle (length (coords_of_node g))) (nodes_at_patch g) →
  ∃ g', set_coords_of_corner g = Ok g'.
Proof.
  intros Hv. unfold set_coords_of_corner.
  destruct (take_ids_total (coords_of_node g) ((fun t => t.1.1) <$> nodes_at_patch g))
    as (l0 & -> & _).
  { apply Forall_fmap. eapply Forall_impl; [exact Hv|]. by intros t (? & ? & ?). }
  destruct (take_ids_total (coords_of_node g) ((fun t => t.1.2) <$> nodes_at_patch g))
    as (l1 & -> & _).
  { apply Forall_fmap. eapply Forall_impl; [exact Hv|]. by intros t (? & ? & ?). }
  destruct (take_ids_total (coords_of_node g) ((fun t => t.2) <$> nodes_at_patch g))
    as (l2 & -> & _).
  { apply Forall_fmap. eapply Forall_impl; [exact Hv|]. by intros t (? & ? & ?). }
  by eexists.
Qed.

Lemma set_coords_of_corner_needs g g' :
  set_coords_of_corner g = Ok g' →
  Forall (valid_triangle (length (coords_of_node g))) (nodes_at_patch g) ∧
  length (coords_of_corner g') = length (nodes_at_patch g).
Proof.
  intros H. unfold set_coords_of_corner in H.
  bind_inv H as l0 H0. bind_inv H as l1 H1. bind_inv H as l2 H2.
  injection H as <-. simpl. split.
  - apply take_ids_valid in H0, H1, H2.
    rewrite Forall_fmap in H0, H1, H2.
    rewrite Forall_forall in H0, H1, H2. apply Forall_forall. intros t Ht.
    split; [apply (H0 t Ht)|]. split; [apply (H1 t Ht) | apply (H2 t Ht)].
  - apply take_ids_Ok, Forall2_length in H0, H1, H2.
    rewrite length_fmap in H0, H1, H2.
    rewrite length_zip_with, length_zip_with. lia.
Qed.

Lemma set_coords_of_corner_Raise g e :
  set_coords_of_corner g = Raise e → e = IndexError.
Proof.
  intros H. unfold set_coords_of_corner in H.
  repeat (apply bind_Raise in H as [H|(? & _ & H)]; [by eapply take_ids_Raise|]).
  done.
Qed.

(** X3.  [set_coords_of_corner] returns exactly when every index of
    [nodes_at_patch] names a row of [coords_of_node]; it then holds one
    corner for each patch, and any exception it raises is [IndexError]. *)
Theorem set_coords_of_corner_returns g :
  ((∃ g', set_coords_of_corner g = Ok g') ↔
   Forall (valid_triangle (length (coords_of_node g))) (nodes_at_patch g)) ∧
  (∀ g', set_coords_of_corner g = Ok g' →
     length (coords_of_corner g') = length (nodes_at_patch g)) ∧
  ∀ e, set_coords_of_corner g = Raise e → e = IndexError.
Proof.
  split; [split|split].
  - intros [g' H]. by apply set_coords_of_corner_needs in H as [? _].
  - apply set_coords_of_corner_total.
  - intros g' H. by apply set_coords_of_corner_needs in H as [_ ?].
  - intros e. apply set_coords_of_corner_Raise.
Qed.

End CornersReturn.

(** ** sort_corners_ccw returns *)

Section SortReturn.
Context {beyond_int64 : RowBeyondInt64}.
Context {F : Type} `{!Numeric F, !CartesianToSpherical F, !RotateZY F}.
Implicit Types g : Graph F.

Lemma memoized_spherical_total (slot : Graph F -> option (list F)) g :
  slot (_setup_node_spherical_coords g) ≠ None →
  ∃ v g1, memoized slot _setup_node_spherical_coords g = Ok (v, g1).
Proof.
  intros H. unfold memoized. destruct (slot g) as [v|]; [by eexists _, _|].
  cbv zeta. destruct (slot (_setup_node_spherical_coords g)); [|done].
  by eexists _, _.
Qed.

Lemma sort_corners_at_total g (node : nat) :
  (∀ a, is_argsort flt a (argsort a)) →
  sortable g → (node < number_of_nodes g)%nat →
  ∃ g', sort_corners_at g node = Ok g'.
Proof.
  intros Hargsort (Hcache & Hcn & Hcan & Hrows) Hnode.
  destruct (lookup_lt_is_Some_2 (corners_at_node g) node) as [row Hrow]; [lia|].
  assert (corner_row (length (coords_of_corner g)) row) as Hcr.
  { rewrite Forall_forall in Hrows. by eapply Hrows, list_elem_of_lookup_2. }
  destruct Hcr as (valid & -> & Hle & Hv).
  unfold sort_corners_at.
  rewrite (getitem_nat _ _ _ Hrow), ret_bind; cbv beta zeta.
  rewrite (corner_row_count _ _ _ Hv).
  rewrite take_app_length, drop_app_length.
  assert (Forall (valid_index (length (coords_of_corner g))) valid) as Hvi.
  { eapply Forall_impl; [exact Hv|]. unfold valid_index. intros c ?; simpl in *. lia. }
  destruct (take_ids_total (x_of_corner g) valid) as (cx & Ex & Lx).
  { unfold x_of_corner. by rewrite length_fmap. }
  destruct (take_ids_total (y_of_corner g) valid) as (cy & Ey & Ly).
  { unfold y_of_corner. by rewrite length_fmap. }
  destruct (take_ids_total (z_of_corner g) valid) as (cz & Ez & Lz).
  { unfold z_of_corner. by rewrite length_fmap. }
  rewrite Ex, ret_bind; cbv beta. rewrite Ey, ret_bind; cbv beta.
  rewrite Ez, ret_bind; cbv beta.
  destruct (memoized_spherical_total _phi_of_node g) as (phis & g1 & Ephi); [done|].
  fold (phi_of_node g) in Ephi. rewrite Ephi, ret_bind; cbv beta iota.
  destruct (phi_of_node_Ok _ _ _ Hcache Ephi) as (-> & Hc1 & Hf1 & Hcan1).
  assert (coords_of_node g1 = coords_of_node g) as Hcn1 by apply Hf1.
  destruct (lookup_lt_is_Some_2 (coords_of_node g) node) as [p Hp]; [lia|].
  assert (np.getitem ((fun s => s.1.2) <$> node_sph g) (Z.of_nat node)
          = Ok (cartesian_to_spherical p.1.1 p.1.2 p.2).1.2) as ->.
  { apply getitem_nat. unfold node_sph. by rewrite !list_lookup_fmap, Hp. }
  rewrite ret_bind; cbv beta.
  destruct (memoized_spherical_total _theta_of_node g1) as (thetas & g2 & Eth); [done|].
  fold (theta_of_node g1) in Eth. rewrite Eth, ret_bind; cbv beta iota.
  destruct (theta_of_node_Ok _ _ _ Hc1 Eth) as (-> & Hc2 & Hf2 & Hcan2).
  assert (np.getitem ((fun s => s.2) <$> node_sph g1) (Z.of_nat node)
          = Ok (cartesian_to_spherical p.1.1 p.1.2 p.2).2) as ->.
  { apply getitem_nat. unfold node_sph. by rewrite !list_lookup_fmap, Hcn1, Hp. }
  rewrite ret_bind; cbv beta.
  set (ang := zip_with _ cx (zip cy cz)).
  assert (length ang = length valid) as Hla.
  { unfold ang. rewrite length_zip_with, length_zip_with. lia. }
  destruct (Hargsort ang) as (Hperm & _). rewrite Hla in Hperm.
  destruct (take_ids_total (valid ++ replicate (6 - length valid) (-1))
              (Z.of_nat <$> argsort ang)) as (sorted & Es & Ls).
  { apply Forall_fmap, Forall_forall. intros i Hi. rewrite Hperm in Hi.
    apply elem_of_seq in Hi. unfold valid_index. simpl.
    rewrite length_app, length_replicate. lia. }
  rewrite Es, ret_bind; cbv beta.
  rewrite length_fmap, (Permutation_length Hperm), length_seq in Ls.
  rewrite bool_decide_eq_true_2 by done.
  assert (∀ x, ∃ c, np.setitem (corners_at_node g2) (Z.of_nat node) x = Ok c)
    as Eset.
  { intros x. eexists. apply setitem_Ok. exists node. split; [|done].
    apply index_nat. rewrite Hcan2, Hcan1. lia. }
  destruct (Eset (sorted ++ replicate (6 - length valid) (-1))) as [c ->].
  rewrite ret_bind. by eexists.
Qed.

(** One pass over a node keeps the graph ready and the entries of the row. *)
Lemma sort_corners_at_sortable g (node : nat) g' :
  (∀ a, is_argsort flt a (argsort a)) →
  sortable g → sort_corners_at g node = Ok g' →
  sortable g' ∧ number_of_nodes g' = number_of_nodes g ∧
  Forall2 Permutation (corners_at_node g') (corners_at_node g).
Proof.
  intros Hargsort (Hcache & Hcn & Hcan & Hrows) H.
  destruct (sort_corners_at_Ok _ _ _ Hargsort Hcache H)
    as (row & sorted & angs & Hrow & Hcan' & Hls & Hperm & _ & _ & Hf & Hc').
  assert (coords_of_node g' = coords_of_node g) as E1 by apply Hf.
  assert (number_of_nodes g' = number_of_nodes g) as E2 by apply Hf.
  assert (coords_of_corner g' = coords_of_corner g) as E3 by apply Hf.
  assert (corner_row (length (coords_of_corner g)) row) as (valid & -> & Hle & Hv).
  { rewrite Forall_forall in Hrows. by eapply Hrows, list_elem_of_lookup_2. }
  rewrite (corner_row_count _ _ _ Hv) in *.
  rewrite take_app_length in Hperm. rewrite drop_app_length in Hcan'.
  split; [|split; [done|]].
  - split; [done|]. rewrite E1, E2, E3, Hcan', length_insert.
    do 2 (split; [done|]). apply Forall_insert; [done|].
    by apply corner_row_perm.
  - rewrite Hcan'. apply Forall2_same_length_lookup_2; [by rewrite length_insert|].
    intros i x y Hx Hy. destruct (decide (i = node)) as [->|Hne].
    + rewrite list_lookup_insert_eq in Hx by by eapply lookup_lt_Some.
      simplify_eq. by rewrite Hperm.
    + rewrite list_lookup_insert_ne in Hx by done. by simplify_eq.
Qed.

Lemma sort_corners_ccw_total g :
  (∀ a, is_argsort flt a (argsort a)) → sortable g →
  ∃ g', sort_corners_ccw g = Ok g' ∧ sortable g' ∧
        Forall2 Permutation (corners_at_node g') (corners_at_node g).
Proof.
  intros Hargsort Hs. unfold sort_corners_ccw.
  destruct (for_each_total sort_corners_at
    (fun _ gc => sortable gc ∧ number_of_nodes gc = number_of_nodes g ∧
                 Forall2 Permutation (corners_at_node gc) (corners_at_node g))
    (seq 0 (number_of_nodes g)) g) as (g' & E & Hs' & _ & Hp).
  - do 2 (split; [done|]). apply Forall2_same_length_lookup_2; [done|].
    intros i x y Hx Hy. by simplify_eq.
  - intros pre x post g1 Hx%seq_item (Hs1 & Hn1 & Hp1).
    destruct (sort_corners_at_total g1 x Hargsort Hs1) as [g2 E]; [lia|].
    exists g2. split; [done|].
    destruct (sort_corners_at_sortable _ _ _ Hargsort Hs1 E) as (Hs2 & Hn2 & Hp2).
    split; [done|]. split; [congruence|].
    etrans; [exact Hp2 | exact Hp1].
  - by exists g'.
Qed.

(** X4.  On a graph whose rows of [corners_at_node] hold corner numbers
    followed by the sentinel, and for an [np.argsort] that returns a
    rearrangement of the positions, [sort_corners_ccw] returns: every row
    keeps its entries, and the sentinels stay behind the corners. *)
Theorem sort_corners_ccw_returns g :
  (∀ a, is_argsort flt a (argsort a)) → sortable g →
  ∃ g', sort_corners_ccw g = Ok g' ∧
    length (corners_at_node g') = number_of_nodes g ∧
    ∀ (k : nat) row, corners_at_node g !! k = Some row →
      ∃ row', corners_at_node g' !! k = Some row' ∧ row' ≡ₚ row ∧
              corner_row (length (coords_of_corner g)) row'.
Proof.
  intros Hargsort Hs.
  destruct (sort_corners_ccw_total g Hargsort Hs) as (g' & E & Hs' & Hp).
  exists g'. split; [done|].
  pose proof (sort_corners_ccw_frame _ _ E) as Hf.
  assert (coords_of_corner g' = coords_of_corner g) as Ecc by apply Hf.
  destruct Hs as (_ & _ & Hl & _). destruct Hs' as (_ & _ & _ & Hrows').
  split; [by rewrite (Forall2_length _ _ _ Hp)|].
  intros k row Hrow.
  destruct (Forall2_lookup_r _ _ _ _ _ Hp Hrow) as (row' & Hrow' & Hperm).
  exists row'. do 2 (split; [done|]). rewrite <- Ecc.
  rewrite Forall_forall in Hrows'. by eapply Hrows', list_elem_of_lookup_2.
Qed.

(** The graph after the first two steps of [setup_patches_and_corners]. *)
Lemma patch_stages fs g g3 g4 :
  cache_ok g → length (coords_of_node g) = number_of_nodes g →
  setup_patch_tables fs g = Ok g3 → set_coords_of_corner g3 = Ok g4 →
  sortable g4 ∧
  ∀ k, (k < number_of_nodes g)%nat →
    corners_at_node g4 !! k
    = Some (corners_of_node (number_of_nodes g) (nodes_at_patch g3) k
            ++ replicate
                 (6 - length (corners_of_node (number_of_nodes g)
                                (nodes_at_patch g3) k)) (-1)).
Proof.
  intros Hcache Hcn H3 H4.
  destruct (setup_patch_tables_exact _ _ _ H3) as (_ & Hnp & Hn1 & Hn2 & Hlen & Hrows).
  destruct (set_coords_of_corner_needs _ _ H4) as (_ & Hlc).
  assert (number_of_nodes g3 = number_of_nodes g ∧
          coords_of_node g3 = coords_of_node g ∧
          _phi_of_node g3 = _phi_of_node g ∧
          _theta_of_node g3 = _theta_of_node g) as (En3 & Ec3 & Ep3 & Et3).
  { clear -H3. builder_inv H3. done. }
  assert (number_of_nodes g4 = number_of_nodes g3 ∧
          coords_of_node g4 = coords_of_node g3 ∧
          _phi_of_node g4 = _phi_of_node g3 ∧
          _theta_of_node g4 = _theta_of_node g3 ∧
          corners_at_node g4 = corners_at_node g3)
    as (En4 & Ec4 & Ep4 & Et4 & Ecan4).
  { clear -H4. builder_inv H4. done. }
  rewrite Ecan4.
  split; [|intros k Hk; by destruct (Hrows k Hk)].
  split.
  { unfold cache_ok, node_sph in *. by rewrite Ep4, Ep3, Et4, Et3, Ec4, Ec3. }
  rewrite Ec4, Ec3, En4, En3, Ecan4, Hlen, Hlc. do 2 (split; [done|]).
  apply Forall_forall. intros row [k Hk]%list_elem_of_lookup.
  assert (k < number_of_nodes g)%nat as Hlt.
  { rewrite <- Hlen. by eapply lookup_lt_Some. }
  destruct (Hrows k Hlt) as [Hle Hr]. rewrite Hr in Hk. injection Hk as <-.
  exists (corners_of_node (number_of_nodes g) (nodes_at_patch g3) k).
  split; [done|]. split; [done | apply corners_of_node_range].
Qed.

(** What [setup_patches_and_corners] leaves of the graph it is given, and
    the lengths of the tables it adds. *)
Lemma setup_patches_and_corners_frame fs g2 g5 :
  setup_patches_and_corners fs g2 = Ok g5 →
  number_of_nodes g5 = number_of_nodes g2 ∧
  coords_of_node g5 = coords_of_node g2 ∧
  stored_rows fs (nodes_at_patch g5) ∧ number_of_patches g5 = length fs ∧
  number_of_corners g5 = length fs ∧
  length (coords_of_corner g5) = length fs ∧
  nodes_at_link g5 = nodes_at_link g2 ∧ number_of_links g5 = number_of_links g2 ∧
  length_of_link g5 = length_of_link g2.
Proof.
  intros H. unfold setup_patches_and_corners in H.
  bind_inv H as g3 H3. bind_inv H as g4 H4.
  apply sort_corners_ccw_frame in H.
  destruct (set_coords_of_corner_needs _ _ H4) as (_ & Hlc).
  destruct (setup_patch_tables_exact _ _ _ H3) as (_ & Hrows & _).
  pose proof (Forall2_length _ _ _ Hrows) as Hlen.
  destruct H as (_ & -> & -> & _ & -> & _ & _ & -> & -> & -> & -> & -> & -> & _).
  rewrite Hlc, <- Hlen.
  assert (nodes_at_patch g4 = nodes_at_patch g3) as ->
    by (clear -H4; builder_inv H4; done).
  split; [|split; [|split; [done|]]];
    clear -H3 H4; builder_inv H4; builder_inv H3; done.
Qed.

(** The rows that [setup_patches_and_corners] has stored name nodes, and no
    node is named by more than six. *)
Lemma setup_patches_and_corners_needs fs g g' :
  setup_patches_and_corners fs g = Ok g' →
  Forall (valid_triangle (number_of_nodes g)) (nodes_at_patch g') ∧
  ∀ k, (k < number_of_nodes g)%nat →
       (length (corners_of_node (number_of_nodes g) (nodes_at_patch g') k) ≤ 6)%nat.
Proof.
  intros H. unfold setup_patches_and_corners in H. bind_inv H as g3 H3.
  bind_inv H as g4 H4. apply sort_corners_ccw_frame in H.
  destruct H as (_ & _ & _ & _ & _ & _ & _ & _ & _ & _ & _ & -> & _).
  assert (nodes_at_patch g4 = nodes_at_patch g3) as ->
    by (clear -H4; builder_inv H4; done).
  destruct (setup_patch_tables_exact _ _ _ H3) as (Hv & _ & _ & _ & _ & Hrows).
  split; [done|]. intros k Hk. by destruct (Hrows k Hk).
Qed.

(** With its three steps, [setup_patches_and_corners] returns a graph
    ready for the builders of the dual, or the patch loop or the gathering
    of the coordinates raised. *)
Lemma setup_patches_and_corners_cases fs g :
  (∀ a, is_argsort flt a (argsort a)) →
  cache_ok g → length (coords_of_node g) = number_of_nodes g →
  match setup_patches_and_corners fs g with
  | Ok g' =>
      sortable g' ∧
      ∀ k, (k < number_of_nodes g)%nat →
        ∃ sorted,
          corners_at_node g' !! k
          = Some (sorted ++ replicate (6 - length sorted) (-1)) ∧
          sorted ≡ₚ corners_of_node (number_of_nodes g) (nodes_at_patch g') k
  | Raise e =>
      (e = IndexError ∨ (e = OverflowError ∧ ¬ Forall int64_row fs)) ∧
      ¬ (Forall int64_row fs ∧
         Forall (valid_triangle (number_of_nodes g)) fs ∧
         ∀ k, (k < number_of_nodes g)%nat →
              (length (corners_of_node (number_of_nodes g) fs k) ≤ 6)%nat)
  end.
Proof.
  intros Hargsort Hcache Hcn.
  destruct (setup_patches_and_corners fs g) as [g5|e] eqn:H5.
  { pose proof H5 as H. unfold setup_patches_and_corners in H.
    bind_inv H as g3 H3. bind_inv H as g4 H4.
    destruct (patch_stages fs g g3 g4 Hcache Hcn H3 H4) as (Hs & Hrows).
    destruct (sort_corners_ccw_total g4 Hargsort Hs) as (g' & H' & Hs' & Hp).
    assert (g' = g5) as -> by congruence.
    assert (nodes_at_patch g5 = nodes_at_patch g3) as ->.
    { apply sort_corners_ccw_frame in H.
      destruct H as (_ & _ & _ & _ & _ & _ & _ & _ & _ & _ & _ & -> & _).
      clear -H4. builder_inv H4. done. }
    split; [done|]. intros k Hk. specialize (Hrows k Hk).
    destruct (Forall2_lookup_r _ _ _ _ _ Hp Hrows) as (row' & Hrow' & Hperm).
    destruct Hs' as (_ & _ & _ & Hcr). rewrite Forall_forall in Hcr.
    destruct (Hcr row') as (sorted & -> & Hle & Hrange);
      [by eapply list_elem_of_lookup_2|].
    exists sorted. split; [done|].
    pose proof (corners_of_node_range (number_of_nodes g) (nodes_at_patch g3) k)
      as Hr.
    set (cs := corners_of_node (number_of_nodes g) (nodes_at_patch g3) k) in *.
    assert (filter (fun x => x ≠ -1) (sorted ++ replicate (6 - length sorted) (-1))
            ≡ₚ filter (fun x => x ≠ -1) (cs ++ replicate (6 - length cs) (-1)))
      as Hf by by rewrite Hperm.
    rewrite !filter_padding in Hf; [done| |].
    - eapply Forall_impl; [exact Hr|]. simpl. lia.
    - eapply Forall_impl; [exact Hrange|]. simpl. lia. }
  unfold setup_patches_and_corners in H5.
  destruct (setup_patch_tables fs g) as [g3|e3] eqn:H3.
  2: { rewrite raise_bind in H5. injection H5 as <-.
       split; [by eapply setup_patch_tables_Raise|].
       intros (Hfit & Hv & Hle).
       destruct (setup_patch_tables_total fs g Hfit Hv Hle). congruence. }
  exfalso. rewrite ret_bind in H5; cbv beta in H5.
  destruct (setup_patch_tables_exact _ _ _ H3) as (Hv & Hnp & _ & _ & _ & Hrows3).
  assert (coords_of_node g3 = coords_of_node g) as Ec3
    by (clear -H3; builder_inv H3; done).
  destruct (set_coords_of_corner_total g3) as [g4 H4].
  { by rewrite Ec3, Hcn. }
  rewrite H4, ret_bind in H5; cbv beta in H5.
  destruct (patch_stages fs g g3 g4 Hcache Hcn H3 H4) as (Hs & Hrows).
  destruct (sort_corners_ccw_total g4 Hargsort Hs) as (g' & H' & _).
  congruence.
Qed.

(** X5.  For an object with its nodes, and triangles whose indices fit
    the 64 bits of [nodes_at_patch], [setup_patches_and_corners] returns
    exactly when every index names a node and no node is a vertex of more
    than six triangles, counted once for each of their positions.  It raises
    [IndexError], or [OverflowError], and this only when an index is beyond
    64 bits.  When it returns, [nodes_at_patch] holds the rows stored for the
    triangles, the triangles themselves when their indices fit 64 bits; the
    row of a node in [corners_at_node] holds the patches whose row names the
    node, in some order, followed by -1, and the rows share three entries
    for each patch. *)
Theorem setup_patches_and_corners_returns fs g :
  (∀ a, is_argsort flt a (argsort a)) →
  cache_ok g → length (coords_of_node g) = number_of_nodes g →
  let n := number_of_nodes g in
  (Forall int64_row fs →
   ((∃ g', setup_patches_and_corners fs g = Ok g') ↔
    Forall (valid_triangle n) fs ∧
    ∀ k, (k < n)%nat → (length (corners_of_node n fs k) ≤ 6)%nat)) ∧
  (∀ e, setup_patches_and_corners fs g = Raise e →
     e = IndexError ∨ (e = OverflowError ∧ ¬ Forall int64_row fs)) ∧
  ∀ g', setup_patches_and_corners fs g = Ok g' →
    stored_rows fs (nodes_at_patch g') ∧
    (Forall int64_row fs → nodes_at_patch g' = fs) ∧
    number_of_patches g' = length fs ∧
    number_of_corners g' = length fs ∧
    length (coords_of_corner g') = length fs ∧
    (∀ k, (k < n)%nat →
       ∃ sorted,
         corners_at_node g' !! k
         = Some (sorted ++ replicate (6 - length sorted) (-1)) ∧
         sorted ≡ₚ corners_of_node n (nodes_at_patch g') k) ∧
    sum_list ((fun k => length (corners_of_node n (nodes_at_patch g') k))
                <$> seq 0 n)
    = (3 * length fs)%nat.
Proof.
  intros Hargsort Hcache Hcn n. subst n.
  pose proof (setup_patches_and_corners_cases fs g Hargsort Hcache Hcn) as Hc.
  split; [|split].
  - intros Hfit. split.
    + intros [g' H].
      destruct (setup_patches_and_corners_frame _ _ _ H) as (_ & _ & Hrows & _).
      apply stored_rows_eq in Hrows; [|done].
      pose proof (setup_patches_and_corners_needs _ _ _ H) as Hn.
      by rewrite Hrows in Hn.
    + intros [Hv Hle]. destruct (setup_patches_and_corners fs g) as [g'|e];
        [by eexists | by destruct Hc as [_ []]].
  - intros e H. rewrite H in Hc. by destruct Hc.
  - intros g' H. rewrite H in Hc. destruct Hc as [_ Hrows].
    destruct (setup_patches_and_corners_frame _ _ _ H)
      as (_ & _ & Hst & -> & -> & -> & _).
    split; [done|]. split; [intros Hfit; by apply stored_rows_eq in Hst|].
    do 3 (split; [done|]). split; [done|].
    rewrite (Forall2_length _ _ _ Hst).
    apply corner_count_sum. by eapply setup_patches_and_corners_needs.
Qed.

End SortReturn.

(** ** setup_faces returns *)

Lemma uses_in_app regs regs' k :
  uses_in (regs ++ regs') k = (uses_in regs k + uses_in regs' k)%nat.
Proof. unfold uses_in. by rewrite filter_app, length_app. Qed.

Lemma uses_in_edges (i : Z) (es : list (Z * Z)) k :
  uses_in ((fun e => (i, edge_key e)) <$> es) k
  = length (filter (fun e => edge_key e = k) es).
Proof.
  unfold uses_in. induction es as [|e es IH]; [done|]. csimpl.
  rewrite !filter_cons. simpl. repeat case_decide; simpl; try done; by rewrite IH.
Qed.

Lemma dict_inv_empty : dict_inv [] ∅.
Proof. intros k. split; [simpl; lia | done]. Qed.

Lemma dict_inv_uses regs d k : dict_inv regs d → (uses_in regs k ≤ 2)%nat.
Proof. intros H. by destruct (H k) as [? _]. Qed.

(** What the dict holds under a key, by the number of its registrations. *)
Lemma dict_inv_lookup regs d k :
  dict_inv regs d →
  match d !! k with
  | None => uses_in regs k = 0%nat
  | Some (One i) => uses_in regs k = 1%nat
  | Some (Two c0 c1) =>
      uses_in regs k = 2%nat ∧
      ∃ i j, (i, k) ∈ regs ∧ (j, k) ∈ regs ∧ c0 = Z.min j i ∧ c1 = Z.max j i
  end.
Proof.
  intros H. destruct (H k) as [Hle Hd]. rewrite Hd. unfold uses_in in *.
  destruct (filter (fun r => r.2 = k) regs) as [|[i ki] [|[j kj] [|? ?]]] eqn:E;
    simpl in *; try done; try lia.
  split; [done|]. exists i, j.
  assert ((i, ki) ∈ filter (fun r => r.2 = k) regs) as Hi by (rewrite E; by left).
  assert ((j, kj) ∈ filter (fun r => r.2 = k) regs) as Hj
    by (rewrite E; right; by left).
  apply list_elem_of_filter in Hi as [Hki Hi], Hj as [Hkj Hj]. simpl in *.
  subst ki kj. done.
Qed.

Lemma register_edge_total regs d (i : Z) (e : Z * Z) :
  dict_inv regs d → (uses_in regs (edge_key e) < 2)%nat →
  ∃ d', register_edge i d e = Ok d'.
Proof.
  intros Hinv Hlt. destruct (Hinv (edge_key e)) as [_ Hd].
  unfold register_edge. fold (edge_key e). rewrite Hd.
  unfold uses_in in Hlt.
  destruct (filter (fun r => r.2 = edge_key e) regs) as [|[p1 k1] [|? ?]];
    simpl in *; [eauto | eauto | lia].
Qed.

Lemma register_edge_Raise d (i : Z) (e : Z * Z) x :
  register_edge i d e = Raise x → x = TypeError.
Proof.
  unfold register_edge. destruct (d !! _) as [[?|? ?]|]; try done. by intros [= <-].
Qed.

(** The edges of one patch: the dict afterwards, or a key met for the
    third time. *)
Lemma register_edges_cases regs d (i : Z) (es : list (Z * Z)) :
  dict_inv regs d →
  match for_each (register_edge i) es d with
  | Ok d' => dict_inv (regs ++ ((fun e => (i, edge_key e)) <$> es)) d'
  | Raise x =>
      x = TypeError ∧
      ∃ k, (2 < uses_in (regs ++ ((fun e => (i, edge_key e)) <$> es)) k)%nat
  end.
Proof.
  intros Hinv.
  apply (for_each_cases (register_edge i)
    (fun pre d1 => dict_inv (regs ++ ((fun e => (i, edge_key e)) <$> pre)) d1)).
  - by rewrite app_nil_r.
  - intros pre e post d1 El H1.
    destruct (register_edge i d1 e) as [d2|x] eqn:E.
    + rewrite fmap_app, app_assoc. by eapply register_edge_inv.
    + split; [by eapply register_edge_Raise|]. exists (edge_key e).
      destruct (decide (uses_in (regs ++ ((fun e => (i, edge_key e)) <$> pre))
                          (edge_key e) < 2)%nat) as [Hlt|Hge].
      { destruct (register_edge_total _ _ i e H1 Hlt) as [d' E']. congruence. }
      rewrite El, fmap_app, app_assoc, uses_in_app. csimpl.
      unfold uses_in at 2. rewrite filter_cons_True by done. simpl. lia.
Qed.

Lemma bind_ext_in {A B} (f g : A -> list B) (l : list A) :
  (∀ x, x ∈ l → f x = g x) → l ≫= f = l ≫= g.
Proof.
  induction l as [|x l IH]; intros H; [done|]. csimpl.
  rewrite (H x) by by left. rewrite IH; [done|]. intros y Hy. apply H. by right.
Qed.

Lemma bind_seq_snoc {A B} (l : list A) (t : A) (f : nat -> A -> list B) :
  (seq 0 (length (l ++ [t])) ≫= fun i =>
     match (l ++ [t]) !! i with Some x => f i x | None => [] end)
  = (seq 0 (length l) ≫= fun i =>
       match l !! i with Some x => f i x | None => [] end) ++ f (length l) t.
Proof.
  rewrite length_app. simpl. rewrite seq_app, bind_app. simpl.
  rewrite lookup_app_r, Nat.sub_diag, app_nil_r by lia. simpl. f_equal.
  apply bind_ext_in. intros i Hi%elem_of_seq.
  by rewrite lookup_app_l by lia.
Qed.

Section FacesReturn.
Context {beyond_int64 : RowBeyondInt64}.
Context {F : Type} `{!Numeric F, !ArcLength F}.
Implicit Types g : Graph F.

Lemma registrations_uses g k :
  number_of_patches g = length (nodes_at_patch g) →
  uses_in (registrations g (seq 0 (number_of_patches g))) k
  = edge_uses (nodes_at_patch g) k.
Proof.
  intros ->. unfold registrations, edge_uses.
  induction (nodes_at_patch g) as [|t l IH] using rev_ind; [done|].
  rewrite (bind_seq_snoc l t (fun i t => (fun e => (Z.of_nat i, edge_key e))
                                          <$> patch_edges t)).
  rewrite uses_in_app, IH, uses_in_edges, bind_app, filter_app, length_app.
  simpl. by rewrite app_nil_r.
Qed.

Lemma registrations_app g ps qs :
  registrations g (ps ++ qs) = registrations g ps ++ registrations g qs.
Proof. unfold registrations. by rewrite bind_app. Qed.

Lemma registrations_one g (i : nat) t :
  nodes_at_patch g !! i = Some t →
  registrations g [i] = (fun e => (Z.of_nat i, edge_key e)) <$> patch_edges t.
Proof. intros H. unfold registrations. simpl. by rewrite H, app_nil_r. Qed.

(** The first loop of [setup_faces]: the dict of all the patch edges, or a
    pair of nodes that more than two patch edges join. *)
Lemma patches_at_node_pair_cases g :
  (number_of_patches g ≤ length (nodes_at_patch g))%nat →
  match patches_at_node_pair g with
  | Ok d => dict_inv (registrations g (seq 0 (number_of_patches g))) d
  | Raise x =>
      x = TypeError ∧
      ∃ k, (2 < uses_in (registrations g (seq 0 (number_of_patches g))) k)%nat
  end.
Proof.
  intros Hnp. unfold patches_at_node_pair.
  apply (for_each_cases _ (fun pre d1 => dict_inv (registrations g pre) d1)).
  - apply dict_inv_empty.
  - intros pre i post d1 El H1. pose proof (seq_item _ _ _ _ El) as Hi.
    destruct (lookup_lt_is_Some_2 (nodes_at_patch g) i) as [t Ht]; [lia|].
    rewrite (getitem_nat _ _ _ Ht), ret_bind.
    pose proof (register_edges_cases (registrations g pre) d1 (Z.of_nat i)
                  (patch_edges t) H1) as Hc.
    rewrite registrations_app, (registrations_one g i t Ht).
    destruct (for_each (register_edge (Z.of_nat i)) (patch_edges t) d1)
      as [d2|x]; [done|].
    destruct Hc as [-> [k Hk]]. split; [done|]. exists k.
    rewrite El. replace (pre ++ i :: post) with ((pre ++ [i]) ++ post)
      by by rewrite <- app_assoc.
    rewrite !registrations_app, (registrations_one g i t Ht), uses_in_app. lia.
Qed.

(** The second loop of [setup_faces]: every link lies on two patch edges,
    or the first link that does not lies on one, or on none. *)
Lemma face_loop_cases g d :
  faces_ready g →
  dict_inv (registrations g (seq 0 (number_of_patches g))) d →
  match for_each (face_body g d) (seq 0 (number_of_links g))
          (replicate (number_of_links g) (0, 0), replicate (number_of_links g) f0)
  with
  | Ok st =>
      ∀ (face : nat) link, (face < number_of_links g)%nat →
        nodes_at_link g !! face = Some link →
        edge_uses (nodes_at_patch g) (edge_key link) = 2%nat
  | Raise x =>
      ∃ (face : nat) link, (face < number_of_links g)%nat ∧
        nodes_at_link g !! face = Some link ∧
        ((x = TypeError ∧ edge_uses (nodes_at_patch g) (edge_key link) = 1%nat) ∨
         (x = KeyError ∧ edge_uses (nodes_at_patch g) (edge_key link) = 0%nat))
  end.
Proof.
  intros (Hnp & Hcc & Hnl) Hinv.
  set (nf := number_of_links g) in *.
  set (P := fun (pre : list nat) (st : list (Z * Z) * list F) =>
       length st.1 = nf ∧ length st.2 = nf ∧
       ∀ (face : nat) link, face ∈ pre → nodes_at_link g !! face = Some link →
         edge_uses (nodes_at_patch g) (edge_key link) = 2%nat).
  set (Q := fun x => ∃ (face : nat) link, (face < nf)%nat ∧
        nodes_at_link g !! face = Some link ∧
        ((x = TypeError ∧ edge_uses (nodes_at_patch g) (edge_key link) = 1%nat) ∨
         (x = KeyError ∧ edge_uses (nodes_at_patch g) (edge_key link) = 0%nat))).
  assert (P [] (replicate nf (0, 0), replicate nf f0)) as H0.
  { unfold P. simpl. rewrite !length_replicate. do 2 (split; [done|]).
    intros face link Hf. inversion Hf. }
  assert (∀ pre x post s1, seq 0 nf = pre ++ x :: post → P pre s1 →
            match face_body g d s1 x with
            | Ok s2 => P (pre ++ [x]) s2
            | Raise e => Q e
            end) as Hstep.
  { intros pre x post [caf lof] Hx%seq_item (Hl1 & Hl2 & IH). simpl in Hl1, Hl2.
    destruct (lookup_lt_is_Some_2 (nodes_at_link g) x) as [link Hlink]; [lia|].
    unfold face_body. rewrite (getitem_nat _ _ _ Hlink), ret_bind. cbv beta zeta.
    fold (edge_key link).
    pose proof (dict_inv_lookup _ _ (edge_key link) Hinv) as Hd.
    rewrite (registrations_uses g _ Hnp) in Hd.
    destruct (d !! edge_key link) as [[i|c0 c1]|].
    - exists x, link. do 2 (split; [done|]). by left.
    - destruct Hd as (Huses & i & j & Hi & Hj & -> & ->).
      apply registrations_elem in Hi as (pi & ti & Hpi & -> & _ & _).
      apply registrations_elem in Hj as (pj & tj & Hpj & -> & _ & _).
      apply elem_of_seq in Hpi, Hpj. simpl.
      assert (np.setitem caf (Z.of_nat x) (Z.of_nat pj `min` Z.of_nat pi,
                                          Z.of_nat pj `max` Z.of_nat pi)
              = Ok (<[x := (Z.of_nat pj `min` Z.of_nat pi,
                            Z.of_nat pj `max` Z.of_nat pi)]> caf)) as ->.
      { apply setitem_Ok. exists x. split; [|done]. apply index_nat. lia. }
      rewrite ret_bind; cbv beta.
      replace (Z.of_nat pj `min` Z.of_nat pi) with (Z.of_nat (pj `min` pi)) by lia.
      replace (Z.of_nat pj `max` Z.of_nat pi) with (Z.of_nat (pj `max` pi)) by lia.
      destruct (lookup_lt_is_Some_2 (coords_of_corner g) (pj `min` pi))
        as [q0 Hq0]; [lia|].
      destruct (lookup_lt_is_Some_2 (coords_of_corner g) (pj `max` pi))
        as [q1 Hq1]; [lia|].
      rewrite (getitem_nat _ _ _ Hq0), ret_bind; cbv beta.
      rewrite (getitem_nat _ _ _ Hq1), ret_bind; cbv beta.
      assert (∀ v, np.setitem lof (Z.of_nat x) v = Ok (<[x := v]> lof)) as Es.
      { intros v. apply setitem_Ok. exists x. split; [|done]. apply index_nat. lia. }
      rewrite Es, ret_bind; cbv beta. unfold P. simpl. rewrite !length_insert.
      do 2 (split; [done|]).
      intros face link' [Hf| ->%list_elem_of_singleton]%elem_of_app Hl'.
      + by eapply IH.
      + by simplify_eq.
    - exists x, link. do 2 (split; [done|]). by right. }
  pose proof (for_each_cases _ P Q _ _ H0 Hstep) as Hc.
  destruct (for_each (face_body g d) (seq 0 nf) _) as [st|x]; [|exact Hc].
  destruct Hc as (_ & _ & Hc). intros face link Hf Hl.
  apply (Hc face link); [|done]. apply elem_of_seq. lia.
Qed.

(** [setup_faces] as a whole. *)
Lemma setup_faces_cases g :
  faces_ready g →
  match setup_faces g with
  | Ok g' =>
      (∀ k, (edge_uses (nodes_at_patch g) k ≤ 2)%nat) ∧
      ∀ (face : nat) link, (face < number_of_links g)%nat →
        nodes_at_link g !! face = Some link →
        edge_uses (nodes_at_patch g) (edge_key link) = 2%nat
  | Raise e =>
      (e = TypeError ∧ ∃ k, (2 < edge_uses (nodes_at_patch g) k)%nat) ∨
      ((∀ k, (edge_uses (nodes_at_patch g) k ≤ 2)%nat) ∧
       ∃ (face : nat) link, (face < number_of_links g)%nat ∧
         nodes_at_link g !! face = Some link ∧
         ((e = TypeError ∧ edge_uses (nodes_at_patch g) (edge_key link) = 1%nat) ∨
          (e = KeyError ∧ edge_uses (nodes_at_patch g) (edge_key link) = 0%nat)))
  end.
Proof.
  intros Hready. pose proof Hready as (Hnp & Hcc & Hnl).
  pose proof (patches_at_node_pair_cases g) as H1.
  rewrite Hnp in H1 at 1. specialize (H1 (Nat.le_refl _)).
  assert (∀ k, uses_in (registrations g (seq 0 (number_of_patches g))) k
               = edge_uses (nodes_at_patch g) k)
    as Huses by (intros k; by apply registrations_uses).
  unfold setup_faces. cbv zeta.
  destruct (patches_at_node_pair g) as [d|x] eqn:Ed.
  - rewrite ret_bind; cbv beta.
    pose proof (face_loop_cases g d Hready H1) as H2.
    assert (∀ k, (edge_uses (nodes_at_patch g) k ≤ 2)%nat) as Hle.
    { intros k. rewrite <- Huses. by eapply dict_inv_uses. }
    destruct (for_each (face_body g d) _ _) as [st|x].
    + rewrite ret_bind; cbv beta. by split.
    + rewrite raise_bind. right. by split.
  - rewrite raise_bind. destruct H1 as [-> [k Hk]]. rewrite Huses in Hk.
    left. split; [done|]. by exists k.
Qed.

(** X6.  On a graph whose tables have the announced lengths,
    [setup_faces] returns exactly when no pair of nodes is joined by more
    than two patch edges and the two nodes of every link are joined by
    exactly two.  A pair joined by more than two patch edges makes it raise
    [TypeError]; it raises [TypeError] only when some pair is joined by more
    than two patch edges or by one, and [KeyError] only when some link lies
    on no patch edge. *)
Theorem setup_faces_returns g :
  faces_ready g →
  let uses := edge_uses (nodes_at_patch g) in
  ((∃ g', setup_faces g = Ok g') ↔
   (∀ k, (uses k ≤ 2)%nat) ∧
   ∀ (face : nat) link, (face < number_of_links g)%nat →
     nodes_at_link g !! face = Some link → uses (edge_key link) = 2%nat) ∧
  ((∃ k, (2 < uses k)%nat) → setup_faces g = Raise TypeError) ∧
  ∀ e, setup_faces g = Raise e →
    (e = TypeError ∧ ∃ k, (2 < uses k)%nat ∨ uses k = 1%nat) ∨
    (e = KeyError ∧
     ∃ (face : nat) link, (face < number_of_links g)%nat ∧
       nodes_at_link g !! face = Some link ∧ uses (edge_key link) = 0%nat).
Proof.
  intros Hready uses. pose proof (setup_faces_cases g Hready) as Hc.
  fold uses in Hc. destruct (setup_faces g) as [g'|e].
  - destruct Hc as [Hle Hl]. split; [split|split].
    + intros _. by split.
    + intros _. by eexists.
    + intros [k Hk]. specialize (Hle k). lia.
    + intros e [=].
  - split; [split|split].
    + intros [g' [=]].
    + intros [Hle Hl]. exfalso.
      destruct Hc as [[_ [k Hk]]|[_ (face & link & Hf & Hlk & Hx)]].
      * specialize (Hle k). lia.
      * specialize (Hl face link Hf Hlk). destruct Hx as [[_ ?]|[_ ?]]; lia.
    + intros [k Hk].
      destruct Hc as [[-> _]|[Hle _]]; [done|]. specialize (Hle k). lia.
    + intros e' [= <-].
      destruct Hc as [[-> [k Hk]]|[_ (face & link & Hf & Hlk & [[-> Hu]|[-> Hu]])]].
      * left. split; [done|]. exists k. by left.
      * left. split; [done|]. exists (edge_key link). by right.
      * right. split; [done|]. by exists face, link.
Qed.

End FacesReturn.

(** ** setup_cells returns *)

Section CellsReturn.
Context {beyond_int64 : RowBeyondInt64}.
Context {F : Type} `{!Numeric F, !AreaOfSphertri F}.
Implicit Types g : Graph F.

Lemma amin_Raise (row : list Z) e : np.amin row = Raise e → row = [].
Proof. by destruct row. Qed.

Lemma cell_body_Raise g areas (cell : nat) e :
  cell_body g areas cell = Raise e → e = IndexError.
Proof.
  unfold cell_body. intros H.
  apply bind_Raise in H as [H|(p0 & _ & H)]; [by eapply getitem_Raise|].
  apply bind_Raise in H as [H|(row & Hrow & H)]; [by eapply getitem_Raise|].
  apply bind_Raise in H as [H|(c0 & Hc0 & H)]; [by eapply getitem_Raise|].
  apply bind_Raise in H as [H|(p1 & _ & H)]; [by eapply getitem_Raise|].
  apply bind_Raise in H as [H|(row' & Hrow' & H)]; [by eapply getitem_Raise|].
  apply bind_Raise in H as [H|(c1 & _ & H)]; [by eapply getitem_Raise|].
  apply bind_Raise in H as [H|(p2 & _ & H)]; [by eapply getitem_Raise|].
  apply bind_Raise in H as [H|(row'' & Hrow'' & H)]; [by eapply getitem_Raise|].
  apply bind_Raise in H as [H|(m & _ & H)]; [|by eapply setitem_Raise].
  apply amin_Raise in H. subst row''.
  assert (row = []) as -> by congruence.
  apply getitem_elem_of in Hc0. inversion Hc0.
Qed.

Lemma cell_body_total g areas (cell : nat) :
  cells_ready g → coords_of_corner g ≠ [] →
  (cell < number_of_nodes g)%nat → length areas = number_of_nodes g →
  ∃ areas', cell_body g areas cell = Ok areas'.
Proof.
  intros (Hcn & Hcan & Hrows) Hne Hcell Hla.
  assert (0 < length (coords_of_corner g))%nat as Hnp.
  { destruct (coords_of_corner g); [done | simpl; lia]. }
  destruct (lookup_lt_is_Some_2 (coords_of_node g) cell) as [p0 Hp0]; [lia|].
  destruct (lookup_lt_is_Some_2 (corners_at_node g) cell) as [row Hrow]; [lia|].
  assert (corner_row (length (coords_of_corner g)) row) as Hcr.
  { rewrite Forall_forall in Hrows. by eapply Hrows, list_elem_of_lookup_2. }
  destruct (corner_row_entry _ _ 0 Hcr Hnp) as (c0 & Hc0 & Hv0); [lia|].
  destruct (corner_row_entry _ _ 1 Hcr Hnp) as (c1 & Hc1 & Hv1); [lia|].
  destruct (getitem_valid _ _ Hv0) as [p1 Hp1].
  destruct (getitem_valid _ _ Hv1) as [p2 Hp2].
  assert (np.getitem row 0 = Ok c0) as E0 by apply (getitem_nat row 0 _ Hc0).
  assert (np.getitem row 1 = Ok c1) as E1 by apply (getitem_nat row 1 _ Hc1).
  assert (∃ m, np.amin row = Ok m) as [m Em].
  { destruct row as [|x row]; [done|]. by eexists. }
  unfold cell_body.
  rewrite (getitem_nat _ _ _ Hp0), (getitem_nat _ _ _ Hrow).
  repeat (first [rewrite ret_bind | rewrite E0 | rewrite E1 | rewrite Hp1
                | rewrite Hp2 | rewrite Em]; cbv beta zeta).
  eexists. apply setitem_Ok. exists cell. split; [|done]. apply index_nat. lia.
Qed.

Lemma setup_cells_total g :
  cells_ready g → number_of_nodes g = 0%nat ∨ coords_of_corner g ≠ [] →
  ∃ g', setup_cells g = Ok g'.
Proof.
  intros Hready Hne. unfold setup_cells. cbv zeta.
  destruct (for_each_total (cell_body g)
    (fun _ areas => length areas = number_of_nodes g)
    (seq 0 (number_of_nodes g)) (replicate (number_of_nodes g) f0))
    as (areas & -> & _); [by rewrite length_replicate | | by eexists].
  intros pre x post a1 Hx%seq_item Hla.
  destruct Hne as [Hn|Hne]; [lia|].
  destruct (cell_body_total g a1 x Hready Hne Hx Hla) as [a2 E].
  exists a2. split; [done|].
  apply cell_body_Ok in E as (v & _ & _ & ->). by rewrite length_insert.
Qed.

Lemma setup_cells_needs g g' :
  setup_cells g = Ok g' → number_of_nodes g = 0%nat ∨ coords_of_corner g ≠ [].
Proof.
  intros [_ H]%setup_cells_areas.
  destruct (number_of_nodes g) as [|n] eqn:E; [by left|]. right.
  destruct (H 0%nat) as (v & _ & Hv); [lia|].
  destruct Hv as (p0 & row & c0 & c1 & p1 & p2 & m & _ & _ & _ & _ & Hp1 & _).
  apply getitem_elem_of in Hp1. intros Hnil. rewrite Hnil in Hp1. inversion Hp1.
Qed.

Lemma setup_cells_Raise g e : setup_cells g = Raise e → e = IndexError.
Proof.
  unfold setup_cells. intros [H|(t & _ & H)]%bind_Raise; [|done].
  eapply for_each_raises; [|exact H]. intros s x e'. apply cell_body_Raise.
Qed.

(** X7.  On a graph whose rows of [corners_at_node] hold corner numbers
    followed by the sentinel, [setup_cells] returns exactly when there is a
    corner, or no node at all: a sentinel in one of the first two slots of a
    row is read as the index -1, the last corner, and only an empty
    [coords_of_corner] makes that fail.  Any exception is [IndexError]. *)
Theorem setup_cells_returns g :
  cells_ready g →
  ((∃ g', setup_cells g = Ok g') ↔
   number_of_nodes g = 0%nat ∨ coords_of_corner g ≠ []) ∧
  ∀ e, setup_cells g = Raise e → e = IndexError.
Proof.
  intros Hready. split; [split|].
  - intros [g' H]. by eapply setup_cells_needs.
  - by apply setup_cells_total.
  - intros e. apply setup_cells_Raise.
Qed.

End CellsReturn.

(** ** Closed meshes *)

Lemma edges_patch_edges (fs : list (Z * Z * Z)) (e : Z * Z) :
  e ∈ edges fs ↔ e ∈ fs ≫= patch_edges.
Proof.
  unfold edges. rewrite !list_elem_of_bind.
  split; intros ([[a b] c] & He & Ht); exists (a, b, c); (split; [|done]);
    simpl in *; set_unfold; tauto.
Qed.

Lemma link_in_edges (fs : list (Z * Z * Z)) (l : Z * Z) :
  l ∈ (register_links fs).*2 → l ∈ edges fs.
Proof. apply registry_values, register_links_registry. Qed.

Lemma edge_uses_pos (fs : list (Z * Z * Z)) (e : Z * Z) :
  e ∈ fs ≫= patch_edges → (0 < edge_uses fs (edge_key e))%nat.
Proof.
  intros He. unfold edge_uses.
  assert (e ∈ filter (fun e' => edge_key e' = edge_key e) (fs ≫= patch_edges)) as H.
  { by apply list_elem_of_filter. }
  destruct (filter _ _); [inversion H | simpl; lia].
Qed.

Lemma link_uses_pos (fs : list (Z * Z * Z)) (l : Z * Z) :
  l ∈ (register_links fs).*2 → (0 < edge_uses fs (edge_key l))%nat.
Proof. intros Hl. by apply edge_uses_pos, edges_patch_edges, link_in_edges. Qed.

Lemma edges_valid n (fs : list (Z * Z * Z)) (e : Z * Z) :
  Forall (valid_triangle n) fs → e ∈ edges fs →
  valid_index n e.1 ∧ valid_index n e.2.
Proof.
  intros Hv (t & He & Ht)%list_elem_of_bind. rewrite Forall_forall in Hv.
  destruct (Hv t Ht) as (Ha & Hb & Hc). destruct t as [[a b] c]. simpl in *.
  set_unfold. destruct He as [->|[->|[->|[]]]]; done.
Qed.

Lemma links_valid n fs :
  Forall (valid_triangle n) fs →
  Forall (fun l => valid_index n l.1 ∧ valid_index n l.2) (register_links fs).*2.
Proof.
  intros Hv. apply Forall_forall. intros l Hl.
  by apply (edges_valid n fs), link_in_edges.
Qed.

Lemma length_patch_edges (fs : list (Z * Z * Z)) :
  length (fs ≫= patch_edges) = (3 * length fs)%nat.
Proof.
  induction fs as [|[[a b] c] fs IH]; [done|]. csimpl. rewrite IH. lia.
Qed.

Lemma sum_key_indicator {K} `{EqDecision K} (ks : list K) (x : K) :
  NoDup ks →
  sum_list ((fun k => if decide (x = k) then 1 else 0)%nat <$> ks)
  = if decide (x ∈ ks) then 1%nat else 0%nat.
Proof.
  induction 1 as [|k ks Hk _ IH].
  - rewrite decide_False; [done|]. by intros ?%elem_of_nil.
  - rewrite fmap_cons. simpl. rewrite IH.
    destruct (decide (x = k)) as [->|Hne].
    + rewrite (decide_False (P := k ∈ ks)) by done.
      by rewrite decide_True by by left.
    + destruct (decide (x ∈ ks)) as [Hin|Hnin].
      * by rewrite decide_True by by right.
      * rewrite decide_False; [done|]. by intros [?|?]%elem_of_cons.
Qed.

(** Keys that are pairwise different count different items. *)
Lemma sum_uses {A K} `{EqDecision K} (key : A -> K) (ks : list K) (l : list A) :
  NoDup ks →
  sum_list ((fun k => length (filter (fun e => key e = k) l)) <$> ks)
  = length (filter (fun e => key e ∈ ks) l).
Proof.
  intros Hnd. induction l as [|e l IH].
  - induction ks as [|k ks IHk]; [done|]. csimpl. apply NoDup_cons in Hnd as [_ ?].
    by apply IHk.
  - rewrite (list_fmap_ext _
      (fun k => (if decide (key e = k) then 1 else 0)
                + length (filter (fun e => key e = k) l))%nat).
    2: { intros _ k _. rewrite filter_cons. by case_decide. }
    rewrite sum_list_fmap_add, IH, sum_key_indicator, filter_cons by done.
    by case_decide.
Qed.

Lemma sum_list_const {A} (f : A -> nat) (c : nat) (l : list A) :
  Forall (fun x => f x = c) l → sum_list (f <$> l) = (c * length l)%nat.
Proof. induction 1 as [|x l Hx _ IH]; csimpl; [lia|]. rewrite Hx, IH. lia. Qed.

Lemma link_key_inj_signed (e e' : Z * Z) :
  fits_signed e.1 → fits_signed e.2 → fits_signed e'.1 → fits_signed e'.2 →
  link_key e.1 e.2 = link_key e'.1 e'.2 → same_pair e e'.
Proof.
  unfold fits_signed, link_key, same_pair. rewrite !Z.shiftl_mul_pow2 by lia.
  change (2 ^ 32) with 4294967296. change (2 ^ 31) with 2147483648. lia.
Qed.

(** Different links join different pairs of nodes. *)
Lemma link_edge_keys_NoDup (fs : list (Z * Z * Z)) :
  NoDup (edge_key <$> (register_links fs).*2).
Proof.
  pose proof (register_links_registry fs) as (Hkeys & Hnd & _).
  rewrite Forall_forall in Hkeys.
  apply NoDup_alt. intros i j k Hi Hj.
  rewrite !list_lookup_fmap in Hi, Hj.
  destruct (register_links fs !! i) as [kl|] eqn:Ei; [|done].
  destruct (register_links fs !! j) as [kl'|] eqn:Ej; [|done].
  simpl in Hi, Hj. injection Hi as Hi. injection Hj as Hj.
  eapply NoDup_lookup; [exact Hnd | |].
  - rewrite list_lookup_fmap, Ei. done.
  - rewrite list_lookup_fmap, Ej. simpl. f_equal.
    rewrite (Hkeys kl), (Hkeys kl') by by eapply list_elem_of_lookup_2.
    symmetry. apply (link_key_same kl.2 kl'.2), edge_key_pair. congruence.
Qed.

(** What the links of a closed mesh count: two patch edges each. *)
Lemma closed_mesh_sum (fs : list (Z * Z * Z)) :
  closed_mesh fs →
  (2 * length (register_links fs).*2
   = length (filter (fun e => edge_key e ∈ edge_key <$> (register_links fs).*2)
               (fs ≫= patch_edges)))%nat.
Proof.
  intros Hclosed.
  rewrite <- (sum_uses edge_key) by apply link_edge_keys_NoDup.
  rewrite (sum_list_const _ 2); [by rewrite !length_fmap|].
  apply Forall_fmap, Forall_forall. intros l Hl%link_uses_pos. simpl.
  fold (edge_uses fs (edge_key l)). destruct (Hclosed (edge_key l)); [lia | done].
Qed.

(** A closed mesh has no more than three links for every two patches. *)
Lemma closed_mesh_links (fs : list (Z * Z * Z)) :
  closed_mesh fs →
  (length (register_links fs).*2 ≤ 3 * length fs / 2)%nat.
Proof.
  intros Hsum%closed_mesh_sum.
  pose proof (length_filter (fun e => edge_key e ∈ edge_key <$> (register_links fs).*2)
                (fs ≫= patch_edges)) as Hle.
  rewrite length_patch_edges in Hle. apply Nat.div_le_lower_bound; lia.
Qed.

(** On fewer than 2^31 nodes every patch edge is one of the links. *)
Lemma edge_is_link n (fs : list (Z * Z * Z)) (e : Z * Z) :
  Z.of_nat n ≤ 2 ^ 31 → Forall (valid_triangle n) fs → e ∈ edges fs →
  ∃ l, l ∈ (register_links fs).*2 ∧ edge_key l = edge_key e.
Proof.
  intros Hsize Hvalid He.
  assert (∀ e', e' ∈ edges fs → fits_signed e'.1 ∧ fits_signed e'.2) as Hfit.
  { intros e' He'. destruct (edges_valid n fs e' Hvalid He') as [H1 H2].
    unfold valid_index, fits_signed in *.
    change (2 ^ 31) with 2147483648 in *. lia. }
  destruct (register_links_registry fs) as (Hkeys & _ & Hcov & _).
  pose proof (Hcov e He) as (kl & Hkl & Hin)%list_elem_of_fmap.
  rewrite Forall_forall in Hkeys. rewrite (Hkeys kl Hin) in Hkl.
  assert (kl.2 ∈ (register_links fs).*2) as Hl
    by (apply list_elem_of_fmap; eauto).
  exists kl.2. split; [done|].
  destruct (Hfit e He) as [? ?].
  destruct (Hfit kl.2 (link_in_edges _ _ Hl)) as [? ?].
  symmetry. apply edge_key_pair. by apply link_key_inj_signed.
Qed.

Lemma filter_all {A} (P : A -> Prop) `{!∀ x, Decision (P x)} (l : list A) :
  Forall P l → filter P l = l.
Proof.
  induction 1 as [|x l Hx _ IH]; [done|]. by rewrite filter_cons_True, IH.
Qed.

(** In a closed mesh on fewer than 2^31 nodes, twice the number of links
    is three times the number of patches. *)
Lemma closed_mesh_link_count n (fs : list (Z * Z * Z)) :
  Z.of_nat n ≤ 2 ^ 31 → Forall (valid_triangle n) fs → closed_mesh fs →
  (2 * length (register_links fs).*2 = 3 * length fs)%nat.
Proof.
  intros Hsize Hvalid Hsum%closed_mesh_sum. rewrite Hsum.
  rewrite <- length_patch_edges. f_equal. apply filter_all.
  apply Forall_forall. intros e He%edges_patch_edges.
  destruct (edge_is_link n fs e Hsize Hvalid He) as (l & Hl & Hk).
  rewrite <- Hk. apply list_elem_of_fmap. eauto.
Qed.

(** ** Indices beyond 64 bits *)

(** A pair with an end of 2^63 or more has the key of a pair of indices of
    32 bits only if its other end is negative. *)
Lemma link_key_beyond (x y u m : Z) :
  fits_signed x → fits_signed y → 2 ^ 63 ≤ m →
  link_key x y = link_key u m ∨ link_key x y = link_key m u → u < 0.
Proof.
  unfold fits_signed, link_key. rewrite !Z.shiftl_mul_pow2 by lia.
  change (2 ^ 32) with 4294967296. change (2 ^ 31) with 2147483648.
  change (2 ^ 63) with 9223372036854775808. lia.
Qed.

(** The key of every triangle edge is the key of a link. *)
Lemma registered_key (fs : list (Z * Z * Z)) (e : Z * Z) :
  e ∈ edges fs →
  ∃ l, l ∈ (register_links fs).*2 ∧ link_key l.1 l.2 = link_key e.1 e.2.
Proof.
  intros He. destruct (register_links_registry fs) as (Hkeys & _ & Hcov & _).
  pose proof (Hcov e He) as (kl & Hkl & Hin)%list_elem_of_fmap.
  rewrite Forall_forall in Hkeys. rewrite (Hkeys kl Hin) in Hkl.
  exists kl.2. split; [apply list_elem_of_fmap; eauto | done].
Qed.

(** Among no more than 2^63 nodes a triangle of node indices fits 64 bits. *)
Lemma valid_triangle_int64 n (t : Z * Z * Z) :
  Z.of_nat n ≤ 2 ^ 63 → valid_triangle n t → int64_row t.
Proof.
  unfold valid_triangle, valid_index, int64_row, np.is_int64. lia.
Qed.

Lemma valid_triangles_int64 n (fs : list (Z * Z * Z)) :
  Z.of_nat n ≤ 2 ^ 63 → Forall (valid_triangle n) fs → Forall int64_row fs.
Proof.
  intros Hn Hv. eapply Forall_impl; [done|]. intros t. by apply valid_triangle_int64.
Qed.

(** If the links of the triangles join nodes, fewer than 2^31 of them, then
    a triangle whose stored row names nodes fits 64 bits: an index of 2^63 or
    more shares its edges, and so the key of a link, with a negative index,
    and next to a negative index it is not stored as the index of a node. *)
Lemma stored_triangle_int64 `{!RowBeyondInt64} n (fs : list (Z * Z * Z)) t t' :
  Z.of_nat n ≤ 2 ^ 31 →
  Forall (fun l => valid_index n l.1 ∧ valid_index n l.2) (register_links fs).*2 →
  t ∈ fs → as_int64_row t = Ok t' → valid_triangle n t' → int64_row t.
Proof.
  intros Hn Hlinks Ht Hst Hv.
  destruct (decide (int64_row t)) as [|Hbig]; [done|]. exfalso.
  unfold as_int64_row in Hst. rewrite bool_decide_false in Hst by done.
  assert (∀ u m, (u, m) ∈ edges fs ∨ (m, u) ∈ edges fs → 2 ^ 63 ≤ m → u < 0)
    as Hneg.
  { intros u m He Hm. rewrite Forall_forall in Hlinks.
    assert (∃ l, l ∈ (register_links fs).*2 ∧
                 (link_key l.1 l.2 = link_key u m ∨
                  link_key l.1 l.2 = link_key m u)) as (l & Hl & Hk).
    { destruct He as [He|He]; destruct (registered_key fs _ He) as (l & Hl & Hk);
        exists l; simpl in Hk; auto. }
    destruct (Hlinks l Hl) as [H1 H2].
    apply (link_key_beyond l.1 l.2 u m); [| |done..];
      unfold valid_index, fits_signed in *; lia. }
  assert (∀ e, e ∈ triangle_edges t → e ∈ edges fs) as Hedge.
  { intros e He. unfold edges. apply list_elem_of_bind. eauto. }
  pose proof (row_beyond_int64_float t t' Hst) as Hfloat.
  destruct t as [[a b] c]. simpl in *.
  assert ((a, b) ∈ edges fs ∧ (b, c) ∈ edges fs ∧ (c, a) ∈ edges fs)
    as (Hab & Hbc & Hca).
  { split; [|split]; apply Hedge; simpl;
      [by left | right; by left | right; right; by left]. }
  pose proof (Hneg b a (or_intror Hab)) as Ha.
  pose proof (Hneg a b (or_introl Hab)) as Hb.
  pose proof (Hneg a c (or_intror Hca)) as Hc.
  assert (a < 0 ∨ b < 0 ∨ c < 0) as Hsign.
  { unfold int64_row, np.is_int64 in Hbig. simpl in Hbig. lia. }
  destruct (Hfloat Hsign) as (Fa & Fb & Fc).
  destruct Hv as (Va & Vb & Vc).
  unfold int64_row, np.is_int64, beyond_index, valid_index in *. simpl in *.
  change (2 ^ 31) with 2147483648 in Hn.
  change (2 ^ 62) with 4611686018427387904 in *.
  change (2 ^ 63) with 9223372036854775808 in *. lia.
Qed.

(** ** __init__ returns *)

Section InitReturn.
Context {beyond_int64 : RowBeyondInt64}.
Context {F : Type} `{!Numeric F, !ArcLength F, !CartesianToSpherical F,
                     !RotateZY F, !AreaOfSphertri F}.
Implicit Types g : Graph F.

(** If the link loop and the patch loop both return on fewer than 2^31
    nodes, every index of the triangles fits 64 bits. *)
Lemma stages_int64 fs g g2 g3 :
  Z.of_nat (number_of_nodes g) ≤ 2 ^ 31 →
  setup_links fs g = Ok g2 → setup_patch_tables fs g2 = Ok g3 →
  Forall int64_row fs.
Proof.
  intros Hn H2 H3.
  pose proof (setup_links_needs _ _ _ H2) as (_ & Hlinks & _).
  assert (number_of_nodes g2 = number_of_nodes g) as En
    by (clear -H2; builder_inv H2; done).
  destruct (setup_patch_tables_exact _ _ _ H3) as (Hv & Hrows & _).
  rewrite En in Hv. clear H3.
  apply Forall_forall. intros t [i Hi]%list_elem_of_lookup.
  destruct (Forall2_lookup_l _ _ _ i t Hrows Hi) as (t' & Hi' & Hst).
  eapply stored_triangle_int64; [exact Hn | exact Hlinks | | exact Hst |].
  - by eapply list_elem_of_lookup_2.
  - rewrite Forall_forall in Hv. by eapply Hv, list_elem_of_lookup_2.
Qed.

(** The same of the two calls of [__init__]. *)
Lemma stages_int64' fs g g2 g5 :
  Z.of_nat (number_of_nodes g) ≤ 2 ^ 31 →
  setup_links fs g = Ok g2 → setup_patches_and_corners fs g2 = Ok g5 →
  Forall int64_row fs.
Proof.
  intros Hn H2 H5. unfold setup_patches_and_corners in H5.
  bind_inv H5 as g3 H3. by eapply stages_int64.
Qed.

(** On triangles of 64 bits [nodes_at_patch] holds the triangles. *)
Lemma patches_stage fs g2 g5 :
  Forall int64_row fs → setup_patches_and_corners fs g2 = Ok g5 →
  nodes_at_patch g5 = fs.
Proof.
  intros Hfs H5.
  destruct (setup_patches_and_corners_frame _ _ _ H5) as (_ & _ & Hrows & _).
  by apply stored_rows_eq.
Qed.

(** The graph after [setup_links] on a new object. *)
Lemma links_stage r vs fs g2 :
  setup_links fs (setup_nodes vs (new_graph r)) = Ok g2 →
  cache_ok g2 ∧ coords_of_node g2 = vs ∧ number_of_nodes g2 = length vs ∧
  number_of_links g2 = length (register_links fs).*2 ∧
  nodes_at_link g2
  = (register_links fs).*2
    ++ replicate (3 * length fs / 2 - length (register_links fs).*2) (0, 0).
Proof.
  intros H. destruct (setup_links_rows _ _ _ H) as (Hnal & Hn & _).
  split; [|split; [|split; [|done]]].
  - clear -H. builder_inv H. split; by left.
  - clear -H. builder_inv H. done.
  - clear -H. builder_inv H. done.
Qed.

Lemma faces_stage g5 g6 :
  setup_faces g5 = Ok g6 →
  number_of_nodes g6 = number_of_nodes g5 ∧
  coords_of_node g6 = coords_of_node g5 ∧
  corners_at_node g6 = corners_at_node g5 ∧
  coords_of_corner g6 = coords_of_corner g5 ∧
  nodes_at_link g6 = nodes_at_link g5 ∧ length_of_link g6 = length_of_link g5.
Proof. intros H. builder_inv H. done. Qed.

Lemma faces_ready_stage r vs fs g2 g5 :
  setup_links fs (setup_nodes vs (new_graph r)) = Ok g2 →
  setup_patches_and_corners fs g2 = Ok g5 → faces_ready g5.
Proof.
  intros H2 H5.
  destruct (links_stage _ _ _ _ H2) as (_ & _ & _ & Enl2 & Enal2).
  pose proof (setup_links_needs _ _ _ H2) as (Hrows & _).
  destruct (setup_patches_and_corners_frame _ _ _ H5)
    as (_ & _ & Enp & Ep & _ & Elc & Enal & Enl & _).
  unfold faces_ready.
  rewrite <- (Forall2_length _ _ _ Enp), Ep, Elc, Enal, Enl, Enal2, Enl2.
  do 2 (split; [done|]). rewrite length_app. lia.
Qed.

(** The link that [nodes_at_link] holds in a row below [number_of_links]. *)
Lemma stage_link r vs fs g2 g5 (face : nat) link :
  setup_links fs (setup_nodes vs (new_graph r)) = Ok g2 →
  setup_patches_and_corners fs g2 = Ok g5 →
  (face < number_of_links g5)%nat → nodes_at_link g5 !! face = Some link →
  (register_links fs).*2 !! face = Some link.
Proof.
  intros H2 H5 Hf Hl.
  destruct (links_stage _ _ _ _ H2) as (_ & _ & _ & Enl2 & Enal2).
  destruct (setup_patches_and_corners_frame _ _ _ H5)
    as (_ & _ & _ & _ & _ & _ & Enal & Enl & _).
  rewrite Enal, Enal2 in Hl. rewrite Enl, Enl2 in Hf.
  by rewrite lookup_app_l in Hl.
Qed.

(** What the link loop raises: [OverflowError] only on triangles with an
    index beyond 64 bits. *)
Lemma links_loop_raises fs g e :
  setup_links fs g = Raise e →
  e = IndexError ∨ (e = OverflowError ∧ ¬ Forall int64_row fs).
Proof.
  intros [->|[-> (l & Hl & Hbig)]]%setup_links_Raise; [by left|]. right.
  split; [done|]. intros Hfs.
  apply link_in_edges in Hl. unfold edges in Hl.
  apply list_elem_of_bind in Hl as (t & Hl & Ht).
  rewrite Forall_forall in Hfs. specialize (Hfs t Ht).
  destruct t as [[a b] c]. destruct Hfs as (Ha & Hb & Hc). simpl in *.
  set_unfold. destruct Hl as [->|[->|[->|[]]]]; simpl in *; tauto.
Qed.

Lemma init_total r vs fs :
  (∀ a, is_argsort flt a (argsort a)) →
  Z.of_nat (length vs) ≤ 2 ^ 63 →
  buildable (length vs) fs → ∃ g, init r vs fs = Ok g.
Proof.
  intros Hargsort Hsize (Hvalid & Hclosed & Hdeg & Hcor & Hne).
  pose proof (valid_triangles_int64 _ _ Hsize Hvalid) as Hfs.
  unfold init.
  destruct (setup_links_total fs (setup_nodes vs (new_graph r))) as [g2 H2];
    [done | by apply closed_mesh_links | by apply links_valid | | done |].
  { eapply Forall_impl; [by apply links_valid|]. intros l [H1 H2]. simpl in *.
    unfold valid_index, np.is_int64 in *. lia. }
  rewrite H2, ret_bind; cbv beta.
  destruct (links_stage _ _ _ _ H2) as (Hc2 & Ec2 & En2 & Enl2 & Enal2).
  assert (length (coords_of_node g2) = number_of_nodes g2) as Hcn2
    by by rewrite Ec2, En2.
  pose proof (setup_patches_and_corners_cases fs g2 Hargsort Hc2 Hcn2) as Hc5.
  destruct (setup_patches_and_corners fs g2) as [g5|e] eqn:H5.
  2: { destruct Hc5 as [_ []]. by rewrite En2. }
  rewrite ret_bind; cbv beta. destruct Hc5 as [Hs5 _].
  pose proof (faces_ready_stage _ _ _ _ _ H2 H5) as Hready.
  pose proof (patches_stage _ _ _ Hfs H5) as Enp5.
  destruct (setup_patches_and_corners_frame _ _ _ H5)
    as (En5 & Ec5 & _ & _ & _ & Elc5 & _).
  pose proof (setup_faces_cases g5 Hready) as Hc6. rewrite Enp5 in Hc6.
  destruct (setup_faces g5) as [g6|e] eqn:H6.
  2: { exfalso. destruct Hc6 as [[_ [k Hk]]|[_ (face & link & Hf & Hl & Hx)]].
       - destruct (Hclosed k); lia.
       - pose proof (stage_link _ _ _ _ _ _ _ H2 H5 Hf Hl) as Hin.
         apply list_elem_of_lookup_2, link_uses_pos in Hin.
         destruct (Hclosed (edge_key link)), Hx as [[_ ?]|[_ ?]]; lia. }
  rewrite ret_bind; cbv beta.
  destruct (faces_stage _ _ H6) as (En6 & Ec6 & Ecan6 & Ecc6 & _).
  destruct Hs5 as (_ & Hl5 & Hcan5 & Hrows5).
  apply setup_cells_total.
  - unfold cells_ready. by rewrite Ec6, En6, Ecan6, Ecc6.
  - rewrite En6, En5, En2, Ecc6. destruct Hne as [->|Hne]; [by left|]. right.
    intros Hnil. rewrite Hnil in Elc5. by destruct fs.
Qed.

Lemma init_needs r vs fs g :
  Z.of_nat (length vs) ≤ 2 ^ 31 →
  init r vs fs = Ok g → buildable (length vs) fs.
Proof.
  intros Hsize (g2 & g3 & g4 & g5 & g6 & H2 & H3 & H4 & H5 & H6 & H)%init_Ok.
  assert (setup_patches_and_corners fs g2 = Ok g5) as H25.
  { unfold setup_patches_and_corners. by rewrite H3, ret_bind, H4, ret_bind. }
  destruct (links_stage _ _ _ _ H2) as (_ & Ec2 & En2 & Enl2 & Enal2).
  pose proof (setup_links_needs _ _ _ H2) as (_ & _ & Hdeg). simpl in Hdeg.
  pose proof (stages_int64' fs (setup_nodes vs (new_graph r)) _ _ Hsize H2 H25)
    as Hfs.
  pose proof (patches_stage _ _ _ Hfs H25) as Enp.
  destruct (setup_patches_and_corners_needs _ _ _ H25) as [Hvalid Hcor].
  rewrite En2, Enp in Hvalid, Hcor.
  pose proof (faces_ready_stage _ _ _ _ _ H2 H25) as Hready.
  destruct (setup_patches_and_corners_frame _ _ _ H25)
    as (En5 & _ & _ & _ & _ & Elc & _).
  pose proof (setup_faces_cases g5 Hready) as Hc6.
  rewrite H6, Enp in Hc6. destruct Hc6 as [Hle Huses].
  destruct (faces_stage _ _ H6) as (En6 & _ & _ & Ecc6 & _).
  split; [done|]. split; [|split; [done|split; [done|]]].
  - intros k. specialize (Hle k).
    destruct (edge_uses fs k) as [|[|[|u]]] eqn:Eu; [by left | | by right | lia].
    exfalso.
    assert (∃ e, e ∈ fs ≫= patch_edges ∧ edge_key e = k) as (e & He & Hk).
    { unfold edge_uses in Eu.
      destruct (filter (fun e => edge_key e = k) (fs ≫= patch_edges))
        as [|e l] eqn:Ef; [done|].
      assert (e ∈ filter (fun e => edge_key e = k) (fs ≫= patch_edges)) as Hin
        by (rewrite Ef; by left).
      apply list_elem_of_filter in Hin as [? ?]. eauto. }
    apply edges_patch_edges in He.
    destruct (edge_is_link _ fs e Hsize Hvalid He) as (l & Hl & Ek).
    apply list_elem_of_lookup in Hl as [face Hface].
    assert (face < number_of_links g5)%nat as Hlt.
    { destruct (setup_patches_and_corners_frame _ _ _ H25)
        as (_ & _ & _ & _ & _ & _ & _ & -> & _).
      rewrite Enl2. by eapply lookup_lt_Some. }
    specialize (Huses face l Hlt).
    destruct (setup_patches_and_corners_frame _ _ _ H25)
      as (_ & _ & _ & _ & _ & _ & Enal & _).
    rewrite Enal, Enal2, lookup_app_l in Huses by by eapply lookup_lt_Some.
    specialize (Huses Hface). rewrite Ek, Hk in Huses. lia.
  - apply setup_cells_needs in H. rewrite En6, En5, En2, Ecc6 in H.
    destruct H as [?|Hne]; [by left|]. right. intros ->.
    destruct (coords_of_corner g5); done.
Qed.

(** X8.  For an [np.argsort] that returns a rearrangement of the
    positions and fewer than 2^31 vertices, [__init__] returns a graph
    exactly when: every index of the triangles names a vertex; every pair of
    nodes that a triangle edge joins is joined by exactly two; no node has
    more than six link ends or is a vertex of more than six triangles; and
    there is a triangle, or no vertex at all. *)
Theorem constructor_returns (r : F) vs fs :
  (∀ a, is_argsort flt a (argsort a)) →
  Z.of_nat (length vs) ≤ 2 ^ 31 →
  (∃ g, init r vs fs = Ok g) ↔ buildable (length vs) fs.
Proof.
  intros Hargsort Hsize. split.
  - intros [g H]. by eapply init_needs.
  - apply init_total; [done|]. etrans; [exact Hsize | done].
Qed.

(** X9.  For an [np.argsort] that returns a rearrangement of the
    positions, and triangles whose indices fit 64 bits or no more than 2^31
    vertices, [__init__] raises nothing but [IndexError], [OverflowError]
    and [TypeError]: [OverflowError] only for a triangle with an index that
    does not fit 64 bits, and [TypeError] only for a triangle list with a
    boundary or with an edge on more than two triangles.  The [KeyError] of
    [setup_faces] cannot occur, since every link is an edge of a patch. *)
Theorem constructor_raises (r : F) vs fs e :
  (∀ a, is_argsort flt a (argsort a)) →
  Forall int64_row fs ∨ Z.of_nat (length vs) ≤ 2 ^ 31 →
  init r vs fs = Raise e →
  e = IndexError ∨
  (e = OverflowError ∧ ¬ Forall int64_row fs) ∨
  (e = TypeError ∧ ¬ closed_mesh fs).
Proof.
  intros Hargsort Hfs H. unfold init in H.
  apply bind_Raise in H as [H|(g2 & H2 & H)].
  { apply links_loop_raises in H. tauto. }
  destruct (links_stage _ _ _ _ H2) as (Hc2 & Ec2 & En2 & Enl2 & Enal2).
  assert (length (coords_of_node g2) = number_of_nodes g2) as Hcn2
    by by rewrite Ec2, En2.
  apply bind_Raise in H as [H|(g5 & H5 & H)].
  { pose proof (setup_patches_and_corners_cases fs g2 Hargsort Hc2 Hcn2) as Hc.
    rewrite H in Hc. destruct Hc as [[->|[-> ?]] _]; auto. }
  apply bind_Raise in H as [H|(g6 & H6 & H)]; [|left; by eapply setup_cells_Raise].
  assert (Forall int64_row fs) as Hfit.
  { destruct Hfs as [?|Hsize]; [done|].
    exact (stages_int64' fs (setup_nodes vs (new_graph r)) _ _ Hsize H2 H5). }
  pose proof (faces_ready_stage _ _ _ _ _ H2 H5) as Hready.
  pose proof (patches_stage _ _ _ Hfit H5) as Enp.
  pose proof (setup_faces_cases g5 Hready) as Hc. rewrite H, Enp in Hc.
  right; right. destruct Hc as [[-> [k Hk]]|[_ (face & link & Hf & Hl & Hx)]].
  - split; [done|]. intros Hclosed. destruct (Hclosed k); lia.
  - pose proof (stage_link _ _ _ _ _ _ _ H2 H5 Hf Hl) as Hin.
    apply list_elem_of_lookup_2, link_uses_pos in Hin.
    destruct Hx as [[-> Hu]|[_ Hu]]; [|lia].
    split; [done|]. intros Hclosed. destruct (Hclosed (edge_key link)); lia.
Qed.

(** C7, as the code has it.  A triangle that holds an index naming no
    node, at or beyond the number of nodes or below its opposite, makes the
    constructor raise and no graph is returned: [IndexError] when every
    index of the triangles fits 64 bits, [IndexError] or the
    [OverflowError] of an index beyond 64 bits otherwise, on no more than
    2^31 vertices. *)
Theorem out_of_range_index_raises (r : F) vs fs :
  (∃ t v, t ∈ fs ∧ v ∈ [t.1.1; t.1.2; t.2] ∧
     (v < - Z.of_nat (length vs) ∨ Z.of_nat (length vs) ≤ v)) →
  Forall int64_row fs ∨ Z.of_nat (length vs) ≤ 2 ^ 31 →
  init r vs fs = Raise IndexError ∨
  (init r vs fs = Raise OverflowError ∧ ¬ Forall int64_row fs).
Proof.
  intros Hbad Hfs. unfold init, setup_patches_and_corners.
  destruct (setup_links fs (setup_nodes vs (new_graph r))) as [g2|e] eqn:E2.
  - rewrite ret_bind.
    assert (number_of_nodes g2 = length vs) as Hn.
    { by apply setup_links_Ok in E2 as (_ & _ & -> & _). }
    destruct (setup_patch_tables fs g2) as [g3|e] eqn:E3.
    + exfalso.
      assert (Forall int64_row fs) as Hfit.
      { destruct Hfs as [?|Hsize]; [done|].
        exact (stages_int64 fs (setup_nodes vs (new_graph r)) _ _ Hsize E2 E3). }
      rewrite setup_patch_tables_out in E3; [done | done | by rewrite Hn].
    + apply setup_patch_tables_Raise in E3 as [->|[-> ?]]; [by left | by right].
  - apply links_loop_raises in E2 as [->|[-> ?]]; [by left | by right].
Qed.

(** X10.  In a constructed mesh on fewer than 2^31 nodes, twice the
    number of links is three times the number of patches, so that
    [nodes_at_link] has no spare row: it, its two views and [length_of_link]
    have [number_of_links] rows. *)
Theorem links_and_patches_count (r : F) vs fs g :
  Z.of_nat (length vs) ≤ 2 ^ 31 →
  init r vs fs = Ok g →
  (2 * number_of_links g = 3 * number_of_patches g)%nat ∧
  length (nodes_at_link g) = number_of_links g ∧
  length (node_at_link_tail g) = number_of_links g ∧
  length (node_at_link_head g) = number_of_links g ∧
  length (length_of_link g) = number_of_links g.
Proof.
  intros Hsize H. pose proof (init_needs _ _ _ _ Hsize H) as (Hvalid & Hclosed & _).
  pose proof (closed_mesh_link_count _ _ Hsize Hvalid Hclosed) as Hcount.
  destruct (init_counts _ _ _ _ H) as (_ & Hnl & Hnp & _).
  rewrite length_fmap in Hcount.
  destruct (init_Ok _ _ _ _ H) as (g2 & g3 & g4 & g5 & g6 & H2 & H3 & H4 & H5 & H6 & H7).
  assert (setup_patches_and_corners fs g2 = Ok g5) as H25.
  { unfold setup_patches_and_corners. by rewrite H3, ret_bind, H4, ret_bind. }
  destruct (setup_links_rows _ _ _ H2) as (Hrows & Hn2 & Hlol & _).
  destruct (setup_patches_and_corners_frame _ _ _ H25)
    as (_ & _ & _ & _ & _ & _ & E5 & _ & E5').
  destruct (faces_stage _ _ H6) as (_ & _ & _ & _ & E6 & E6').
  assert (nodes_at_link g = nodes_at_link g6 ∧ length_of_link g = length_of_link g6)
    as [E7 E7'] by (clear -H7; builder_inv H7; done).
  unfold node_at_link_tail, node_at_link_head.
  rewrite !length_fmap, E7, E7', E6, E6', E5, E5', Hrows, Hlol, Hn2, Hnl, Hnp.
  rewrite length_app, length_replicate, !length_fmap.
  assert ((3 * length fs) `div` 2 = length (register_links fs))%nat as ->.
  { symmetry. apply Nat.div_unique_exact; lia. }
  repeat split; lia.
Qed.

End InitReturn.

(** ** The spherical coordinates of the nodes *)

Section SphericalCaches.
Context {beyond_int64 : RowBeyondInt64}.
Context {F : Type} `{!Numeric F, !ArcLength F, !CartesianToSpherical F,
                     !RotateZY F, !AreaOfSphertri F}.
Implicit Types g : Graph F.

Lemma memoized_sph_cached (slot : Graph F -> option (list F)) g v g1 :
  sph_cached g →
  memoized slot _setup_node_spherical_coords g = Ok (v, g1) →
  sph_cached g1 ∧ same_tables g g1 ∧ corners_at_node g1 = corners_at_node g.
Proof.
  intros Hc H. unfold memoized in H. destruct (slot g) as [w|] eqn:E.
  - injection H as <- <-. split; [done|]. split; [apply same_tables_refl|done].
  - cbv zeta in H. destruct (slot (_setup_node_spherical_coords g)); [|done].
    injection H as <- <-. split; [right; repeat split|].
    split; [repeat split | done].
Qed.

Lemma sph_cached_ext g g' :
  coords_of_node g' = coords_of_node g → _r_of_node g' = _r_of_node g →
  _phi_of_node g' = _phi_of_node g → _theta_of_node g' = _theta_of_node g →
  sph_cached g → sph_cached g'.
Proof. unfold sph_cached, node_sph. by intros -> -> -> ->. Qed.

Lemma sort_corners_at_sph_cached g (node : nat) g' :
  sph_cached g → sort_corners_at g node = Ok g' → sph_cached g'.
Proof.
  intros Hc H. unfold sort_corners_at in H.
  bind_inv H as row Hrow. bind_inv H as cx Hcx. bind_inv H as cy Hcy.
  bind_inv H as cz Hcz. bind_inv H as [phi g1] Hphi. bind_inv H as phin Hphin.
  bind_inv H as [theta g2] Hth. bind_inv H as thn Hthn. bind_inv H as sorted Hs.
  apply memoized_sph_cached in Hphi as (Hc1 & _); [|done].
  apply memoized_sph_cached in Hth as (Hc2 & _); [|done].
  repeat case_bool_decide; try done; bind_inv H as c Hset; injection H as <-;
    by eapply sph_cached_ext.
Qed.

Lemma init_sph_cached r vs fs g :
  init r vs fs = Ok g → sph_cached g ∧ coords_of_node g = vs.
Proof.
  intros (g2 & g3 & g4 & g5 & g6 & H2 & H3 & H4 & H5 & H6 & H)%init_Ok.
  assert (sph_cached g4 ∧ coords_of_node g4 = vs) as [Hc4 Ec4].
  { clear -H2 H3 H4. builder_inv H4. builder_inv H3. builder_inv H2.
    split; [by left | done]. }
  assert (sph_cached g5) as Hc5.
  { unfold sort_corners_ccw in H5.
    eapply (for_each_inv _ (fun _ gc => sph_cached gc)); [exact Hc4 | | exact H5].
    intros pre x s1 s2 Hs Hb. by eapply sort_corners_at_sph_cached. }
  assert (coords_of_node g5 = vs) as Ec5.
  { apply sort_corners_ccw_frame in H5. rewrite <- Ec4. apply H5. }
  clear -H6 H Hc5 Ec5. builder_inv H. builder_inv H6. simpl. split; [|done].
  eapply sph_cached_ext; [..|exact Hc5]; done.
Qed.

(** X11.  On a constructed graph [r_of_node], [phi_of_node] and
    [theta_of_node] return the three components of [cartesian_to_spherical]
    of the vertices given to [__init__], whichever is read first; the graph
    [g'] they leave is the same for the three, each of them returns the same
    array again on it and leaves it as it is, and the tables of the graph are
    not touched. *)
Theorem node_spherical_coordinates r vs fs g :
  init r vs fs = Ok g →
  let sph := (fun p : vec3 F => cartesian_to_spherical p.1.1 p.1.2 p.2) <$> vs in
  ∃ g',
    r_of_node g = Ok ((fun s => s.1.1) <$> sph, g') ∧
    phi_of_node g = Ok ((fun s => s.1.2) <$> sph, g') ∧
    theta_of_node g = Ok ((fun s => s.2) <$> sph, g') ∧
    r_of_node g' = Ok ((fun s => s.1.1) <$> sph, g') ∧
    phi_of_node g' = Ok ((fun s => s.1.2) <$> sph, g') ∧
    theta_of_node g' = Ok ((fun s => s.2) <$> sph, g') ∧
    same_tables g g' ∧ corners_at_node g' = corners_at_node g.
Proof.
  intros [Hc Ec]%init_sph_cached sph.
  assert (node_sph g = sph) as Es by (unfold node_sph; by rewrite Ec).
  unfold r_of_node, phi_of_node, theta_of_node, memoized.
  destruct Hc as [(Hr & Hp & Ht)|(Hr & Hp & Ht)].
  - exists (_setup_node_spherical_coords g). rewrite Hr, Hp, Ht. simpl.
    fold (node_sph g). rewrite Es. repeat split.
  - exists g. rewrite Hr, Hp, Ht, Es. repeat split.
Qed.

End SphericalCaches.

(** ** The orientation of a patch *)

Section Orientation.
Context {beyond_int64 : RowBeyondInt64}.
Context {F : Type} `{!Numeric F}.

(** Laws of the sign.  They hold over the reals and the integers; in
    IEEE arithmetic the first holds up to the sign of a zero difference. *)
Hypothesis fsub_swap : ∀ x y : F, fsub y x = fneg (fsub x y).
Hypothesis fmul_comm : ∀ x y : F, fmul x y = fmul y x.
Hypothesis fmul_neg : ∀ x y : F, fmul (fneg x) y = fneg (fmul x y).
Hypothesis fneg_neg : ∀ x : F, fneg (fneg x) = x.

Lemma cross_swap (u v : vec3 F) : cross v u = vneg (cross u v).
Proof.
  unfold cross, vneg. simpl.
  rewrite <- !fsub_swap.
  by rewrite (fmul_comm v.1.2), (fmul_comm v.2 u.1.2), (fmul_comm v.2 u.1.1),
    (fmul_comm v.1.1 u.2), (fmul_comm v.1.1 u.1.2), (fmul_comm v.1.2 u.1.1).
Qed.

Lemma fmul_neg_neg (x : F) : fmul (fneg x) (fneg x) = fmul x x.
Proof. by rewrite fmul_neg, fmul_comm, fmul_neg, fneg_neg. Qed.

Lemma veclen_vneg (c : vec3 F) : veclen (vneg c) = veclen c.
Proof. unfold veclen, vneg. simpl. by rewrite !fmul_neg_neg. Qed.

(** X12.  Under these laws of the sign, exchanging the second and the
    third node of a patch puts the corner that [set_coords_of_corner]
    computes at the opposite point of the sphere: the orientation of the
    triangle decides on which side its corner lies. *)
Theorem corner_of_reversed_patch (r : F) (p0 p1 p2 : vec3 F) :
  corner_of_patch r p0 p2 p1 = vneg (corner_of_patch r p0 p1 p2).
Proof.
  unfold corner_of_patch. cbv zeta. rewrite cross_swap, veclen_vneg.
  unfold vneg. simpl. by rewrite !fmul_neg.
Qed.

End Orientation.

(** ** The VTK files *)

Lemma count_nonzero_succ (row : list Z) :
  np.count_nonzero ((fun c => c + 1) <$> row)
  = length (filter (fun id => id ≠ -1) row).
Proof.
  unfold np.count_nonzero. induction row as [|c row IH]; [done|].
  rewrite fmap_cons, !filter_cons. repeat case_decide; simpl; lia.
Qed.

Lemma points_of_row (row : list Z) :
  length (filter (fun id => id ≠ -1) row)
  = (length (printed_ids row) + length (unprinted_ids row))%nat.
Proof.
  unfold printed_ids, unprinted_ids. induction row as [|c row IH]; [done|].
  rewrite !filter_cons. repeat case_decide; simpl; lia.
Qed.

Lemma cell_line_ids (n : nat) (row : list Z) :
  cell_line (Z.of_nat n) row = ids_line n (printed_ids row).
Proof.
  unfold cell_line, ids_line, printed_ids.
  generalize (str_int (Z.of_nat n)). induction row as [|c row IH]; [done|].
  intros line. rewrite filter_cons. simpl. case_bool_decide.
  - rewrite decide_True by done. simpl. apply IH.
  - rewrite decide_False by done. apply IH.
Qed.

Lemma sum_points (cells : list (list Z)) :
  np.sum ((fun c => c + 1) <$> num_points_in_cell cells)
  = Z.of_nat (length cells + length (cells ≫= printed_ids)
              + length (cells ≫= unprinted_ids)).
Proof.
  unfold num_points_in_cell, np.sum. induction cells as [|row cells IH]; [done|].
  rewrite !fmap_cons, !bind_cons, !length_app. cbn [foldr length].
  rewrite IH, count_nonzero_succ, points_of_row. lia.
Qed.

Lemma lookup_past {A} (l1 l2 : list A) (n k : nat) :
  length l1 = n → (l1 ++ l2) !! (n + k)%nat = l2 !! k.
Proof.
  intros <-. rewrite lookup_app_r by lia. f_equal. lia.
Qed.

Section VtkFile.
Context {beyond_int64 : RowBeyondInt64}.
Context {F : Type} `{!Str F}.

(** What every call writes, whether it returns or raises. *)
Lemma vtk_file_start (points : list (vec3 F)) cells field name :
  ∃ rest,
    (_points_and_cells_to_vtk points cells field name).1
    = [ "# vtk DataFile Version 2.0"; "Landlab Icosphere Grid"; "ASCII";
        "DATASET UNSTRUCTURED_GRID";
        "POINTS " +:+ str_int (Z.of_nat (length points)) +:+ " float" ]
      ++ (point_line <$> points)
      ++ [ EmptyString;
           "CELLS " +:+ str_int (Z.of_nat (length cells)) +:+ " "
             +:+ str_int (np.sum ((fun c => c + 1) <$> num_points_in_cell cells)) ]
      ++ zip_with cell_line (num_points_in_cell cells) cells
      ++ EmptyString :: rest.
Proof.
  unfold _points_and_cells_to_vtk. cbv zeta.
  destruct (np.amax (num_points_in_cell cells)) as [m|e]; eexists;
    cbn [fst app]; rewrite <- ?app_assoc; cbn [app]; reflexivity.
Qed.

(** What a call on at least one cell writes. *)
Lemma vtk_file_whole (points : list (vec3 F)) cells field name :
  cells ≠ [] →
  ∃ m, np.amax (num_points_in_cell cells) = Ok m ∧
    _points_and_cells_to_vtk points cells field name
    = ([ "# vtk DataFile Version 2.0"; "Landlab Icosphere Grid"; "ASCII";
         "DATASET UNSTRUCTURED_GRID";
         "POINTS " +:+ str_int (Z.of_nat (length points)) +:+ " float" ]
       ++ (point_line <$> points)
       ++ [ EmptyString;
            "CELLS " +:+ str_int (Z.of_nat (length cells)) +:+ " "
              +:+ str_int (np.sum ((fun c => c + 1) <$> num_points_in_cell cells)) ]
       ++ zip_with cell_line (num_points_in_cell cells) cells
       ++ [ EmptyString; "CELL_TYPES " +:+ str_int (Z.of_nat (length cells)) ]
       ++ replicate (length cells)
            (if bool_decide (m = 3) then str_int 5 else str_int 7)
       ++ match field with
          | None => []
          | Some field =>
              [ "CELL_DATA " +:+ str_int (Z.of_nat (length field));
                "SCALARS " +:+ name +:+ " float 1"; "LOOKUP_TABLE default" ]
              ++ (str_float <$> field)
          end, Ok ()).
Proof.
  intros Hne. unfold _points_and_cells_to_vtk. cbv zeta.
  destruct (np.amax (num_points_in_cell cells)) as [m|e] eqn:E.
  - exists m. split; [done|]. f_equal. cbn [app]. rewrite <- ?app_assoc. done.
  - destruct cells; done.
Qed.

Lemma length_cell_lines (cells : list (list Z)) :
  length (zip_with cell_line (num_points_in_cell cells) cells) = length cells.
Proof.
  unfold num_points_in_cell. rewrite length_zip_with, length_fmap. lia.
Qed.

Lemma lookup_cell_line (cells : list (list Z)) (i : nat) row :
  cells !! i = Some row →
  zip_with cell_line (num_points_in_cell cells) cells !! i
  = Some (ids_line (length (printed_ids row) + length (unprinted_ids row))
            (printed_ids row)).
Proof.
  intros Hrow. unfold num_points_in_cell.
  rewrite lookup_zip_with, list_lookup_fmap, Hrow. simpl.
  by rewrite count_nonzero_succ, points_of_row, cell_line_ids.
Qed.

Lemma vtk_cell_line_at (points : list (vec3 F)) cells field name (i : nat) row :
  cells !! i = Some row →
  (_points_and_cells_to_vtk points cells field name).1
    !! (7 + length points + i)%nat
  = Some (ids_line (length (printed_ids row) + length (unprinted_ids row))
            (printed_ids row)).
Proof.
  intros Hrow. destruct (vtk_file_start points cells field name) as [rest ->].
  replace (7 + length points + i)%nat
    with (5 + (length points + (2 + (i + 0))))%nat by lia.
  rewrite (lookup_past _ _ 5) by done.
  rewrite (lookup_past _ _ (length points)) by by rewrite length_fmap.
  rewrite (lookup_past _ _ 2) by done. rewrite Nat.add_0_r.
  rewrite lookup_app_l
    by (rewrite length_cell_lines; by eapply lookup_lt_Some).
  by apply lookup_cell_line.
Qed.

(** X13.  In the file that [_points_and_cells_to_vtk] writes, the
    line of a cell lists the ids of its row that are greater than -1 after a
    count, which is the number of ids other than -1: the count is the number
    of ids listed exactly when no id of the row is below -1.  The size that
    the [CELLS] line announces is the sum of these counts and one more for
    each cell.  This holds also when the call raises. *)
Theorem cells_block_counts (points : list (vec3 F)) cells field name :
  let file := (_points_and_cells_to_vtk points cells field name).1 in
  file !! (6 + length points)%nat
  = Some ("CELLS " +:+ str_int (Z.of_nat (length cells)) +:+ " "
          +:+ str_int (Z.of_nat (length cells + length (cells ≫= printed_ids)
                                 + length (cells ≫= unprinted_ids)))) ∧
  ∀ (i : nat) row, cells !! i = Some row →
    file !! (7 + length points + i)%nat
    = Some (ids_line (length (printed_ids row) + length (unprinted_ids row))
              (printed_ids row)).
Proof.
  cbv zeta. split.
  - destruct (vtk_file_start points cells field name) as [rest ->].
    replace (6 + length points)%nat with (5 + (length points + 1))%nat by lia.
    rewrite (lookup_past _ _ 5) by done.
    rewrite (lookup_past _ _ (length points)) by by rewrite length_fmap.
    simpl. by rewrite sum_points.
  - intros i row Hrow. by apply vtk_cell_line_at.
Qed.

(** X14.  Given at least one cell, [_points_and_cells_to_vtk]
    returns, and the blocks of its file stand where their sizes put them:
    the [POINTS] line is line 4 (counted from 0) and a point's line follows
    at its index; after the cells' block, [CELL_TYPES] announces the number
    of cells and as many lines follow, all [5] or all [7]; with a field,
    [CELL_DATA] stands at line [9 + points + 2 * cells] and announces the
    length of the field, whose values start three lines below, and nothing
    follows the last value. *)
Theorem vtk_file_layout (points : list (vec3 F)) cells field name :
  cells ≠ [] →
  let file := (_points_and_cells_to_vtk points cells field name).1 in
  let npoints := length points in
  let ncells := length cells in
  (_points_and_cells_to_vtk points cells field name).2 = Ok () ∧
  file !! 4%nat = Some ("POINTS " +:+ str_int (Z.of_nat npoints) +:+ " float") ∧
  (∀ (i : nat) p, points !! i = Some p →
     file !! (5 + i)%nat = Some (point_line p)) ∧
  file !! (5 + npoints)%nat = Some EmptyString ∧
  file !! (7 + npoints + ncells)%nat = Some EmptyString ∧
  file !! (8 + npoints + ncells)%nat = Some ("CELL_TYPES " +:+ str_int (Z.of_nat ncells)) ∧
  (∃ type, (type = str_int 5 ∨ type = str_int 7) ∧
     ∀ i : nat, (i < ncells)%nat → file !! (9 + npoints + ncells + i)%nat = Some type) ∧
  match field with
  | None => length file = (9 + npoints + 2 * ncells)%nat
  | Some values =>
      file !! (9 + npoints + 2 * ncells)%nat
      = Some ("CELL_DATA " +:+ str_int (Z.of_nat (length values))) ∧
      file !! (10 + npoints + 2 * ncells)%nat = Some ("SCALARS " +:+ name +:+ " float 1") ∧
      file !! (11 + npoints + 2 * ncells)%nat = Some "LOOKUP_TABLE default" ∧
      (∀ (i : nat) v, values !! i = Some v →
         file !! (12 + npoints + 2 * ncells + i)%nat = Some (str_float v)) ∧
      length file = (12 + npoints + 2 * ncells + length values)%nat
  end.
Proof.
  intros Hne. cbv zeta.
  destruct (vtk_file_whole points cells field name Hne) as (m & _ & ->).
  cbn [fst snd]. split; [done|]. split; [done|].
  pose proof (length_cell_lines cells) as Hcl.
  assert (length (point_line <$> points) = length points) as Hpl
    by by rewrite length_fmap.
  split.
  { intros i p Hp. rewrite (lookup_past _ _ 5) by done.
    rewrite lookup_app_l by (rewrite Hpl; by eapply lookup_lt_Some).
    by rewrite list_lookup_fmap, Hp. }
  split.
  { rewrite (lookup_past _ _ 5) by done.
    replace (length points) with (length points + 0)%nat at 1 by lia.
    by rewrite (lookup_past _ _ (length points)). }
  split.
  { replace (7 + length points + length cells)%nat
      with (5 + (length points + (2 + (length cells + 0))))%nat by lia.
    rewrite (lookup_past _ _ 5) by done.
    rewrite (lookup_past _ _ (length points)) by done.
    rewrite (lookup_past _ _ 2) by done.
    by rewrite (lookup_past _ _ (length cells)). }
  split.
  { replace (8 + length points + length cells)%nat
      with (5 + (length points + (2 + (length cells + 1))))%nat by lia.
    rewrite (lookup_past _ _ 5) by done.
    rewrite (lookup_past _ _ (length points)) by done.
    rewrite (lookup_past _ _ 2) by done.
    by rewrite (lookup_past _ _ (length cells)). }
  split.
  { exists (if bool_decide (m = 3) then str_int 5 else str_int 7). split.
    - case_bool_decide; [by left | by right].
    - intros i Hi.
      replace (9 + length points + length cells + i)%nat
        with (5 + (length points + (2 + (length cells + (2 + i)))))%nat by lia.
      rewrite (lookup_past _ _ 5) by done.
      rewrite (lookup_past _ _ (length points)) by done.
      rewrite (lookup_past _ _ 2) by done.
      rewrite (lookup_past _ _ (length cells)) by done.
      rewrite (lookup_past _ _ 2) by done.
      rewrite lookup_app_l by by rewrite length_replicate.
      by apply lookup_replicate_2. }
  destruct field as [values|].
  - assert (∀ k, (9 + length points + 2 * length cells + k)%nat
      = (5 + (length points + (2 + (length cells + (2 + (length cells + k))))))%nat)
      as Hidx by (intros; lia).
    assert (∀ k rest,
      ([ "# vtk DataFile Version 2.0"; "Landlab Icosphere Grid"; "ASCII";
         "DATASET UNSTRUCTURED_GRID";
         "POINTS " +:+ str_int (Z.of_nat (length points)) +:+ " float" ]
       ++ (point_line <$> points)
       ++ [ EmptyString;
            "CELLS " +:+ str_int (Z.of_nat (length cells)) +:+ " "
              +:+ str_int (np.sum ((fun c => c + 1) <$> num_points_in_cell cells)) ]
       ++ zip_with cell_line (num_points_in_cell cells) cells
       ++ [ EmptyString; "CELL_TYPES " +:+ str_int (Z.of_nat (length cells)) ]
       ++ replicate (length cells)
            (if bool_decide (m = 3) then str_int 5 else str_int 7)
       ++ rest) !! (9 + length points + 2 * length cells + k)%nat = rest !! k)
      as Hdata.
    { intros k rest. rewrite Hidx.
      rewrite (lookup_past _ _ 5) by done.
      rewrite (lookup_past _ _ (length points)) by done.
      rewrite (lookup_past _ _ 2) by done.
      rewrite (lookup_past _ _ (length cells)) by done.
      rewrite (lookup_past _ _ 2) by done.
      by rewrite (lookup_past _ _ (length cells)) by by rewrite length_replicate. }
    split.
    { replace (9 + length points + 2 * length cells)%nat
        with (9 + length points + 2 * length cells + 0)%nat by lia.
      by rewrite Hdata. }
    split.
    { replace (10 + length points + 2 * length cells)%nat
        with (9 + length points + 2 * length cells + 1)%nat by lia.
      by rewrite Hdata. }
    split.
    { replace (11 + length points + 2 * length cells)%nat
        with (9 + length points + 2 * length cells + 2)%nat by lia.
      by rewrite Hdata. }
    split.
    { intros i v Hv.
      replace (12 + length points + 2 * length cells + i)%nat
        with (9 + length points + 2 * length cells + (3 + i))%nat by lia.
      rewrite Hdata. rewrite (lookup_past _ _ 3) by done.
      by rewrite list_lookup_fmap, Hv. }
    rewrite !length_app, Hpl, Hcl, length_replicate, length_fmap. simpl. lia.
  - rewrite !length_app, Hpl, Hcl, length_replicate. simpl. lia.
Qed.

End VtkFile.

Lemma amax_replicate (n : nat) (x : Z) :
  n ≠ 0%nat → np.amax (replicate n x) = Ok x.
Proof.
  destruct n as [|n]; [done|]. intros _. simpl. f_equal.
  induction n as [|n IH]; [done|]. simpl. by rewrite Z.max_id.
Qed.

Lemma sum_replicate (n : nat) (x : Z) :
  np.sum (replicate n x) = Z.of_nat n * x.
Proof.
  unfold np.sum. induction n as [|n IH]; [done|].
  cbn [replicate foldr]. rewrite IH. lia.
Qed.

Lemma patch_rows_points (fs : list (Z * Z * Z)) :
  Forall (fun t => 0 ≤ t.1.1 ∧ 0 ≤ t.1.2 ∧ 0 ≤ t.2) fs →
  num_points_in_cell (rows_of_patches fs) = replicate (length fs) 3.
Proof.
  unfold num_points_in_cell, rows_of_patches.
  induction 1 as [|[[a b] c] fs (Ha & Hb & Hc) _ IH]; [done|].
  rewrite !fmap_cons. cbn [length replicate]. f_equal; [|exact IH].
  simpl in Ha, Hb, Hc. cbn [fst snd].
  unfold np.count_nonzero. rewrite fmap_nil, !filter_cons, filter_nil.
  rewrite !decide_True by lia. done.
Qed.

Lemma patch_rows_lines (fs : list (Z * Z * Z)) :
  Forall (fun t => 0 ≤ t.1.1 ∧ 0 ≤ t.1.2 ∧ 0 ≤ t.2) fs →
  zip_with cell_line (replicate (length fs) 3) (rows_of_patches fs)
  = (fun t => ids_line 3 [t.1.1; t.1.2; t.2]) <$> fs.
Proof.
  unfold rows_of_patches.
  induction 1 as [|[[a b] c] fs (Ha & Hb & Hc) _ IH]; [done|].
  rewrite !fmap_cons. cbn [length replicate zip_with]. f_equal; [|exact IH].
  simpl in Ha, Hb, Hc. rewrite (cell_line_ids 3). f_equal.
  unfold printed_ids. cbn [fst snd]. rewrite !filter_cons, filter_nil.
  rewrite !decide_True by lia. done.
Qed.

Lemma bounded_row_ids (n : nat) (row : list Z) :
  Forall (fun c => -1 ≤ c < Z.of_nat n) row →
  unprinted_ids row = [] ∧
  Forall (fun id => 0 ≤ id < Z.of_nat n) (printed_ids row).
Proof.
  unfold unprinted_ids, printed_ids.
  induction 1 as [|c l Hc _ [IH1 IH2]]; [done|].
  rewrite !filter_cons. split.
  - rewrite decide_False by lia. exact IH1.
  - case_decide; [|exact IH2]. constructor; [lia | exact IH2].
Qed.

Section ToVtk.
Context {beyond_int64 : RowBeyondInt64}.
Context {F : Type} `{!Numeric F, !ArcLength F, !CartesianToSpherical F,
                     !RotateZY F, !AreaOfSphertri F, !Str F}.
Implicit Types g : Graph F.

Lemma sort_corners_at_length g (node : nat) g' :
  sort_corners_at g node = Ok g' →
  length (corners_at_node g') = length (corners_at_node g).
Proof.
  intros H. unfold sort_corners_at in H.
  bind_inv H as row Hrow. bind_inv H as cx Hcx. bind_inv H as cy Hcy.
  bind_inv H as cz Hcz. bind_inv H as [phi g1] Hphi. bind_inv H as phin Hphin.
  bind_inv H as [theta g2] Hth. bind_inv H as thn Hthn. bind_inv H as sorted Hs.
  apply memoized_spherical_frame in Hphi as [_ Hphi].
  apply memoized_spherical_frame in Hth as [_ Hth].
  repeat case_bool_decide; try done; bind_inv H as c Hset; injection H as <-;
    apply setitem_Ok in Hset as (k & _ & ->); simpl;
    by rewrite length_insert, Hth, Hphi.
Qed.

(** The tables of a constructed graph that [to_vtk] reads. *)
Lemma init_tables (r : F) vs fs g :
  init r vs fs = Ok g →
  coords_of_node g = vs ∧ stored_rows fs (nodes_at_patch g) ∧
  length (coords_of_corner g) = length fs ∧
  length (corners_at_node g) = length vs ∧
  (vs = [] → fs = []) ∧ (vs ≠ [] → fs ≠ []).
Proof.
  intros (g2 & g3 & g4 & g5 & g6 & H2 & H3 & H4 & H5 & H6 & H7)%init_Ok.
  assert (setup_patches_and_corners fs g2 = Ok g5) as H25.
  { unfold setup_patches_and_corners. by rewrite H3, ret_bind, H4, ret_bind. }
  destruct (links_stage _ _ _ _ H2) as (_ & Ec2 & En2 & _).
  destruct (setup_patches_and_corners_frame _ _ _ H25)
    as (En5 & Ec5 & Enp5 & _ & _ & Elc5 & _).
  destruct (setup_patch_tables_exact _ _ _ H3)
    as (Hvalid & Hrows3 & _ & _ & Hl3 & _).
  assert (length (corners_at_node g4) = length vs) as Hl4.
  { rewrite <- En2, <- Hl3. clear -H4. builder_inv H4. done. }
  assert (length (corners_at_node g5) = length vs) as Hl5.
  { rewrite <- Hl4. unfold sort_corners_ccw in H5.
    eapply (for_each_inv _ (fun _ gc =>
      length (corners_at_node gc) = length (corners_at_node g4)));
      [done | | exact H5].
    intros pre x s1 s2 Hs Hb. by rewrite (sort_corners_at_length _ _ _ Hb). }
  destruct (faces_stage _ _ H6) as (En6 & Ec6 & Ecan6 & Ecc6 & _).
  pose proof (setup_cells_needs _ _ H7) as Hcells.
  rewrite En6, En5, En2, Ecc6 in Hcells.
  assert (coords_of_node g = coords_of_node g6 ∧
          nodes_at_patch g = nodes_at_patch g6 ∧
          coords_of_corner g = coords_of_corner g6 ∧
          corners_at_node g = corners_at_node g6) as (E1 & E2 & E3 & E4)
    by (clear -H7; builder_inv H7; done).
  assert (nodes_at_patch g6 = nodes_at_patch g5) as E5
    by (clear -H6; builder_inv H6; done).
  rewrite E1, E2, E3, E4, Ec6, E5, Ecc6, Ecan6, Ec5, Ec2, Elc5, Hl5.
  do 4 (split; [done|]). split.
  - intros ->. rewrite En2 in Hvalid.
    assert (nodes_at_patch g3 = []) as E.
    { destruct Hvalid as [|t l Ht _]; [done|].
      destruct Ht as [Ht _]. unfold valid_index in Ht. simpl in Ht. lia. }
    rewrite E in Hrows3. by apply Forall2_nil_inv_r in Hrows3.
  - intros Hvs ->. destruct Hcells as [Hz|Hc].
    + by destruct vs.
    + by destruct (coords_of_corner g5).
Qed.

(** In a constructed graph [nodes_at_patch] holds the triangles, when
    their indices fit 64 bits or the vertices are no more than 2^31. *)
Lemma init_patches (r : F) vs fs g :
  init r vs fs = Ok g →
  Forall int64_row fs ∨ Z.of_nat (length vs) ≤ 2 ^ 31 →
  nodes_at_patch g = fs.
Proof.
  intros H Hfs. destruct (init_tables _ _ _ _ H) as (_ & Hrows & _).
  apply stored_rows_eq; [done|]. destruct Hfs as [?|Hsize]; [done|].
  destruct (init_needs _ _ _ _ Hsize H) as [Hvalid _].
  apply (valid_triangles_int64 (length vs)); [|done]. etrans; [exact Hsize|done].
Qed.

(** An entry of [corners_at_node] in a constructed graph is a corner or
    the sentinel. *)
Lemma init_corner_ids (r : F) vs fs g :
  init r vs fs = Ok g →
  Forall (Forall (fun c => -1 ≤ c < Z.of_nat (length fs))) (corners_at_node g).
Proof.
  intros (g2 & g3 & g4 & g5 & g6 & H2 & H3 & H4 & H5 & H6 & H)%init_Ok.
  apply setup_patch_tables_Ok in H3 as (_ & _ & _ & Hl & Hrows).
  assert (Forall (Forall (fun c => -1 ≤ c < Z.of_nat (length fs)))
            (corners_at_node g3)) as H3.
  { apply Forall_forall. intros row [k Hk]%list_elem_of_lookup.
    destruct (Hrows k) as (row' & Hr & valid & -> & _ & Hv).
    { rewrite <- Hl. by eapply lookup_lt_Some. }
    assert (row = valid ++ replicate (6 - length valid) (-1)) as -> by congruence.
    apply Forall_app. split.
    - eapply Forall_impl; [exact Hv|]. simpl. lia.
    - apply Forall_forall. intros c [-> _]%elem_of_replicate. lia. }
  assert (Forall (Forall (fun c => -1 ≤ c < Z.of_nat (length fs)))
            (corners_at_node g5)) as H5'.
  { unfold sort_corners_ccw in H5.
    eapply (for_each_inv _ (fun _ gc =>
      Forall (Forall (fun c => -1 ≤ c < Z.of_nat (length fs)))
        (corners_at_node gc))); [| |exact H5].
    - builder_inv H4. done.
    - intros pre x s1 s2 Hs Hb. by eapply sort_corners_at_entries. }
  builder_inv H. builder_inv H6. done.
Qed.

(** X15.  On a constructed graph with a node, [to_vtk] returns and
    writes two files, [base_name] followed by [_cells.vtk] and by
    [_patches.vtk].  On the graph without node it raises [ValueError] from
    [np.amax] after the first eight lines of the cells file, and writes no
    patches file. *)
Theorem to_vtk_returns (r : F) vs fs g base_name
    field_for_cells name_for_cells field_for_patches name_for_patches :
  init r vs fs = Ok g →
  let written :=
    to_vtk g base_name field_for_cells name_for_cells
      field_for_patches name_for_patches in
  match vs with
  | [] =>
      written
      = ([ (base_name +:+ "_cells.vtk",
            [ "# vtk DataFile Version 2.0"; "Landlab Icosphere Grid"; "ASCII";
              "DATASET UNSTRUCTURED_GRID"; "POINTS 0 float"; EmptyString;
              "CELLS 0 0"; EmptyString ]) ], Raise ValueError)
  | _ :: _ =>
      written.2 = Ok () ∧
      written.1.*1 = [ base_name +:+ "_cells.vtk"; base_name +:+ "_patches.vtk" ]
  end.
Proof.
  intros (Ecn & Enp%Forall2_length & Elc & Hlcan & Hnil & Hcons)%init_tables.
  cbv zeta. unfold to_vtk, corners_at_cell. cbv zeta. rewrite Ecn.
  destruct vs as [|v vs].
  - rewrite (Hnil eq_refl) in Elc.
    destruct (coords_of_corner g); [|done].
    destruct (corners_at_node g); [|done]. done.
  - assert (corners_at_node g ≠ []) as Hc by (by destruct (corners_at_node g)).
    destruct (vtk_file_whole (coords_of_corner g) (corners_at_node g)
                field_for_cells name_for_cells Hc) as (m & _ & ->).
    cbn [snd fst].
    assert (rows_of_patches (nodes_at_patch g) ≠ []) as Hp.
    { specialize (Hcons ltac:(done)). destruct fs; [done|].
      by destruct (nodes_at_patch g). }
    destruct (vtk_file_whole (v :: vs) (rows_of_patches (nodes_at_patch g))
                field_for_patches name_for_patches Hp) as (m' & _ & ->).
    done.
Qed.

(** X16.  On a constructed graph with a node, whose triangles are
    given by indices that are not negative, and that fit 64 bits unless the
    nodes are no more than 2^31, the patches file is: the four
    lines of the header; the number of nodes and a line for each node; a
    blank line; the number [m] of patches with the size [4 * m] and, for
    each patch, a line with [3] and its three nodes; a blank line; [m] as
    the number of cell types and [m] lines [5], the triangle; then the field
    for the patches, when there is one. *)
Theorem patches_file_content (r : F) vs fs g base_name
    field_for_cells name_for_cells field_for_patches name_for_patches :
  init r vs fs = Ok g → vs ≠ [] →
  Forall (fun t => 0 ≤ t.1.1 ∧ 0 ≤ t.1.2 ∧ 0 ≤ t.2) fs →
  Forall int64_row fs ∨ Z.of_nat (length vs) ≤ 2 ^ 31 →
  (to_vtk g base_name field_for_cells name_for_cells
     field_for_patches name_for_patches).1 !! 1%nat
  = Some (base_name +:+ "_patches.vtk",
          [ "# vtk DataFile Version 2.0"; "Landlab Icosphere Grid"; "ASCII";
            "DATASET UNSTRUCTURED_GRID";
            "POINTS " +:+ str_int (Z.of_nat (length vs)) +:+ " float" ]
          ++ (point_line <$> vs)
          ++ [ EmptyString;
               "CELLS " +:+ str_int (Z.of_nat (length fs)) +:+ " "
                 +:+ str_int (4 * Z.of_nat (length fs)) ]
          ++ ((fun t => ids_line 3 [t.1.1; t.1.2; t.2]) <$> fs)
          ++ [ EmptyString; "CELL_TYPES " +:+ str_int (Z.of_nat (length fs)) ]
          ++ replicate (length fs) "5"
          ++ match field_for_patches with
             | None => []
             | Some values =>
                 [ "CELL_DATA " +:+ str_int (Z.of_nat (length values));
                   "SCALARS " +:+ name_for_patches +:+ " float 1";
                   "LOOKUP_TABLE default" ]
                 ++ (str_float <$> values)
             end).
Proof.
  intros H Hvs Hpos Hfs. pose proof (init_patches _ _ _ _ H Hfs) as Enp.
  destruct (init_tables _ _ _ _ H) as (Ecn & _ & Elc & Hlcan & Hnil & Hcons).
  unfold to_vtk, corners_at_cell. cbv zeta. rewrite Ecn, Enp.
  assert (corners_at_node g ≠ []) as Hc.
  { intros E. rewrite E in Hlcan. by destruct vs. }
  destruct (vtk_file_whole (coords_of_corner g) (corners_at_node g)
              field_for_cells name_for_cells Hc) as (m & _ & ->).
  cbn [snd fst].
  assert (rows_of_patches fs ≠ []) as Hp.
  { specialize (Hcons Hvs). by destruct fs. }
  destruct (vtk_file_whole vs (rows_of_patches fs)
              field_for_patches name_for_patches Hp) as (m' & Hm & ->).
  cbn [fst lookup list_lookup]. simpl lookup.
  rewrite (patch_rows_points fs Hpos) in Hm |- *.
  rewrite amax_replicate in Hm by (destruct fs; done).
  injection Hm as <-.
  rewrite (patch_rows_lines fs Hpos), fmap_replicate, sum_replicate.
  unfold rows_of_patches. rewrite length_fmap.
  replace (Z.of_nat (length fs) * (3 + 1)) with (4 * Z.of_nat (length fs)) by lia.
  done.
Qed.

(** X17.  The cells file of a constructed graph is well formed: it
    announces as many points as there are patches, the line of each cell
    starts with the number of ids that it lists, and each id listed is the
    index of one of these points.  The file is the first that [to_vtk]
    writes, also when the call raises. *)
Theorem cells_file_well_formed (r : F) vs fs g base_name
    field_for_cells name_for_cells field_for_patches name_for_patches :
  init r vs fs = Ok g →
  ∃ lines,
    (to_vtk g base_name field_for_cells name_for_cells
       field_for_patches name_for_patches).1 !! 0%nat
    = Some (base_name +:+ "_cells.vtk", lines) ∧
    lines !! 4%nat
    = Some ("POINTS " +:+ str_int (Z.of_nat (length fs)) +:+ " float") ∧
    ∀ (cell : nat) row, corners_at_cell g !! cell = Some row →
      Forall (fun id => 0 ≤ id < Z.of_nat (length fs)) (printed_ids row) ∧
      lines !! (7 + length fs + cell)%nat
      = Some (ids_line (length (printed_ids row)) (printed_ids row)).
Proof.
  intros H. pose proof (init_corner_ids _ _ _ _ H) as Hrows.
  destruct (init_tables _ _ _ _ H) as (_ & _ & Elc & _).
  exists (_points_and_cells_to_vtk (coords_of_corner g) (corners_at_cell g)
            field_for_cells name_for_cells).1.
  split; [|split].
  - unfold to_vtk. cbv zeta.
    by destruct (_points_and_cells_to_vtk (coords_of_corner g)
                   (corners_at_cell g) field_for_cells name_for_cells).2.
  - destruct (vtk_file_start (coords_of_corner g) (corners_at_cell g)
                field_for_cells name_for_cells) as [rest ->].
    by rewrite Elc.
  - intros cell row Hrow. unfold corners_at_cell in Hrow.
    pose proof (proj1 (Forall_lookup _ _) Hrows cell row Hrow) as Hr.
    destruct (bounded_row_ids _ _ Hr) as [Hun Hpr]. split; [done|].
    rewrite <- Elc.
    rewrite (vtk_cell_line_at _ _ _ _ cell row) by done.
    by rewrite Hun, Nat.add_0_r.
Qed.

End ToVtk.

(** ** The builders' conditions on the pyramid *)

Lemma pyramid_links_cache : cache_ok pyramid_linked.
Proof. split; left; reflexivity. Qed.

Lemma pyramid_linked_run : setup_links pyramid_faces pyramid_nodes = Ok pyramid_linked.
Proof. vm_compute. reflexivity. Qed.

Lemma pyramid_sortable : sortable pyramid_unsorted.
Proof.
  eapply (patch_stages pyramid_faces _ _ _ pyramid_links_cache eq_refl).
  - apply pyramid_patches_run.
  - apply pyramid_corners_run.
Qed.

Lemma pyramid_faces_ready : faces_ready pyramid_unsorted.
Proof. repeat split. vm_compute. lia. Qed.

Lemma pyramid_cells_ready : cells_ready pyramid_unsorted.
Proof. destruct pyramid_sortable as (_ & ? & ? & ?). by repeat split. Qed.

Lemma tripled_triangle_init :
  init (F := Z) 1000 three_nodes tripled_triangle = Raise TypeError.
Proof. vm_compute. reflexivity. Qed.

Lemma setup_links_returns_witness :
  length (coords_of_node pyramid_nodes) = number_of_nodes pyramid_nodes ∧
  let n := number_of_nodes pyramid_nodes in
  let ls := (register_links pyramid_faces).*2 in
  ((∃ g', setup_links pyramid_faces pyramid_nodes = Ok g') ↔
   (length ls ≤ 3 * length pyramid_faces / 2)%nat ∧
   Forall (fun l => valid_index n l.1 ∧ valid_index n l.2) ls ∧
   Forall (fun l => np.is_int64 l.1 ∧ np.is_int64 l.2) ls ∧
   ∀ k, (k < n)%nat → (degree n ls k ≤ 6)%nat) ∧
  ∀ e, setup_links pyramid_faces pyramid_nodes = Raise e →
    e = IndexError ∨
    (e = OverflowError ∧
     ∃ l, l ∈ ls ∧ (¬ np.is_int64 l.1 ∨ ¬ np.is_int64 l.2)).
Proof.
  split; [reflexivity|].
  exact (setup_links_returns pyramid_faces pyramid_nodes eq_refl).
Defined.

Lemma nodes_at_link_rows_witness :
  setup_links pyramid_faces pyramid_nodes = Ok pyramid_linked ∧
  let ls := (register_links pyramid_faces).*2 in
  let spare := (3 * length pyramid_faces / 2 - length ls)%nat in
  nodes_at_link pyramid_linked = ls ++ replicate spare (0, 0) ∧
  node_at_link_tail pyramid_linked = ls.*1 ++ replicate spare 0 ∧
  node_at_link_head pyramid_linked = ls.*2 ++ replicate spare 0 ∧
  length (nodes_at_link pyramid_linked) = (3 * length pyramid_faces / 2)%nat ∧
  number_of_links pyramid_linked = length ls ∧
  length (length_of_link pyramid_linked) = number_of_links pyramid_linked.
Proof.
  split; [exact pyramid_linked_run|].
  exact (nodes_at_link_rows pyramid_faces pyramid_nodes pyramid_linked
           pyramid_linked_run).
Defined.

Lemma sort_corners_ccw_returns_witness :
  sortable pyramid_unsorted ∧
  ∃ g', sort_corners_ccw pyramid_unsorted = Ok g' ∧
    length (corners_at_node g') = number_of_nodes pyramid_unsorted ∧
    ∀ (k : nat) row, corners_at_node pyramid_unsorted !! k = Some row →
      ∃ row', corners_at_node g' !! k = Some row' ∧ row' ≡ₚ row ∧
              corner_row (length (coords_of_corner pyramid_unsorted)) row'.
Proof.
  split; [exact pyramid_sortable|].
  exact (sort_corners_ccw_returns pyramid_unsorted taxicab_argsort
           pyramid_sortable).
Defined.

Lemma setup_patches_and_corners_returns_witness :
  cache_ok pyramid_linked ∧
  length (coords_of_node pyramid_linked) = number_of_nodes pyramid_linked ∧
  let n := number_of_nodes pyramid_linked in
  (Forall int64_row pyramid_faces →
   ((∃ g', setup_patches_and_corners pyramid_faces pyramid_linked = Ok g') ↔
    Forall (valid_triangle n) pyramid_faces ∧
    ∀ k, (k < n)%nat → (length (corners_of_node n pyramid_faces k) ≤ 6)%nat)) ∧
  (∀ e, setup_patches_and_corners pyramid_faces pyramid_linked = Raise e →
     e = IndexError ∨ (e = OverflowError ∧ ¬ Forall int64_row pyramid_faces)) ∧
  ∀ g', setup_patches_and_corners pyramid_faces pyramid_linked = Ok g' →
    stored_rows pyramid_faces (nodes_at_patch g') ∧
    (Forall int64_row pyramid_faces → nodes_at_patch g' = pyramid_faces) ∧
    number_of_patches g' = length pyramid_faces ∧
    number_of_corners g' = length pyramid_faces ∧
    length (coords_of_corner g') = length pyramid_faces ∧
    (∀ k, (k < n)%nat →
       ∃ sorted,
         corners_at_node g' !! k
         = Some (sorted ++ replicate (6 - length sorted) (-1)) ∧
         sorted ≡ₚ corners_of_node n (nodes_at_patch g') k) ∧
    sum_list ((fun k => length (corners_of_node n (nodes_at_patch g') k))
                <$> seq 0 n)
    = (3 * length pyramid_faces)%nat.
Proof.
  split; [exact pyramid_links_cache|]. split; [reflexivity|].
  exact (setup_patches_and_corners_returns pyramid_faces pyramid_linked
           taxicab_argsort pyramid_links_cache eq_refl).
Defined.

Lemma setup_faces_returns_witness :
  faces_ready pyramid_unsorted ∧
  let uses := edge_uses (nodes_at_patch pyramid_unsorted) in
  ((∃ g', setup_faces pyramid_unsorted = Ok g') ↔
   (∀ k, (uses k ≤ 2)%nat) ∧
   ∀ (face : nat) link, (face < number_of_links pyramid_unsorted)%nat →
     nodes_at_link pyramid_unsorted !! face = Some link →
     uses (edge_key link) = 2%nat) ∧
  ((∃ k, (2 < uses k)%nat) → setup_faces pyramid_unsorted = Raise TypeError) ∧
  ∀ e, setup_faces pyramid_unsorted = Raise e →
    (e = TypeError ∧ ∃ k, (2 < uses k)%nat ∨ uses k = 1%nat) ∨
    (e = KeyError ∧
     ∃ (face : nat) link, (face < number_of_links pyramid_unsorted)%nat ∧
       nodes_at_link pyramid_unsorted !! face = Some link ∧
       uses (edge_key link) = 0%nat).
Proof.
  split; [exact pyramid_faces_ready|].
  exact (setup_faces_returns pyramid_unsorted pyramid_faces_ready).
Defined.

Lemma setup_cells_returns_witness :
  cells_ready pyramid_unsorted ∧
  ((∃ g', setup_cells pyramid_unsorted = Ok g') ↔
   number_of_nodes pyramid_unsorted = 0%nat ∨
   coords_of_corner pyramid_unsorted ≠ []) ∧
  ∀ e, setup_cells pyramid_unsorted = Raise e → e = IndexError.
Proof.
  split; [exact pyramid_cells_ready|].
  exact (setup_cells_returns pyramid_unsorted pyramid_cells_ready).
Defined.

Lemma constructor_returns_witness :
  Z.of_nat (length pyramid_grid) ≤ 2 ^ 31 ∧
  ((∃ g, init 1000 pyramid_grid pyramid_faces = Ok g) ↔
   buildable (length pyramid_grid) pyramid_faces).
Proof.
  split; [vm_compute; discriminate|].
  apply (constructor_returns 1000 pyramid_grid pyramid_faces taxicab_argsort).
  vm_compute. discriminate.
Defined.

Lemma three_nodes_size : Z.of_nat (length three_nodes) ≤ 2 ^ 31.
Proof. vm_compute. discriminate. Qed.

Lemma constructor_raises_witness :
  (Forall int64_row tripled_triangle ∨ Z.of_nat (length three_nodes) ≤ 2 ^ 31) ∧
  init 1000 three_nodes tripled_triangle = Raise TypeError ∧
  (TypeError = IndexError ∨
   (TypeError = OverflowError ∧ ¬ Forall int64_row tripled_triangle) ∨
   (TypeError = TypeError ∧ ¬ closed_mesh tripled_triangle)).
Proof.
  split; [right; exact three_nodes_size|].
  split; [exact tripled_triangle_init|].
  exact (constructor_raises 1000 three_nodes tripled_triangle TypeError
           taxicab_argsort (or_intror three_nodes_size) tripled_triangle_init).
Defined.

Lemma pyramid_size : Z.of_nat (length pyramid_grid) ≤ 2 ^ 31.
Proof. vm_compute. discriminate. Qed.

Lemma out_of_range_index_raises_witness :
  (Forall int64_row [(0, 1, 5)] ∨ Z.of_nat (length pyramid_grid) ≤ 2 ^ 31) ∧
  (init 1000 pyramid_grid [(0, 1, 5)] = Raise IndexError ∨
   (init 1000 pyramid_grid [(0, 1, 5)] = Raise OverflowError ∧
    ¬ Forall int64_row [(0, 1, 5)])).
Proof.
  split; [right; exact pyramid_size|].
  apply out_of_range_index_raises; [|right; exact pyramid_size].
  exists (0, 1, 5), 5. split; [by left|]. split; [set_solver | simpl; lia].
Defined.

(** The index 2^63 is the head of the second link, which has a row in
    [nodes_at_link] but cannot be stored there. *)
Example index_beyond_int64 :
  init 1000 pyramid_grid [(0, 1, 2 ^ 63); (0, 1, 2)] = Raise OverflowError.
Proof. vm_compute. reflexivity. Qed.

(** C7, as stated, fails: triangles with a repeated vertex go through
    every builder and a graph is returned. *)
Lemma degenerate_triangles_accepted :
  ∃ g, init 1000 three_nodes degenerate_faces = Ok g ∧
       nodes_at_link g = [(0, 0); (0, 1); (0, 2)].
Proof. eexists. split; vm_compute; reflexivity. Defined.

(** A negative index is not rejected either: it counts from the end. *)
Lemma negative_index_accepted :
  ∃ g, init 1000 [(0, 0, 1); (1, 0, 0); (0, 1, 0); (-1, 0, 0)]
         [(0, 1, 2); (0, -1, 1); (0, 2, -1); (1, -1, 2)] = Ok g.
Proof. eexists. vm_compute. reflexivity. Qed.

Lemma links_and_patches_count_witness :
  Z.of_nat (length pyramid_grid) ≤ 2 ^ 31 ∧
  init 1000 pyramid_grid pyramid_faces = Ok pyramid_mesh ∧
  (2 * number_of_links pyramid_mesh = 3 * number_of_patches pyramid_mesh)%nat ∧
  length (nodes_at_link pyramid_mesh) = number_of_links pyramid_mesh ∧
  length (node_at_link_tail pyramid_mesh) = number_of_links pyramid_mesh ∧
  length (node_at_link_head pyramid_mesh) = number_of_links pyramid_mesh ∧
  length (length_of_link pyramid_mesh) = number_of_links pyramid_mesh.
Proof.
  split; [vm_compute; discriminate|]. split; [exact pyramid_init|].
  apply (links_and_patches_count 1000 pyramid_grid pyramid_faces pyramid_mesh);
    [vm_compute; discriminate | exact pyramid_init].
Defined.

Lemma node_spherical_coordinates_witness :
  init 1000 pyramid_grid pyramid_faces = Ok pyramid_mesh ∧
  let sph :=
    (fun p : vec3 Z => cartesian_to_spherical p.1.1 p.1.2 p.2) <$> pyramid_grid in
  ∃ g',
    r_of_node pyramid_mesh = Ok ((fun s => s.1.1) <$> sph, g') ∧
    phi_of_node pyramid_mesh = Ok ((fun s => s.1.2) <$> sph, g') ∧
    theta_of_node pyramid_mesh = Ok ((fun s => s.2) <$> sph, g') ∧
    r_of_node g' = Ok ((fun s => s.1.1) <$> sph, g') ∧
    phi_of_node g' = Ok ((fun s => s.1.2) <$> sph, g') ∧
    theta_of_node g' = Ok ((fun s => s.2) <$> sph, g') ∧
    same_tables pyramid_mesh g' ∧
    corners_at_node g' = corners_at_node pyramid_mesh.
Proof.
  split; [exact pyramid_init|].
  exact (node_spherical_coordinates 1000 pyramid_grid pyramid_faces pyramid_mesh
           pyramid_init).
Defined.

Lemma corner_of_reversed_patch_witness :
  corner_of_patch (F := Z) 1000 (0, 0, 1) (0, 1, 0) (1, 0, 0)
  = vneg (corner_of_patch 1000 (0, 0, 1) (1, 0, 0) (0, 1, 0)).
Proof.
  apply (corner_of_reversed_patch (F := Z)).
  - intros x y. simpl. lia.
  - intros x y. simpl. lia.
  - intros x y. simpl. lia.
  - intros x. simpl. lia.
Defined.

Lemma vtk_file_layout_witness :
  [[0; 1; 2]] ≠ [] ∧
  let file :=
    (_points_and_cells_to_vtk three_nodes [[0; 1; 2]] (Some [7]) "cell_data").1 in
  let npoints := length three_nodes in
  let ncells := length [[0; 1; 2]] in
  (_points_and_cells_to_vtk three_nodes [[0; 1; 2]] (Some [7]) "cell_data").2
  = Ok () ∧
  file !! 4%nat = Some ("POINTS " +:+ str_int (Z.of_nat npoints) +:+ " float") ∧
  (∀ (i : nat) p, three_nodes !! i = Some p →
     file !! (5 + i)%nat = Some (point_line p)) ∧
  file !! (5 + npoints)%nat = Some EmptyString ∧
  file !! (7 + npoints + ncells)%nat = Some EmptyString ∧
  file !! (8 + npoints + ncells)%nat
  = Some ("CELL_TYPES " +:+ str_int (Z.of_nat ncells)) ∧
  (∃ type, (type = str_int 5 ∨ type = str_int 7) ∧
     ∀ i : nat, (i < ncells)%nat →
       file !! (9 + npoints + ncells + i)%nat = Some type) ∧
  file !! (9 + npoints + 2 * ncells)%nat
  = Some ("CELL_DATA " +:+ str_int (Z.of_nat (length [7]))) ∧
  file !! (10 + npoints + 2 * ncells)%nat
  = Some ("SCALARS " +:+ "cell_data" +:+ " float 1") ∧
  file !! (11 + npoints + 2 * ncells)%nat = Some "LOOKUP_TABLE default" ∧
  (∀ (i : nat) v, [7] !! i = Some v →
     file !! (12 + npoints + 2 * ncells + i)%nat = Some (str_float v)) ∧
  length file = (12 + npoints + 2 * ncells + length [7])%nat.
Proof.
  split; [done|].
  apply (vtk_file_layout three_nodes [[0; 1; 2]] (Some [7]) "cell_data"). done.
Defined.

Lemma to_vtk_returns_witness :
  init 1000 pyramid_grid pyramid_faces = Ok pyramid_mesh ∧
  (to_vtk pyramid_mesh "icosphere" None "cell_data" None "patch_data").2 = Ok () ∧
  (to_vtk pyramid_mesh "icosphere" None "cell_data" None "patch_data").1.*1
  = [ "icosphere" +:+ "_cells.vtk"; "icosphere" +:+ "_patches.vtk" ].
Proof.
  split; [exact pyramid_init|].
  exact (to_vtk_returns 1000 pyramid_grid pyramid_faces pyramid_mesh "icosphere"
           None "cell_data" None "patch_data" pyramid_init).
Defined.

Lemma icosahedron_indices :
  Forall (fun t => 0 ≤ t.1.1 ∧ 0 ≤ t.1.2 ∧ 0 ≤ t.2) icosahedron_faces.
Proof. repeat constructor; simpl; lia. Qed.

Lemma icosahedron_size : Z.of_nat (length icosahedron_grid) ≤ 2 ^ 31.
Proof. vm_compute. discriminate. Qed.

Lemma patches_file_content_witness :
  init 1000 icosahedron_grid icosahedron_faces = Ok icosahedron_mesh ∧
  icosahedron_grid ≠ [] ∧
  (to_vtk icosahedron_mesh "icosphere" None "cell_data"
     (Some (replicate 20 0)) "patch_data").1 !! 1%nat
  = Some ("icosphere" +:+ "_patches.vtk",
          [ "# vtk DataFile Version 2.0"; "Landlab Icosphere Grid"; "ASCII";
            "DATASET UNSTRUCTURED_GRID";
            "POINTS " +:+ str_int (Z.of_nat (length icosahedron_grid)) +:+ " float" ]
          ++ (point_line <$> icosahedron_grid)
          ++ [ EmptyString;
               "CELLS " +:+ str_int (Z.of_nat (length icosahedron_faces)) +:+ " "
                 +:+ str_int (4 * Z.of_nat (length icosahedron_faces)) ]
          ++ ((fun t => ids_line 3 [t.1.1; t.1.2; t.2]) <$> icosahedron_faces)
          ++ [ EmptyString;
               "CELL_TYPES " +:+ str_int (Z.of_nat (length icosahedron_faces)) ]
          ++ replicate (length icosahedron_faces) "5"
          ++ [ "CELL_DATA " +:+ str_int (Z.of_nat (length (replicate 20 0)));
               "SCALARS " +:+ "patch_data" +:+ " float 1";
               "LOOKUP_TABLE default" ]
          ++ (str_float <$> replicate 20 0)).
Proof.
  split; [exact icosahedron_init|]. split; [done|].
  exact (patches_file_content 1000 icosahedron_grid icosahedron_faces icosahedron_mesh
           "icosphere" None "cell_data" (Some (replicate 20 0)) "patch_data"
           icosahedron_init ltac:(done) icosahedron_indices
           (or_intror icosahedron_size)).
Defined.

Lemma cells_file_well_formed_witness :
  init 1000 pyramid_grid pyramid_faces = Ok pyramid_mesh ∧
  ∃ lines,
    (to_vtk pyramid_mesh "icosphere" None "cell_data" None "patch_data").1 !! 0%nat
    = Some ("icosphere" +:+ "_cells.vtk", lines) ∧
    lines !! 4%nat
    = Some ("POINTS " +:+ str_int (Z.of_nat (length pyramid_faces)) +:+ " float") ∧
    ∀ (cell : nat) row, corners_at_cell pyramid_mesh !! cell = Some row →
      Forall (fun id => 0 ≤ id < Z.of_nat (length pyramid_faces)) (printed_ids row) ∧
      lines !! (7 + length pyramid_faces + cell)%nat
      = Some (ids_line (length (printed_ids row)) (printed_ids row)).
Proof.
  split; [exact pyramid_init|].
  exact (cells_file_well_formed 1000 pyramid_grid pyramid_faces pyramid_mesh
           "icosphere" None "cell_data" None "patch_data" pyramid_init).
Defined.
